(** * DynLaborFertModel: a shallow embedding of [src/DynLaborFertModel.py]

    The model class solves a finite-horizon household problem by backward
    induction ([solve]) and simulates households forward ([simulate]).

    Conventions of the embedding.
    - Python and numpy floats are idealised as real numbers ([R]).  An
      operation whose floating-point result would leave the finite reals
      (division by zero, zero to a negative power, a negative base to a
      non-integral power) or that raises, yields [None].
    - Python and numpy integers are [Z]; numpy arrays are lists, read and
      written with numpy's index rule (negative indices count from the end,
      anything else out of range raises, here [None]).
    - numpy's own arithmetic does not raise on a division by zero.  Where
      the source goes on computing with such a value ([hours_min] in
      [solve], which [np.maximum] may bring back to a finite value), it is
      followed as a [float64]; the sign of a zero is then computed from
      the sign bits of the factors, a zero of the data ([w_vec], the
      grids) being [+0.0].
    - [consav.linear_interp.interp_2d] and [scipy.optimize.minimize] are
      external libraries: the functions that call them take them as
      parameters, on finite reals. *)

From Stdlib Require Import Reals Lra ZArith Lia List Bool.
From stdpp Require Import base option list.
Import ListNotations.

Open Scope R_scope.

(** ** numpy arrays *)

(** numpy's index normalisation for an axis of length [len]. *)
Definition np_index (len : nat) (i : Z) : option nat :=
  let n := Z.of_nat len in
  if bool_decide (0 <= i < n)%Z then Some (Z.to_nat i)
  else if bool_decide (- n <= i < 0)%Z then Some (Z.to_nat (n + i))
  else None.

Definition np_get {A} (l : list A) (i : Z) : option A :=
  j ← np_index (length l) i; l !! j.

Definition np_set {A} (l : list A) (i : Z) (v : A) : option (list A) :=
  j ← np_index (length l) i; Some (<[j:=v]> l).

(** [a[i,t]] and [a[i,t] = v] on a two-dimensional array. *)
Definition get2 {A} (a : list (list A)) (i t : Z) : option A :=
  row ← np_get a i; np_get row t.

Definition set2 {A} (a : list (list A)) (i t : Z) (v : A)
  : option (list (list A)) :=
  row ← np_get a i; row' ← np_set row t v; np_set a i row'.

(** A two-dimensional slice over (asset index, capital index). *)
Abbreviation slice := (list (list R)).
(** The solution arrays have shape (T, Nn, Ns, Na, Nk). *)
Abbreviation array5 := (list (list (list slice))).

(** [a[t,i_n,i_s]]: the (Na, Nk) slice of a solution array. *)
Definition get3 (a : array5) (t i_n i_s : Z) : option slice :=
  a_t ← np_get a t; a_n ← np_get a_t i_n; np_get a_n i_s.

(** [a[t,i_n,i_s,i_a,i_k]] *)
Definition get5 (a : array5) (t i_n i_s i_a i_k : Z) : option R :=
  sl ← get3 a t i_n i_s; get2 sl i_a i_k.

(** [a[t,i_n,i_s,i_a,i_k] = v] *)
Definition set5 (a : array5) (t i_n i_s i_a i_k : Z) (v : R) : option array5 :=
  a_t ← np_get a t; a_n ← np_get a_t i_n; sl ← np_get a_n i_s;
  sl' ← set2 sl i_a i_k v;
  a_n' ← np_set a_n i_s sl'; a_t' ← np_set a_t i_n a_n'; np_set a t a_t'.

(** [range(n)] *)
Definition range (n : Z) : list Z := map Z.of_nat (seq 0 (Z.to_nat n)).

(** [enumerate(l)] *)
Definition enumerate {A} (l : list A) : list (Z * A) :=
  combine (map Z.of_nat (seq 0 (length l))) l.

(** A [for] loop whose body may raise: the state is threaded through the
    bodies in order and the first failure aborts the loop. *)
Fixpoint for_each {S A} (body : S -> A -> option S) (st : S) (l : list A)
  : option S :=
  match l with
  | [] => Some st
  | x :: l' => st' ← body st x; for_each body st' l'
  end.

(** ** Python float primitives *)

(** The comparison [x <= y] as a Python (or numpy) bool. *)
Definition Rleb (x y : R) : bool := if Rle_dec x y then true else false.

(** The comparison [x < y] as a Python (or numpy) bool. *)
Definition Rltb (x y : R) : bool := if Rlt_dec x y then true else false.

(** [max(a, b)]: the first argument unless the second is greater. *)
Definition py_max (a b : R) : R := if Rlt_dec a b then b else a.

(** [x / y] *)
Definition py_div (x y : R) : option R :=
  if Req_dec_T y 0 then None else Some (x / y).

(** [x ** y] *)
Definition py_pow (x y : R) : option R :=
  if Rlt_dec 0 x then Some (Rpower x y)
  else if Req_dec_T x 0 then
    (if Rlt_dec y 0 then None else if Req_dec_T y 0 then Some 1 else Some 0)
  else if Req_dec_T y (IZR (Int_part y)) then Some (powerRZ x (Int_part y))
  else None.

(** ** numpy float primitives *)

(** A numpy [float64] scalar: a finite value, an infinity or NaN. *)
Inductive float64 : Type :=
| Fin (r : R)
| PInf
| NInf
| NaN.

(** The sign bit of a float of value [x], where a zero is [+0.0]. *)
Definition signbit (x : R) : bool := Rltb x 0.

(** [x / y] on [float64] scalars of finite values [x] and [y], where
    [y_neg] is the sign bit of [y]: a division by zero gives NaN for
    [0 / 0] and otherwise the infinity whose sign is the product of the
    signs, and does not raise. *)
Definition np_true_divide (x y : R) (y_neg : bool) : float64 :=
  if Req_dec_T y 0 then
    if Req_dec_T x 0 then NaN
    else if xorb (signbit x) y_neg then NInf else PInf
  else Fin (x / y).

(** [a + b] for a finite [b] *)
Definition np_add (a : float64) (b : R) : float64 :=
  match a with
  | Fin r => Fin (r + b)
  | _ => a
  end.

(** [np.maximum(a, b)] on scalars, for a finite [b]: NaN propagates. *)
Definition np_maximum (a : float64) (b : R) : float64 :=
  match a with
  | Fin r => Fin (Rmax r b)
  | PInf => PInf
  | NInf => Fin b
  | NaN => NaN
  end.

(** A [float64] as a finite real, if it is one. *)
Definition np_finite (a : float64) : option R :=
  match a with
  | Fin r => Some r
  | _ => None
  end.

(** ** The namespaces [par], [sol] and [sim] *)

Module Par.
Record t := mk {
  T : Z;
  rho : R; beta_0 : R; beta_1 : R; eta : R; gamma : R;
  alpha : R; w : R; tau : R;
  p_birth : R; p_spouse : R; theta : R;
  r : R;
  a_max : R; a_min : R; Na : Z;
  k_max : R; Nk : Z;
  Nn : Z; spouse_dummy : Z; Ns : Z;
  simT : Z; simN : Z;
  a_grid : list R; k_grid : list R;
  n_grid : list Z; spouse_grid : list Z;
  w_vec : list R
}.
End Par.

Module Sol.
Record t := mk { c : array5; h : array5; V : array5 }.
End Sol.

Module Sim.
Record t := mk {
  c : list (list R); h : list (list R);
  a : list (list R); k : list (list R);
  n : list (list Z); s : list (list Z);
  draws_uniform : list (list R); draws_uniform_spouse : list (list R);
  a_init : list R; k_init : list R; n_init : list Z
}.

(** Assignment to one of the arrays of the namespace. *)
Definition set_c (sim : t) (v : list (list R)) : t :=
  mk v (h sim) (a sim) (k sim) (n sim) (s sim) (draws_uniform sim)
     (draws_uniform_spouse sim) (a_init sim) (k_init sim) (n_init sim).
Definition set_h (sim : t) (v : list (list R)) : t :=
  mk (c sim) v (a sim) (k sim) (n sim) (s sim) (draws_uniform sim)
     (draws_uniform_spouse sim) (a_init sim) (k_init sim) (n_init sim).
Definition set_a (sim : t) (v : list (list R)) : t :=
  mk (c sim) (h sim) v (k sim) (n sim) (s sim) (draws_uniform sim)
     (draws_uniform_spouse sim) (a_init sim) (k_init sim) (n_init sim).
Definition set_k (sim : t) (v : list (list R)) : t :=
  mk (c sim) (h sim) (a sim) v (n sim) (s sim) (draws_uniform sim)
     (draws_uniform_spouse sim) (a_init sim) (k_init sim) (n_init sim).
Definition set_n (sim : t) (v : list (list Z)) : t :=
  mk (c sim) (h sim) (a sim) (k sim) v (s sim) (draws_uniform sim)
     (draws_uniform_spouse sim) (a_init sim) (k_init sim) (n_init sim).
Definition set_s (sim : t) (v : list (list Z)) : t :=
  mk (c sim) (h sim) (a sim) (k sim) (n sim) v (draws_uniform sim)
     (draws_uniform_spouse sim) (a_init sim) (k_init sim) (n_init sim).
End Sim.

(** The result object of [scipy.optimize.minimize]: [res.x] and [res.fun]. *)
Module Res.
Record t := mk { x : list R; fun_ : R }.
End Res.

(** [setup] followed by [allocate], with the horizon, the numbers of
    children levels, spouse states and simulated individuals and the two
    probabilities of [setup] replaced by the arguments (the model class
    takes such replacements when it is constructed).  The two grids come
    from [consav.grids.nonlinspace] and are taken as given; [Na] and [Nk]
    are their sizes. *)
Definition configure (T Nn Ns simN : Z) (p_birth p_spouse : R)
    (a_grid k_grid : list R) : Par.t :=
  let w := 1.0 in
  {| Par.T := T;
     Par.rho := 0.98; Par.beta_0 := 0.1; Par.beta_1 := 0.05;
     Par.eta := -2.0; Par.gamma := 2.5;
     Par.alpha := 0.1; Par.w := w; Par.tau := 0.1;
     Par.p_birth := p_birth; Par.p_spouse := p_spouse; Par.theta := 0.00;
     Par.r := 0.02;
     Par.a_max := 5.0; Par.a_min := -10.0; Par.Na := Z.of_nat (length a_grid);
     Par.k_max := 20.0; Par.Nk := Z.of_nat (length k_grid);
     Par.Nn := Nn; Par.spouse_dummy := 0; Par.Ns := Ns;
     Par.simT := T; Par.simN := simN;
     Par.a_grid := a_grid; Par.k_grid := k_grid;
     Par.n_grid := range Nn; Par.spouse_grid := range Ns;
     Par.w_vec := map (fun _ => w * 1) (range T) |}.

(** The baseline parameters of [setup]; the grids have [Na = 50] and
    [Nk = 20] points. *)
Definition baseline (a_grid k_grid : list R) : Par.t :=
  configure 10 2 2 1000 0.1 1.0 a_grid k_grid.

(** ** Period reward model *)

Definition util (par : Par.t) (c hours : R) (kids : Z) : option R :=
  let beta := par.(Par.beta_0) + par.(Par.beta_1) * IZR kids in
  c_pow ← py_pow c (1.0 + par.(Par.eta));
  c_term ← py_div c_pow (1.0 + par.(Par.eta));
  h_pow ← py_pow hours (1.0 + par.(Par.gamma));
  h_term ← py_div (beta * h_pow) (1.0 + par.(Par.gamma));
  Some (c_term - h_term).

(** after tax wage rate *)
Definition wage_func (par : Par.t) (capital : R) (t : Z) : option R :=
  w_t ← np_get par.(Par.w_vec) t;
  Some ((1.0 - par.(Par.tau)) * w_t * (1.0 + par.(Par.alpha) * capital)).

(** The sign bit of the float [wage_func(capital, t)]: the sign bit of a
    product is the exclusive or of those of its factors, also when the
    product is zero; the difference [1.0 - tau] and the sum
    [1.0 + alpha * capital] are [+0.0] when they vanish. *)
Definition wage_func_signbit (par : Par.t) (capital : R) (t : Z)
  : option bool :=
  w_t ← np_get par.(Par.w_vec) t;
  Some (xorb (xorb (signbit (1.0 - par.(Par.tau))) (signbit w_t))
          (signbit (1.0 + par.(Par.alpha) * capital))).

Definition spouse_income_func (par : Par.t) (spouse t : Z) : R :=
  if (par.(Par.spouse_dummy) =? 0)%Z then 0
  else IZR spouse * (0.1 + 0.01 * IZR t).

Definition childcare_cost (par : Par.t) (kids : Z) : R :=
  par.(Par.theta) * IZR kids.

(** ** Last period *)

Definition cons_last (par : Par.t) (hours assets capital : R) (kids spouse : Z)
  : option R :=
  w_last ← wage_func par capital (par.(Par.T) - 1);
  let income_w := w_last * hours in
  let spouse_income := spouse_income_func par spouse (par.(Par.T) - 1) in
  let income := income_w + spouse_income in
  let childcare_cost := childcare_cost par kids in
  let cons := py_max (assets + income - childcare_cost) 1e-8 in
  Some cons.

Definition obj_last (par : Par.t) (hours assets capital : R) (kids spouse : Z)
  : option R :=
  cons ← cons_last par hours assets capital kids spouse;
  u ← util par cons hours kids;
  Some (- u).

(** ** Earlier periods *)

(** The three interpolated continuation values of [value_of_choice]. *)
Record Cont := mkCont {
  V_next_no_birth : R;
  V_next_birth : R;
  V_next_no_spouse : R
}.

Section Model.

(** [consav.linear_interp.interp_2d(grid1, grid2, value, xi1, xi2)] *)
Variable interp_2d : list R -> list R -> slice -> R -> R -> R.

(** [value_of_choice], block b: penalty for violating bounds.  Returns
    the penalty and the values of [cons] and [hours] used afterwards
    (primed here: [cons] cannot be rebound in a pattern). *)
Definition penalty_clamp (cons hours : R) : R * R * R :=
  let penalty := 0.0 in
  let '(penalty, cons') :=
    if Rlt_dec cons 0.0 then (penalty + cons * 1000.0, 1.0e-5)
    else (penalty, cons) in
  let '(penalty, hours') :=
    if Rlt_dec hours 0.0 then (penalty + hours * 1000.0, 0.0)
    else (penalty, hours) in
  (penalty, cons', hours').

(** [value_of_choice], block d up to [k_next]: next-period assets and
    human capital, [(a_next, k_next)]. *)
Definition next_state (par : Par.t) (cons hours assets capital : R)
    (kids spouse t : Z) : option (R * R) :=
  w_t ← wage_func par capital t;
  let income_w := w_t * hours in
  let spouse_income := spouse_income_func par spouse t in
  let income := income_w + spouse_income in
  let childcare_cost := childcare_cost par kids in
  let a_next := (1.0 + par.(Par.r)) * (assets + income - cons - childcare_cost) in
  let k_next := capital + hours in
  Some (a_next, k_next).

(** [value_of_choice], the blocks "spouse", "no birth" and "birth" and
    the no-spouse interpolation.  The variable [kids_next] is assigned in
    the "no birth" block, reassigned in the else-branch of the "birth"
    block, and read again for [V_next_ns]. *)
Definition continuation (par : Par.t) (sol : Sol.t) (a_next k_next : R)
    (kids t : Z) : option Cont :=
  let spouse_next := 1%Z in
  let no_spouse_next := 0%Z in
  let kids_next := kids in
  V_next ← get3 sol.(Sol.V) (t + 1) kids_next spouse_next;
  let V_next_no_birth :=
    interp_2d par.(Par.a_grid) par.(Par.k_grid) V_next a_next k_next in
  '(kids_next, V_next_birth) ←
    (if (kids >=? par.(Par.Nn) - 1)%Z then
       Some (kids_next, V_next_no_birth)
     else
       let kids_next := (kids + 1)%Z in
       V_next ← get3 sol.(Sol.V) (t + 1) kids_next spouse_next;
       Some (kids_next,
             interp_2d par.(Par.a_grid) par.(Par.k_grid) V_next a_next k_next));
  V_next_ns ← get3 sol.(Sol.V) (t + 1) kids_next no_spouse_next;
  let V_next_no_spouse :=
    interp_2d par.(Par.a_grid) par.(Par.k_grid) V_next_ns a_next k_next in
  Some (mkCont V_next_no_birth V_next_birth V_next_no_spouse).

(** [value_of_choice], block d: the expected continuation value
    [EV_next], from the values of [cons] and [hours] left by block b. *)
Definition EV_next (par : Par.t) (sol : Sol.t) (cons hours assets capital : R)
    (kids spouse t : Z) : option R :=
  '(a_next, k_next) ← next_state par cons hours assets capital kids spouse t;
  co ← continuation par sol a_next k_next kids t;
  let EV_next_spouse :=
    par.(Par.p_birth) * co.(V_next_birth)
    + (1 - par.(Par.p_birth)) * co.(V_next_no_birth) in
  let EV_next_no_spouse := co.(V_next_no_spouse) in
  Some (par.(Par.p_spouse) * EV_next_spouse
        + (1 - par.(Par.p_spouse)) * EV_next_no_spouse).

Definition value_of_choice (par : Par.t) (sol : Sol.t)
    (cons hours assets capital : R) (kids spouse t : Z) : option R :=
  let '(penalty, cons', hours') := penalty_clamp cons hours in
  u ← util par cons' hours' kids;
  ev ← EV_next par sol cons' hours' assets capital kids spouse t;
  Some (u + par.(Par.rho) * ev + penalty).

(** ** Simulation *)

(** The body of the loop over [t] in [simulate], for individual [i]. *)
Definition simulate_period (par : Par.t) (sol : Sol.t) (i : Z)
    (sim : Sim.t) (t : Z) : option Sim.t :=
  let spouse := 0%Z in
  draw_s ← get2 sim.(Sim.draws_uniform_spouse) i t;
  let spouse := if Rleb draw_s par.(Par.p_spouse) then 1%Z else spouse in
  s' ← set2 sim.(Sim.s) i t spouse;
  let sim := Sim.set_s sim s' in
  (* ii. interpolate optimal consumption and hours *)
  n_it ← get2 sim.(Sim.n) i t;
  s_it ← get2 sim.(Sim.s) i t;
  let idx_sol := (t, n_it, s_it) in
  sol_c ← (let '(i0, i1, i2) := idx_sol in get3 sol.(Sol.c) i0 i1 i2);
  a_it ← get2 sim.(Sim.a) i t;
  k_it ← get2 sim.(Sim.k) i t;
  c' ← set2 sim.(Sim.c) i t
         (interp_2d par.(Par.a_grid) par.(Par.k_grid) sol_c a_it k_it);
  let sim := Sim.set_c sim c' in
  sol_h ← (let '(i0, i1, i2) := idx_sol in get3 sol.(Sol.h) i0 i1 i2);
  a_it ← get2 sim.(Sim.a) i t;
  k_it ← get2 sim.(Sim.k) i t;
  h' ← set2 sim.(Sim.h) i t
         (interp_2d par.(Par.a_grid) par.(Par.k_grid) sol_h a_it k_it);
  let sim := Sim.set_h sim h' in
  (* iii. store next-period states *)
  if (t <? par.(Par.simT) - 1)%Z then
    k_it ← get2 sim.(Sim.k) i t;
    w_t ← wage_func par k_it t;
    h_it ← get2 sim.(Sim.h) i t;
    let income_w := w_t * h_it in
    s_it ← get2 sim.(Sim.s) i t;
    let spouse_income := spouse_income_func par s_it t in
    let income := income_w + spouse_income in
    n_it ← get2 sim.(Sim.n) i t;
    let childcare_cost := childcare_cost par n_it in
    a_it ← get2 sim.(Sim.a) i t;
    c_it ← get2 sim.(Sim.c) i t;
    a' ← set2 sim.(Sim.a) i (t + 1)
           ((1 + par.(Par.r)) * (a_it + income - c_it - childcare_cost));
    let sim := Sim.set_a sim a' in
    k_it ← get2 sim.(Sim.k) i t;
    h_it ← get2 sim.(Sim.h) i t;
    k' ← set2 sim.(Sim.k) i (t + 1) (k_it + h_it);
    let sim := Sim.set_k sim k' in
    let birth := 0%Z in
    draw_b ← get2 sim.(Sim.draws_uniform) i t;
    n_it ← get2 sim.(Sim.n) i t;
    s_it ← get2 sim.(Sim.s) i t;
    let birth :=
      if Rleb draw_b par.(Par.p_birth)
         && (n_it <? par.(Par.Nn) - 1)%Z && (s_it =? 1)%Z
      then 1%Z else birth in
    n_it ← get2 sim.(Sim.n) i t;
    n' ← set2 sim.(Sim.n) i (t + 1) (n_it + birth)%Z;
    Some (Sim.set_n sim n')
  else Some sim.

(** The body of the loop over [i] in [simulate]. *)
Definition simulate_individual (par : Par.t) (sol : Sol.t)
    (sim : Sim.t) (i : Z) : option Sim.t :=
  (* i. initialize states *)
  n0 ← np_get sim.(Sim.n_init) i;
  n' ← set2 sim.(Sim.n) i 0 n0;
  let sim := Sim.set_n sim n' in
  a0 ← np_get sim.(Sim.a_init) i;
  a' ← set2 sim.(Sim.a) i 0 a0;
  let sim := Sim.set_a sim a' in
  k0 ← np_get sim.(Sim.k_init) i;
  k' ← set2 sim.(Sim.k) i 0 k0;
  let sim := Sim.set_k sim k' in
  for_each (simulate_period par sol i) sim (range par.(Par.simT)).

Definition simulate (par : Par.t) (sol : Sol.t) (sim : Sim.t)
  : option Sim.t :=
  for_each (simulate_individual par sol) sim (range par.(Par.simN)).

(** ** Solution *)

(** A bound [(lb, ub)] of the optimizer; [None] stands for [np.inf]. *)
Definition bound : Type := R * option R.

(** [scipy.optimize.minimize(obj, x0, bounds=..., constraints=nlc,
    method='trust-constr')], where [nlc] is the nonlinear constraint
    [NonlinearConstraint(constr, lb, ub, keep_feasible=True)]. *)
Variable minimize_trust_constr :
  (list R -> option R) -> list R -> list bound ->
  (list R -> option R) * bound -> option Res.t.

(** [scipy.optimize.minimize(obj, x0, bounds=..., method='L-BFGS-B')] *)
Variable minimize_lbfgsb :
  (list R -> option R) -> list R -> list bound -> option Res.t.

(** One iteration of the innermost loop of [solve]: the loop variables. *)
Record Cell := mkCell {
  cell_t : Z;
  cell_i_n : Z; cell_kids : Z;
  cell_i_a : Z; cell_assets : R;
  cell_i_k : Z; cell_capital : R;
  cell_i_s : Z; cell_spouse : Z
}.

(** The iterations of the five nested loops of [solve], in order. *)
Definition cells (par : Par.t) : list Cell :=
  t ← reverse (range par.(Par.T));
  '(i_n, kids) ← enumerate par.(Par.n_grid);
  '(i_a, assets) ← enumerate par.(Par.a_grid);
  '(i_k, capital) ← enumerate par.(Par.k_grid);
  '(i_s, spouse) ← enumerate par.(Par.spouse_grid);
  [mkCell t i_n kids i_a assets i_k capital i_s spouse].

(** A call of the optimizer, as observed from outside: the cell, the
    initial guess passed and the result returned. *)
Record Call := mkCall {
  call_cell : Cell;
  call_init : list R;
  call_res : Res.t
}.

(** The state of [solve]: the solution arrays, the local variable [res]
    (unbound before the first call) and, as ghost state, the calls of the
    optimizer so far in chronological order. *)
Record SolveState := mkSolveState {
  st_sol : Sol.t;
  st_res : option Res.t;
  st_calls : list Call
}.

(** The test [(i_n == 0 & i_s & i_a==0 & i_k==0)] of the initial guess.
    In Python [&] binds tighter than [==], so this is the chained
    comparison [i_n == (0 & i_s & i_a) == (0 & i_k) == 0]. *)
Definition default_guess_test (i_n i_s i_a i_k : Z) : bool :=
  let m1 := Z.land (Z.land 0 i_s) i_a in
  let m2 := Z.land 0 i_k in
  (i_n =? m1)%Z && (m1 =? m2)%Z && (m2 =? 0)%Z.

(** The body of the innermost loop of [solve].  In the last period
    [hours_min] is computed for every cell and used at the first asset
    index only; an infinite or NaN [hours_min] used as the initial guess
    leaves the finite reals the optimizer is given on. *)
Definition solve_cell (par : Par.t) (st : SolveState) (cell : Cell)
  : option SolveState :=
  let sol := st.(st_sol) in
  let t := cell.(cell_t) in
  let i_n := cell.(cell_i_n) in let kids := cell.(cell_kids) in
  let i_a := cell.(cell_i_a) in let assets := cell.(cell_assets) in
  let i_k := cell.(cell_i_k) in let capital := cell.(cell_capital) in
  let i_s := cell.(cell_i_s) in let spouse := cell.(cell_spouse) in
  if (t =? par.(Par.T) - 1)%Z then
    (* last period *)
    let obj := fun x : list R =>
      x0 ← np_get x 0; obj_last par x0 assets capital kids spouse in
    let constr := fun x : list R =>
      x0 ← np_get x 0; cons_last par x0 assets capital kids spouse in
    let nlc := (constr, (0.0, None)) in
    (* call optimizer *)
    w_t ← wage_func par capital t;
    w_neg ← wage_func_signbit par capital t;
    let hours_min := np_add (np_true_divide (- assets) w_t w_neg) 1.0e-5 in
    let hours_min := np_maximum hours_min 2.0 in
    init_h ← (if (i_a =? 0)%Z then
                (* the optimizer is a function of finite reals *)
                h_min ← np_finite hours_min; Some [h_min]
              else h_prev ← get5 sol.(Sol.h) t i_n i_s (i_a - 1) i_k;
                   Some [h_prev]);
    res ← minimize_trust_constr obj init_h [(0.0, None)] nlc;
    (* store results *)
    x0 ← np_get res.(Res.x) 0;
    c_val ← cons_last par x0 assets capital kids spouse;
    sol_c ← set5 sol.(Sol.c) t i_n i_s i_a i_k c_val;
    x0 ← np_get res.(Res.x) 0;
    sol_h ← set5 sol.(Sol.h) t i_n i_s i_a i_k x0;
    sol_V ← set5 sol.(Sol.V) t i_n i_s i_a i_k (- res.(Res.fun_));
    Some (mkSolveState (Sol.mk sol_c sol_h sol_V) (Some res)
            (st.(st_calls) ++ [mkCall cell init_h res]))
  else
    (* objective function: negative since we minimize *)
    let obj := fun x : list R =>
      x0 ← np_get x 0; x1 ← np_get x 1;
      v ← value_of_choice par sol x0 x1 assets capital kids spouse t;
      Some (- v) in
    let lb_c := 0.000001 in
    let ub_c : option R := None in
    let lb_h := 0.0 in
    let ub_h : option R := None in
    let bounds := [(lb_c, ub_c); (lb_h, ub_h)] in
    (* call optimizer *)
    init ← (if default_guess_test i_n i_s i_a i_k then Some [lb_c; 1.0]
            else res ← st.(st_res); Some res.(Res.x));
    res ← minimize_lbfgsb obj init bounds;
    (* store results *)
    x0 ← np_get res.(Res.x) 0;
    sol_c ← set5 sol.(Sol.c) t i_n i_s i_a i_k x0;
    x1 ← np_get res.(Res.x) 1;
    sol_h ← set5 sol.(Sol.h) t i_n i_s i_a i_k x1;
    sol_V ← set5 sol.(Sol.V) t i_n i_s i_a i_k (- res.(Res.fun_));
    Some (mkSolveState (Sol.mk sol_c sol_h sol_V) (Some res)
            (st.(st_calls) ++ [mkCall cell init res])).

(** The run of [solve] from solution arrays [sol]. *)
Definition solve_run (par : Par.t) (sol : Sol.t) : option SolveState :=
  for_each (solve_cell par) (mkSolveState sol None []) (cells par).

Definition solve (par : Par.t) (sol : Sol.t) : option Sol.t :=
  st ← solve_run par sol; Some st.(st_sol).

End Model.

(** ** What a period of the simulation leaves in the arrays *)

(** The cells of an individual in one period. *)
Record Period := mkPeriod {
  p_n : Z; p_s : Z;
  p_a : R; p_k : R;
  p_c : R; p_h : R
}.

Section Transition.

Variable interp_2d : list R -> list R -> slice -> R -> R -> R.

(** The cells [sim.n[i,t]], [sim.s[i,t]], [sim.a[i,t]], [sim.k[i,t]],
    [sim.c[i,t]] and [sim.h[i,t]]. *)
Definition read_period (sim : Sim.t) (i t : Z) : option Period :=
  n_it ← get2 sim.(Sim.n) i t;
  s_it ← get2 sim.(Sim.s) i t;
  a_it ← get2 sim.(Sim.a) i t;
  k_it ← get2 sim.(Sim.k) i t;
  c_it ← get2 sim.(Sim.c) i t;
  h_it ← get2 sim.(Sim.h) i t;
  Some (mkPeriod n_it s_it a_it k_it c_it h_it).

(** The states [sim.a[i,t]], [sim.k[i,t]] and [sim.n[i,t]]. *)
Definition read_state (sim : Sim.t) (i t : Z) : option (R * R * Z) :=
  a_it ← get2 sim.(Sim.a) i t;
  k_it ← get2 sim.(Sim.k) i t;
  n_it ← get2 sim.(Sim.n) i t;
  Some (a_it, k_it, n_it).

(** The spouse indicator and the choices of period [t] are those the
    loop body computes from the states of period [t]. *)
Definition policy_ok (par : Par.t) (sol : Sol.t) (sim : Sim.t) (i t : Z)
    (p : Period) : Prop :=
  exists draw_s sol_c sol_h,
    get2 sim.(Sim.draws_uniform_spouse) i t = Some draw_s /\
    p.(p_s) = (if Rleb draw_s par.(Par.p_spouse) then 1 else 0)%Z /\
    get3 sol.(Sol.c) t p.(p_n) p.(p_s) = Some sol_c /\
    get3 sol.(Sol.h) t p.(p_n) p.(p_s) = Some sol_h /\
    p.(p_c) = interp_2d par.(Par.a_grid) par.(Par.k_grid) sol_c p.(p_a) p.(p_k) /\
    p.(p_h) = interp_2d par.(Par.a_grid) par.(Par.k_grid) sol_h p.(p_a) p.(p_k).

(** The birth indicator of the loop body. *)
Definition birth_of (par : Par.t) (draw_b : R) (n_it s_it : Z) : Z :=
  if Rleb draw_b par.(Par.p_birth)
     && (n_it <? par.(Par.Nn) - 1)%Z && (s_it =? 1)%Z
  then 1%Z else 0%Z.

(** The states of period [t+1] are those the loop body stores. *)
Definition transition_ok (par : Par.t) (sim : Sim.t) (i t : Z)
    (p : Period) (next : R * R * Z) : Prop :=
  exists w_t draw_b,
    wage_func par p.(p_k) t = Some w_t /\
    get2 sim.(Sim.draws_uniform) i t = Some draw_b /\
    next =
      ((1 + par.(Par.r))
         * (p.(p_a) + (w_t * p.(p_h) + spouse_income_func par p.(p_s) t)
            - p.(p_c) - childcare_cost par p.(p_n)),
       p.(p_k) + p.(p_h),
       (p.(p_n) + birth_of par draw_b p.(p_n) p.(p_s))%Z).

Definition period_ok (par : Par.t) (sol : Sol.t) (sim : Sim.t) (i t : Z)
  : Prop :=
  exists p,
    read_period sim i t = Some p /\
    policy_ok par sol sim i t p /\
    ((t < par.(Par.simT) - 1)%Z ->
     exists next,
       read_state sim i (t + 1) = Some next /\
       transition_ok par sim i t p next).

(** Two simulation namespaces with the same inputs (draws and initial
    values). *)
Definition same_inputs (sim sim' : Sim.t) : Prop :=
  sim'.(Sim.draws_uniform) = sim.(Sim.draws_uniform) /\
  sim'.(Sim.draws_uniform_spouse) = sim.(Sim.draws_uniform_spouse) /\
  sim'.(Sim.a_init) = sim.(Sim.a_init) /\
  sim'.(Sim.k_init) = sim.(Sim.k_init) /\
  sim'.(Sim.n_init) = sim.(Sim.n_init).

(** [sim'] has the contents of [sim] in the cells [(j, u)] selected by
    [P], for the arrays written at the current period ([c], [h], [s]). *)
Definition same_choices (P : Z -> Z -> Prop) (sim sim' : Sim.t) : Prop :=
  forall j u, (0 <= j)%Z -> (0 <= u)%Z -> P j u ->
    get2 sim'.(Sim.c) j u = get2 sim.(Sim.c) j u /\
    get2 sim'.(Sim.h) j u = get2 sim.(Sim.h) j u /\
    get2 sim'.(Sim.s) j u = get2 sim.(Sim.s) j u.

(** The same for the arrays written one period ahead ([a], [k], [n]). *)
Definition same_states (P : Z -> Z -> Prop) (sim sim' : Sim.t) : Prop :=
  forall j u, (0 <= j)%Z -> (0 <= u)%Z -> P j u ->
    get2 sim'.(Sim.a) j u = get2 sim.(Sim.a) j u /\
    get2 sim'.(Sim.k) j u = get2 sim.(Sim.k) j u /\
    get2 sim'.(Sim.n) j u = get2 sim.(Sim.n) j u.

(** The states of period 0 are the initial values of the individual. *)
Definition init_ok (sim : Sim.t) (i : Z) : Prop :=
  exists a0 k0 n0,
    np_get sim.(Sim.a_init) i = Some a0 /\
    np_get sim.(Sim.k_init) i = Some k0 /\
    np_get sim.(Sim.n_init) i = Some n0 /\
    read_state sim i 0 = Some (a0, k0, n0).

End Transition.

(** ** Allocated arrays *)

(** Every cell [(i, t)] with [0 <= i < N] and [0 <= t < T] exists. *)
Definition defined2 {A} (a : list (list A)) (N T : Z) : Prop :=
  forall i t, (0 <= i < N)%Z -> (0 <= t < T)%Z -> is_Some (get2 a i t).

(** The simulation arrays as [allocate] leaves them: of shape
    [(simN, simT)] at least, with initial values for every individual and
    initial children counts among the children levels. *)
Definition sim_allocated (par : Par.t) (sim : Sim.t) : Prop :=
  let N := par.(Par.simN) in
  let T := par.(Par.simT) in
  defined2 sim.(Sim.c) N T /\ defined2 sim.(Sim.h) N T /\
  defined2 sim.(Sim.a) N T /\ defined2 sim.(Sim.k) N T /\
  defined2 sim.(Sim.n) N T /\ defined2 sim.(Sim.s) N T /\
  defined2 sim.(Sim.draws_uniform) N T /\
  defined2 sim.(Sim.draws_uniform_spouse) N T /\
  forall i, (0 <= i < N)%Z ->
    is_Some (np_get sim.(Sim.a_init) i) /\
    is_Some (np_get sim.(Sim.k_init) i) /\
    exists n0, np_get sim.(Sim.n_init) i = Some n0 /\
               (0 <= n0 < par.(Par.Nn))%Z.

(** The policy arrays have a slice for every simulated period, children
    level and spouse state, and there is a wage for every period with a
    successor. *)
Definition sol_allocated (par : Par.t) (sol : Sol.t) : Prop :=
  (forall t n s,
      (0 <= t < par.(Par.simT))%Z -> (0 <= n < par.(Par.Nn))%Z ->
      (0 <= s <= 1)%Z ->
      is_Some (get3 sol.(Sol.c) t n s) /\ is_Some (get3 sol.(Sol.h) t n s)) /\
  (forall t, (0 <= t < par.(Par.simT) - 1)%Z ->
      is_Some (np_get par.(Par.w_vec) t)).

(** ** The expected continuation value as the specification words it *)

Section Spec.

Variable interp_2d : list R -> list R -> slice -> R -> R -> R.

(** [V(kids', spouse')]: the value slice of next period for a children
    level and a spouse state, interpolated at [(a_next, k_next)]. *)
Definition V_at (par : Par.t) (sol : Sol.t) (a_next k_next : R)
    (t kids' spouse' : Z) : option R :=
  sl ← get3 sol.(Sol.V) (t + 1) kids' spouse';
  Some (interp_2d par.(Par.a_grid) par.(Par.k_grid) sl a_next k_next).

(** The final formula of the interior-period optimizer's contract:
    [p_spouse * (p_birth * V(birth,spouse) + (1-p_birth) * V(no_birth,spouse))
     + (1-p_spouse) * V(no_birth,no_spouse)],
    with the birth level capped at [Nn-1] and the no-spouse value taken
    at the no-birth children level.  This definition follows the
    specification, not the source; it is compared with [EV_next]. *)
Definition EV_next_spec (par : Par.t) (sol : Sol.t)
    (cons hours assets capital : R) (kids spouse t : Z) : option R :=
  '(a_next, k_next) ← next_state par cons hours assets capital kids spouse t;
  let kids_birth :=
    if (kids >=? par.(Par.Nn) - 1)%Z then kids else (kids + 1)%Z in
  V_no_birth_spouse ← V_at par sol a_next k_next t kids 1%Z;
  V_birth_spouse ← V_at par sol a_next k_next t kids_birth 1%Z;
  V_no_birth_no_spouse ← V_at par sol a_next k_next t kids 0%Z;
  Some (par.(Par.p_spouse)
          * (par.(Par.p_birth) * V_birth_spouse
             + (1 - par.(Par.p_birth)) * V_no_birth_spouse)
        + (1 - par.(Par.p_spouse)) * V_no_birth_no_spouse).

End Spec.

(** ** Reference instances used in the examples *)

(** The index [j] of the grid interval used for [x]: the last interval
    whose left end is not above [x], the first one below the grid. *)
Fixpoint bracket (grid : list R) (x : R) : nat :=
  match grid with
  | _ :: ((g1 :: _ :: _) as rest) =>
      if Rleb g1 x then S (bracket rest x) else 0%nat
  | _ => 0%nat
  end.

(** Modelled from the spec: [consav.linear_interp.interp_2d] is an external
    library that is not part of the sources.  Bilinear interpolation of a
    value slice on the product of two grids, extended linearly beyond the
    grid bounds. *)
Definition interp_2d_bilinear (grid1 grid2 : list R) (value : slice)
    (xi1 xi2 : R) : R :=
  let j1 := bracket grid1 xi1 in
  let j2 := bracket grid2 xi2 in
  let g1 (j : nat) := nth j grid1 0 in
  let g2 (j : nat) := nth j grid2 0 in
  let v (a b : nat) := nth b (nth a value []) 0 in
  let nom_1_left := g1 (S j1) - xi1 in
  let nom_1_right := xi1 - g1 j1 in
  let nom_2_left := g2 (S j2) - xi2 in
  let nom_2_right := xi2 - g2 j2 in
  let denom := (g1 (S j1) - g1 j1) * (g2 (S j2) - g2 j2) in
  let nom :=
    nom_1_left * nom_2_left * v j1 j2
    + nom_1_left * nom_2_right * v j1 (S j2)
    + nom_1_right * nom_2_left * v (S j1) j2
    + nom_1_right * nom_2_right * v (S j1) (S j2) in
  nom / denom.

(** A two-point grid and constant value slices on it. *)
Definition unit_grid : list R := [0; 1].
Definition const_slice (v : R) : slice := [[v; v]; [v; v]].

(** An array of shape [(T, Nn, Ns, 2, 2)] with the same value in every
    cell. *)
Definition const_array5 (T Nn Ns : nat) (v : R) : array5 :=
  repeat (repeat (repeat (const_slice v) Ns) Nn) T.

(** *** A household that may lose its spouse

    Two periods, two children levels, [p_spouse = 0.5].  Next period's
    value is 1 with one child and no spouse and 0 in every other state. *)
Definition par_half_spouse : Par.t :=
  configure 2 2 2 1 0.1 0.5 unit_grid unit_grid.

Definition sol_half_spouse : Sol.t :=
  let zero := const_slice 0 in
  let one := const_slice 1 in
  let V_0 := [[zero; zero]; [zero; zero]] in
  let V_1 := [[zero; zero]; [one; zero]] in
  {| Sol.c := const_array5 2 2 2 0;
     Sol.h := const_array5 2 2 2 0;
     Sol.V := [V_0; V_1] |}.

(** As [sol_half_spouse], with a different value on every slice of next
    period's value function: [2 * kids + spouse + 1]. *)
Definition sol_slice_values : Sol.t :=
  let zero := const_slice 0 in
  let V_0 := [[zero; zero]; [zero; zero]] in
  let V_1 := [[const_slice 1; const_slice 2];
              [const_slice 3; const_slice 4]] in
  {| Sol.c := const_array5 2 2 2 0;
     Sol.h := const_array5 2 2 2 0;
     Sol.V := [V_0; V_1] |}.

(** *** One simulated household over two periods

    One individual, two periods, two children levels, a spouse in every
    period ([p_spouse = 1]); the policy arrays hold 1 everywhere.  The
    arrays of the simulation start from zeros (their initial contents are
    overwritten before they are read); both birth draws are [draw_b]. *)
Definition par_one_household (p_birth : R) : Par.t :=
  configure 2 2 2 1 p_birth 1.0 unit_grid unit_grid.

Definition sol_ones : Sol.t :=
  {| Sol.c := const_array5 2 2 2 1;
     Sol.h := const_array5 2 2 2 1;
     Sol.V := const_array5 2 2 2 0 |}.

Definition sim_one_household (draw_b : R) : Sim.t :=
  {| Sim.c := [[0; 0]]; Sim.h := [[0; 0]];
     Sim.a := [[0; 0]]; Sim.k := [[0; 0]];
     Sim.n := [[0; 0]]%Z; Sim.s := [[0; 0]]%Z;
     Sim.draws_uniform := [[draw_b; draw_b]];
     Sim.draws_uniform_spouse := [[0.5; 0.5]];
     Sim.a_init := [0]; Sim.k_init := [0]; Sim.n_init := [0%Z] |}.

(** *** Three periods on a one-point grid

    One children level, one spouse state and one point in each grid, so
    every period has a single cell; the optimizers are stand-ins that
    return a fixed point whatever they are given. *)
Definition par_three_periods : Par.t :=
  configure 3 1 1 1 0.1 1.0 [0] [0].

Definition sol_three_periods : Sol.t :=
  let zeros : array5 := repeat [[[[0]]]] 3 in
  {| Sol.c := zeros; Sol.h := zeros; Sol.V := zeros |}.

Definition trust_constr_fixed :
  (list R -> option R) -> list R -> list bound ->
  (list R -> option R) * bound -> option Res.t :=
  fun _ _ _ _ => Some (Res.mk [2] (-1)).

Definition lbfgsb_fixed :
  (list R -> option R) -> list R -> list bound -> option Res.t :=
  fun _ _ _ => Some (Res.mk [5; 5] (-1)).

(** *** Two periods and two children levels on a one-point grid *)
Definition par_two_children : Par.t :=
  configure 2 2 1 1 0.1 1.0 [0] [0].

Definition sol_two_children : Sol.t :=
  let zeros : array5 := repeat (repeat [[[0]]] 2) 2 in
  {| Sol.c := zeros; Sol.h := zeros; Sol.V := zeros |}.

(** *** A household with a given initial number of children

    As [sim_one_household], with birth draws 0.5 and the initial children
    count [n0]. *)
Definition sim_with_children (n0 : Z) : Sim.t :=
  {| Sim.c := [[0; 0]]; Sim.h := [[0; 0]];
     Sim.a := [[0; 0]]; Sim.k := [[0; 0]];
     Sim.n := [[0; 0]]%Z; Sim.s := [[0; 0]]%Z;
     Sim.draws_uniform := [[0.5; 0.5]];
     Sim.draws_uniform_spouse := [[0.5; 0.5]];
     Sim.a_init := [0]; Sim.k_init := [0]; Sim.n_init := [n0] |}.

(** *** The cells of the solution arrays *)

(** The index [idx = (t,i_n,i_s,i_a,i_k)] of a cell in the solution
    arrays. *)
Definition cell_idx (c : Cell) : Z * Z * Z * Z * Z :=
  (c.(cell_t), c.(cell_i_n), c.(cell_i_s), c.(cell_i_a), c.(cell_i_k)).

(** [a[idx]] *)
Definition get_idx (a : array5) (idx : Z * Z * Z * Z * Z) : option R :=
  let '(t, i_n, i_s, i_a, i_k) := idx in get5 a t i_n i_s i_a i_k.

(** The order of the loop nest of [solve]: periods backwards, then the
    children, asset, capital and spouse indices forwards. *)
Definition cell_before (c' c : Cell) : Prop :=
  (c.(cell_t) < c'.(cell_t))%Z \/
  c'.(cell_t) = c.(cell_t) /\
  ((c'.(cell_i_n) < c.(cell_i_n))%Z \/
   c'.(cell_i_n) = c.(cell_i_n) /\
   ((c'.(cell_i_a) < c.(cell_i_a))%Z \/
    c'.(cell_i_a) = c.(cell_i_a) /\
    ((c'.(cell_i_k) < c.(cell_i_k))%Z \/
     c'.(cell_i_k) = c.(cell_i_k) /\
     (c'.(cell_i_s) < c.(cell_i_s))%Z))).

(** What [solve] stores for a call of the optimizer: [sol.V[idx]] is
    [-res.fun]; in the last period [sol.h[idx]] is [res.x[0]] and
    [sol.c[idx]] the consumption [cons_last] gives for it, in the earlier
    periods [sol.c[idx]] is [res.x[0]] and [sol.h[idx]] is [res.x[1]]. *)
Definition stored (par : Par.t) (sol : Sol.t) (call : Call) : Prop :=
  let c := call.(call_cell) in
  let res := call.(call_res) in
  get_idx sol.(Sol.V) (cell_idx c) = Some (- res.(Res.fun_)) /\
  if (c.(cell_t) =? par.(Par.T) - 1)%Z then
    exists x0 c_val,
      np_get res.(Res.x) 0 = Some x0 /\
      cons_last par x0 c.(cell_assets) c.(cell_capital) c.(cell_kids)
        c.(cell_spouse) = Some c_val /\
      get_idx sol.(Sol.c) (cell_idx c) = Some c_val /\
      get_idx sol.(Sol.h) (cell_idx c) = Some x0
  else
    exists x0 x1,
      np_get res.(Res.x) 0 = Some x0 /\
      np_get res.(Res.x) 1 = Some x1 /\
      get_idx sol.(Sol.c) (cell_idx c) = Some x0 /\
      get_idx sol.(Sol.h) (cell_idx c) = Some x1.

(** The solution arrays [sol'] hold what [sol] holds at every index but
    [idx]. *)
Definition sol_same_except (idx : Z * Z * Z * Z * Z) (sol sol' : Sol.t)
  : Prop :=
  forall t i_n i_s i_a i_k,
    (0 <= t)%Z -> (0 <= i_n)%Z -> (0 <= i_s)%Z -> (0 <= i_a)%Z ->
    (0 <= i_k)%Z ->
    (t, i_n, i_s, i_a, i_k) <> idx ->
    get_idx sol'.(Sol.c) (t, i_n, i_s, i_a, i_k)
    = get_idx sol.(Sol.c) (t, i_n, i_s, i_a, i_k) /\
    get_idx sol'.(Sol.h) (t, i_n, i_s, i_a, i_k)
    = get_idx sol.(Sol.h) (t, i_n, i_s, i_a, i_k) /\
    get_idx sol'.(Sol.V) (t, i_n, i_s, i_a, i_k)
    = get_idx sol.(Sol.V) (t, i_n, i_s, i_a, i_k).

(** The initial guess of a call of the last period, given the calls made
    so far.  At the first asset index it is [hours_min]: with a wage
    [w_t <> 0], [-assets / w_t + 1.0e-5] floored at 2; with a zero wage
    and a quotient [-assets / w_t] that is minus infinity, the floor 2
    itself; a guess that is a number is at least 2.  At a later asset index it is the hours [res.x[0]] found by an
    earlier call, the one for the previous asset index and the same period,
    children, capital and spouse indices. *)
Definition last_period_guess (par : Par.t) (calls : list Call) (k : nat)
    (call : Call) : Prop :=
  let c := call.(call_cell) in
  if (c.(cell_i_a) =? 0)%Z then
    exists w_t w_neg,
      wage_func par c.(cell_capital) c.(cell_t) = Some w_t /\
      wage_func_signbit par c.(cell_capital) c.(cell_t) = Some w_neg /\
      (w_t <> 0 ->
       call.(call_init) = [Rmax (- c.(cell_assets) / w_t + 1.0e-5) 2.0]) /\
      (w_t = 0 -> c.(cell_assets) <> 0 ->
       xorb (signbit (- c.(cell_assets))) w_neg = true ->
       call.(call_init) = [2.0]) /\
      (forall h0, call.(call_init) = [h0] -> 2 <= h0)
  else
    exists k' prev x0,
      (k' < k)%nat /\ calls !! k' = Some prev /\
      cell_idx prev.(call_cell)
      = (c.(cell_t), c.(cell_i_n), c.(cell_i_s), (c.(cell_i_a) - 1)%Z,
         c.(cell_i_k)) /\
      np_get prev.(call_res).(Res.x) 0 = Some x0 /\
      call.(call_init) = [x0].

(** *** Two simulated households over two periods

    As [par_one_household] and [sim_one_household], with two individuals,
    and with the probability of a spouse as an argument. *)
Definition par_two_households (p_spouse : R) : Par.t :=
  configure 2 2 2 2 0.1 p_spouse unit_grid unit_grid.

Definition sim_two_households : Sim.t :=
  {| Sim.c := [[0; 0]; [0; 0]]; Sim.h := [[0; 0]; [0; 0]];
     Sim.a := [[0; 0]; [0; 0]]; Sim.k := [[0; 0]; [0; 0]];
     Sim.n := [[0; 0]; [0; 0]]%Z; Sim.s := [[0; 0]; [0; 0]]%Z;
     Sim.draws_uniform := [[0.05; 0.5]; [0.5; 0.05]];
     Sim.draws_uniform_spouse := [[0.5; 0.5]; [0.5; 0.5]];
     Sim.a_init := [0; 1]; Sim.k_init := [0; 1]; Sim.n_init := [0; 1]%Z |}.

(** *** One period on an asset grid of two points *)
Definition par_two_assets : Par.t :=
  configure 1 1 1 1 0.1 1.0 [-3; 1] [0].

Definition sol_two_assets : Sol.t :=
  let zeros : array5 := [[[[[0]; [0]]]]] in
  {| Sol.c := zeros; Sol.h := zeros; Sol.V := zeros |}.

(** *** One period without a wage

    As [par_two_assets], on the asset grid [[1; 2]] and with [par.w = 0],
    so that [w_vec] holds zeros. *)
Definition par_zero_wage : Par.t :=
  let par := configure 1 1 1 1 0.1 1.0 [1; 2] [0] in
  let w := 0.0 in
  {| Par.T := par.(Par.T);
     Par.rho := par.(Par.rho); Par.beta_0 := par.(Par.beta_0);
     Par.beta_1 := par.(Par.beta_1);
     Par.eta := par.(Par.eta); Par.gamma := par.(Par.gamma);
     Par.alpha := par.(Par.alpha); Par.w := w; Par.tau := par.(Par.tau);
     Par.p_birth := par.(Par.p_birth); Par.p_spouse := par.(Par.p_spouse);
     Par.theta := par.(Par.theta);
     Par.r := par.(Par.r);
     Par.a_max := par.(Par.a_max); Par.a_min := par.(Par.a_min);
     Par.Na := par.(Par.Na);
     Par.k_max := par.(Par.k_max); Par.Nk := par.(Par.Nk);
     Par.Nn := par.(Par.Nn); Par.spouse_dummy := par.(Par.spouse_dummy);
     Par.Ns := par.(Par.Ns);
     Par.simT := par.(Par.simT); Par.simN := par.(Par.simN);
     Par.a_grid := par.(Par.a_grid); Par.k_grid := par.(Par.k_grid);
     Par.n_grid := par.(Par.n_grid); Par.spouse_grid := par.(Par.spouse_grid);
     Par.w_vec := map (fun _ => w * 1) (range par.(Par.T)) |}.

(** * Properties *)

(** ** Python float primitives *)

Lemma Rleb_true x y : x <= y -> Rleb x y = true.
Proof. intros H. unfold Rleb. destruct (Rle_dec x y); [reflexivity | lra]. Qed.

Lemma Rleb_false x y : y < x -> Rleb x y = false.
Proof. intros H. unfold Rleb. destruct (Rle_dec x y); [lra | reflexivity]. Qed.

Lemma Rleb_spec x y : Rleb x y = true <-> x <= y.
Proof. unfold Rleb. destruct (Rle_dec x y); split; intros; (lra || congruence). Qed.

Lemma py_max_ge_r a b : b <= py_max a b.
Proof. unfold py_max. destruct (Rlt_dec a b); lra. Qed.

Lemma np_true_divide_Fin x y y_neg :
  y <> 0 -> np_true_divide x y y_neg = Fin (x / y).
Proof.
  intros H. unfold np_true_divide.
  destruct (Req_dec_T y 0); [contradiction | reflexivity].
Qed.

Lemma np_true_divide_NInf x y y_neg :
  y = 0 -> x <> 0 -> xorb (signbit x) y_neg = true ->
  np_true_divide x y y_neg = NInf.
Proof.
  intros Hy Hx Hs. unfold np_true_divide.
  destruct (Req_dec_T y 0); [| contradiction].
  destruct (Req_dec_T x 0); [contradiction |].
  rewrite Hs. reflexivity.
Qed.

Lemma signbit_neg x : x < 0 -> signbit x = true.
Proof.
  intros H. unfold signbit, Rltb. destruct (Rlt_dec x 0); [reflexivity | lra].
Qed.

Lemma signbit_nonneg x : 0 <= x -> signbit x = false.
Proof.
  intros H. unfold signbit, Rltb. destruct (Rlt_dec x 0); [lra | reflexivity].
Qed.

Lemma py_div_Some x y : y <> 0 -> py_div x y = Some (x / y).
Proof. intros H. unfold py_div. destruct (Req_dec_T y 0); [contradiction | reflexivity]. Qed.

Lemma py_pow_pos x y : 0 < x -> py_pow x y = Some (Rpower x y).
Proof. intros H. unfold py_pow. destruct (Rlt_dec 0 x); [reflexivity | lra]. Qed.

Lemma py_pow_nonneg x y : 0 <= x -> 0 < y -> is_Some (py_pow x y).
Proof.
  intros Hx Hy. unfold py_pow.
  destruct (Rlt_dec 0 x); [eauto |].
  destruct (Req_dec_T x 0); [| lra].
  destruct (Rlt_dec y 0); [lra |].
  destruct (Req_dec_T y 0); eauto.
Qed.

(** ** numpy arrays *)

Section Arrays.

Context {A : Type}.
Implicit Types (l : list A) (a : list (list A)) (i t : Z) (v : A).

Lemma np_index_nonneg len i :
  (0 <= i)%Z ->
  np_index len i
  = if bool_decide (i < Z.of_nat len)%Z then Some (Z.to_nat i) else None.
Proof.
  intros Hi. unfold np_index.
  repeat case_bool_decide; try reflexivity; lia.
Qed.

Lemma np_get_nonneg l i : (0 <= i)%Z -> np_get l i = l !! Z.to_nat i.
Proof.
  intros Hi. unfold np_get. rewrite (np_index_nonneg _ _ Hi).
  case_bool_decide; simpl; [reflexivity |].
  symmetry. apply lookup_ge_None. lia.
Qed.

Lemma np_set_nonneg l i v l' :
  (0 <= i)%Z -> np_set l i v = Some l' ->
  (Z.to_nat i < length l)%nat /\ l' = <[Z.to_nat i := v]> l.
Proof.
  intros Hi. unfold np_set. rewrite (np_index_nonneg _ _ Hi).
  case_bool_decide; simpl; [| discriminate].
  intros [= <-]. split; [lia | reflexivity].
Qed.

Lemma np_set_total l i v :
  is_Some (np_get l i) -> is_Some (np_set l i v).
Proof.
  unfold np_get, np_set. destruct (np_index (length l) i); simpl; [eauto |].
  intros [? [=]].
Qed.

End Arrays.

Section Arrays2.

Context {A : Type}.
Implicit Types (a : list (list A)) (i t : Z) (v : A).

Lemma get2_nonneg a i t :
  (0 <= i)%Z -> (0 <= t)%Z ->
  get2 a i t = (row ← a !! Z.to_nat i; row !! Z.to_nat t).
Proof.
  intros Hi Ht. unfold get2. rewrite (np_get_nonneg _ _ Hi).
  destruct (a !! Z.to_nat i); simpl; [apply np_get_nonneg; exact Ht | reflexivity].
Qed.

Lemma set2_nonneg a i t v a' :
  (0 <= i)%Z -> (0 <= t)%Z -> set2 a i t v = Some a' ->
  exists row,
    a !! Z.to_nat i = Some row /\ (Z.to_nat t < length row)%nat /\
    a' = <[Z.to_nat i := <[Z.to_nat t := v]> row]> a.
Proof.
  intros Hi Ht. unfold set2. rewrite (np_get_nonneg _ _ Hi).
  destruct (a !! Z.to_nat i) as [row |] eqn:Hrow; simpl; [| discriminate].
  destruct (np_set row t v) as [row' |] eqn:Hset; simpl; [| discriminate].
  intros Hset'.
  apply (np_set_nonneg _ _ _ _ Ht) in Hset as [Hlt ->].
  apply (np_set_nonneg _ _ _ _ Hi) in Hset' as [_ ->].
  eauto.
Qed.

Lemma set2_total a i t v : is_Some (get2 a i t) -> is_Some (set2 a i t v).
Proof.
  unfold get2, set2. intros [x Hx].
  destruct (np_get a i) as [row |] eqn:Hrow; simpl in *; [| discriminate].
  destruct (np_set_total row t v (ltac:(eauto))) as [row' ->]. simpl.
  apply np_set_total. eauto.
Qed.

(** Reading a cell after a write: the written value at the written cell,
    the old contents elsewhere. *)
Lemma get2_set2_eq a i t v a' :
  (0 <= i)%Z -> (0 <= t)%Z -> set2 a i t v = Some a' ->
  get2 a' i t = Some v.
Proof.
  intros Hi Ht Hset.
  destruct (set2_nonneg _ _ _ _ _ Hi Ht Hset) as (row & Hrow & Hlt & ->).
  rewrite (get2_nonneg _ _ _ Hi Ht).
  rewrite list_lookup_insert_eq by (eapply lookup_lt_Some; exact Hrow).
  simpl. apply list_lookup_insert_eq. exact Hlt.
Qed.

Lemma get2_set2_ne a i t v a' j u :
  (0 <= i)%Z -> (0 <= t)%Z -> (0 <= j)%Z -> (0 <= u)%Z ->
  set2 a i t v = Some a' ->
  j <> i \/ u <> t ->
  get2 a' j u = get2 a j u.
Proof.
  intros Hi Ht Hj Hu Hset Hne.
  destruct (set2_nonneg _ _ _ _ _ Hi Ht Hset) as (row & Hrow & Hlt & ->).
  rewrite !(get2_nonneg _ _ _ Hj Hu).
  destruct (decide (j = i)) as [-> | Hji].
  - rewrite list_lookup_insert_eq by (eapply lookup_lt_Some; exact Hrow).
    rewrite Hrow. simpl.
    apply list_lookup_insert_ne. destruct Hne as [? | ?]; [congruence | lia].
  - rewrite list_lookup_insert_ne by lia. reflexivity.
Qed.

(** A write keeps every cell of the array defined. *)
Lemma get2_set2_is_Some a i t v a' j u :
  (0 <= i)%Z -> (0 <= t)%Z -> (0 <= j)%Z -> (0 <= u)%Z ->
  set2 a i t v = Some a' ->
  is_Some (get2 a j u) -> is_Some (get2 a' j u).
Proof.
  intros Hi Ht Hj Hu Hset Hsome.
  destruct (decide (j = i)) as [-> | Hji].
  - destruct (decide (u = t)) as [-> | Hut].
    + rewrite (get2_set2_eq _ _ _ _ _ Hi Ht Hset). eauto.
    + rewrite (get2_set2_ne _ _ _ _ _ _ _ Hi Ht Hj Hu Hset); auto.
  - rewrite (get2_set2_ne _ _ _ _ _ _ _ Hi Ht Hj Hu Hset); auto.
Qed.

Lemma for_each_app {S} (body : S -> A -> option S) st l1 l2 :
  for_each body st (l1 ++ l2)
  = (st' ← for_each body st l1; for_each body st' l2).
Proof.
  revert st. induction l1 as [| x l1 IH]; intros st; simpl; [reflexivity |].
  destruct (body st x) as [st1 |]; simpl; [apply IH | reflexivity].
Qed.

(** The invariant rule of a loop: an invariant indexed by the number of
    iterations done, kept by every iteration that returns. *)
Lemma for_each_invariant {S} (body : S -> A -> option S)
    (Inv : nat -> S -> Prop) l st st' :
  for_each body st l = Some st' ->
  Inv 0%nat st ->
  (forall j x st1 st2,
      l !! j = Some x -> Inv j st1 -> body st1 x = Some st2 ->
      Inv (Datatypes.S j) st2) ->
  Inv (length l) st'.
Proof.
  revert Inv st. induction l as [| x l IH]; intros Inv st Hrun H0 Hstep.
  - simpl in Hrun. injection Hrun as <-. exact H0.
  - simpl in Hrun.
    destruct (body st x) as [st1 |] eqn:Hb; simpl in Hrun; [| discriminate].
    apply (IH (fun j => Inv (Datatypes.S j)) st1 Hrun).
    + apply (Hstep 0%nat x st st1); [reflexivity | exact H0 | exact Hb].
    + intros j y s1 s2 Hy Hs1 Hb'.
      apply (Hstep (Datatypes.S j) y s1 s2); assumption.
Qed.

(** The rule for termination without failure: every iteration started
    from a state satisfying the invariant returns. *)
Lemma for_each_total {S} (body : S -> A -> option S)
    (Inv : nat -> S -> Prop) l st :
  Inv 0%nat st ->
  (forall j x st1,
      l !! j = Some x -> Inv j st1 ->
      exists st2, body st1 x = Some st2 /\ Inv (Datatypes.S j) st2) ->
  exists st', for_each body st l = Some st' /\ Inv (length l) st'.
Proof.
  revert Inv st. induction l as [| x l IH]; intros Inv st H0 Hstep.
  - exists st. split; [reflexivity | exact H0].
  - destruct (Hstep 0%nat x st eq_refl H0) as (st1 & Hb & H1).
    destruct (IH (fun j => Inv (Datatypes.S j)) st1 H1) as (st' & Hrun & Hend).
    + intros j y s1 Hy Hs1. apply (Hstep (Datatypes.S j) y s1); assumption.
    + exists st'. split; [| exact Hend].
      simpl. rewrite Hb. exact Hrun.
Qed.

End Arrays2.

Lemma range_lookup n j x :
  range n !! j = Some x -> x = Z.of_nat j /\ (0 <= x < n)%Z.
Proof.
  unfold range. rewrite list_lookup_fmap.
  destruct (seq 0 (Z.to_nat n) !! j) as [m |] eqn:Hm; simpl; [| discriminate].
  intros [= <-].
  apply lookup_seq in Hm as [-> Hlt]. simpl. lia.
Qed.

Lemma range_length n : length (range n) = Z.to_nat n.
Proof. unfold range. rewrite length_map, length_seq. reflexivity. Qed.

(** ** Period reward model and last period *)

Lemma wage_func_Some par capital t w_t :
  np_get par.(Par.w_vec) t = Some w_t ->
  wage_func par capital t
  = Some ((1 - par.(Par.tau)) * w_t * (1 + par.(Par.alpha) * capital)).
Proof.
  intros H. unfold wage_func. rewrite H. simpl. f_equal. lra.
Qed.

(** C9: with a tax rate below one, a positive human-capital elasticity and
    a positive base wage in period [t], the after-tax wage is defined,
    non-negative and non-decreasing in capital on non-negative capital. *)
Theorem wage_func_monotone par t w_t k1 k2 :
  par.(Par.tau) < 1 ->
  0 < par.(Par.alpha) ->
  np_get par.(Par.w_vec) t = Some w_t ->
  0 < w_t ->
  0 <= k1 <= k2 ->
  exists w1 w2,
    wage_func par k1 t = Some w1 /\ wage_func par k2 t = Some w2 /\
    w1 <= w2 /\ 0 <= w1.
Proof.
  intros Htau Halpha Hw Hpos [Hk1 Hk12].
  eexists _, _.
  split; [apply (wage_func_Some _ _ _ _ Hw) |].
  split; [apply (wage_func_Some _ _ _ _ Hw) |].
  assert (Hc : 0 < (1 - par.(Par.tau)) * w_t) by (apply Rmult_lt_0_compat; lra).
  split.
  - apply Rmult_le_compat_l; [lra |].
    assert (par.(Par.alpha) * k1 <= par.(Par.alpha) * k2)
      by (apply Rmult_le_compat_l; lra).
    lra.
  - apply Rmult_le_pos; [lra |].
    assert (0 <= par.(Par.alpha) * k1) by (apply Rmult_le_pos; lra).
    lra.
Qed.

(** C4: when the wage of the last period is defined, [cons_last] is the
    static budget [assets + wage*hours + spouse_income - childcare_cost]
    whenever that is at least [1e-8], and [1e-8] otherwise. *)
Theorem cons_last_budget par hours assets capital kids spouse w_last :
  wage_func par capital (par.(Par.T) - 1) = Some w_last ->
  let budget :=
    assets + w_last * hours
    + spouse_income_func par spouse (par.(Par.T) - 1)
    - childcare_cost par kids in
  cons_last par hours assets capital kids spouse
  = Some (if Rlt_dec budget 1e-8 then 1e-8 else budget).
Proof.
  intros Hw budget. unfold cons_last. rewrite Hw. simpl.
  unfold py_max. f_equal.
  replace (assets
           + (w_last * hours + spouse_income_func par spouse (par.(Par.T) - 1))
           - childcare_cost par kids) with budget by (unfold budget; ring).
  reflexivity.
Qed.

Lemma cons_last_Some par hours assets capital kids spouse w_t :
  np_get par.(Par.w_vec) (par.(Par.T) - 1) = Some w_t ->
  exists c, cons_last par hours assets capital kids spouse = Some c /\ 1e-8 <= c.
Proof.
  intros Hw. unfold cons_last.
  rewrite (wage_func_Some _ _ _ _ Hw). simpl.
  eexists. split; [reflexivity | apply py_max_ge_r].
Qed.

(** C10: whatever the hours, assets, capital, children and spouse state
    (negative values included), [cons_last] returns at least [1e-8]; so
    [obj_last] calls [util] with strictly positive consumption, where,
    [1 + eta] being non-zero, the power and the division of the CRRA term
    are defined; with non-negative hours and [1 + gamma > 0] the whole
    objective is defined. *)
Theorem cons_last_floor par hours assets capital kids spouse w_t :
  np_get par.(Par.w_vec) (par.(Par.T) - 1) = Some w_t ->
  1.0 + par.(Par.eta) <> 0 ->
  exists c,
    cons_last par hours assets capital kids spouse = Some c /\
    1e-8 <= c /\ 0 < c /\
    obj_last par hours assets capital kids spouse
    = (u ← util par c hours kids; Some (- u)) /\
    (exists c_pow c_term,
        py_pow c (1.0 + par.(Par.eta)) = Some c_pow /\
        py_div c_pow (1.0 + par.(Par.eta)) = Some c_term) /\
    (0 <= hours -> 0 < 1.0 + par.(Par.gamma) ->
     is_Some (obj_last par hours assets capital kids spouse)).
Proof.
  intros Hw Heta.
  destruct (cons_last_Some par hours assets capital kids spouse w_t Hw)
    as (c & Hc & Hge).
  assert (Hpos : 0 < c) by lra.
  exists c. repeat split; try assumption.
  - unfold obj_last. rewrite Hc. reflexivity.
  - eexists _, _. split; [apply py_pow_pos; exact Hpos | apply py_div_Some; exact Heta].
  - intros Hh Hg. unfold obj_last. rewrite Hc. simpl. unfold util.
    rewrite (py_pow_pos _ _ Hpos). simpl.
    rewrite (py_div_Some _ _ Heta). simpl.
    destruct (py_pow_nonneg hours (1.0 + par.(Par.gamma)) Hh Hg) as [hp Hhp].
    rewrite Hhp. simpl.
    rewrite py_div_Some by lra. simpl. eauto.
Qed.

(** ** Earlier periods: [value_of_choice] *)

Section ValueOfChoice.

Variable interp_2d : list R -> list R -> slice -> R -> R -> R.

Lemma penalty_clamp_eq cons hours :
  penalty_clamp cons hours
  = ((if Rlt_dec cons 0 then 1000 * cons else 0)
     + (if Rlt_dec hours 0 then 1000 * hours else 0),
     if Rlt_dec cons 0 then 1e-5 else cons,
     if Rlt_dec hours 0 then 0 else hours).
Proof.
  unfold penalty_clamp.
  replace 0.0 with 0 by lra.
  destruct (Rlt_dec cons 0), (Rlt_dec hours 0);
    rewrite !pair_equal_spec; repeat split; lra.
Qed.

Lemma penalty_clamp_nonneg cons hours :
  0 <= cons -> 0 <= hours -> penalty_clamp cons hours = (0, cons, hours).
Proof.
  intros Hc Hh. rewrite penalty_clamp_eq.
  destruct (Rlt_dec cons 0); [lra |].
  destruct (Rlt_dec hours 0); [lra |].
  rewrite !pair_equal_spec; repeat split; lra.
Qed.

(** C5, as amended: [value_of_choice] at [(cons, hours)] is its value at
    the clamped choice plus the penalty, where negative consumption is
    replaced by [1e-5] and adds [1000 * cons], negative hours are replaced
    by [0] (not by a positive value) and add [1000 * hours]; the clamped
    choice is used for utility and for the budget; a non-negative choice
    is left as it is and gets no penalty. *)
Theorem value_of_choice_penalty par sol cons hours assets capital kids spouse t :
  let cons' := if Rlt_dec cons 0 then 1e-5 else cons in
  let hours' := if Rlt_dec hours 0 then 0 else hours in
  let penalty :=
    (if Rlt_dec cons 0 then 1000 * cons else 0)
    + (if Rlt_dec hours 0 then 1000 * hours else 0) in
  value_of_choice interp_2d par sol cons hours assets capital kids spouse t
  = (u ← util par cons' hours' kids;
     ev ← EV_next interp_2d par sol cons' hours' assets capital kids spouse t;
     Some (u + par.(Par.rho) * ev + penalty))
  /\ value_of_choice interp_2d par sol cons hours assets capital kids spouse t
     = (v ← value_of_choice interp_2d par sol cons' hours' assets capital
             kids spouse t;
        Some (v + penalty))
  /\ 0 <= cons' /\ 0 <= hours'
  /\ penalty <= 0.
Proof.
  intros cons' hours' penalty.
  assert (Hc' : 0 <= cons')
    by (unfold cons'; destruct (Rlt_dec cons 0); lra).
  assert (Hh' : 0 <= hours')
    by (unfold hours'; destruct (Rlt_dec hours 0); lra).
  assert (Hmain :
    value_of_choice interp_2d par sol cons hours assets capital kids spouse t
    = (u ← util par cons' hours' kids;
       ev ← EV_next interp_2d par sol cons' hours' assets capital kids spouse t;
       Some (u + par.(Par.rho) * ev + penalty))).
  { unfold value_of_choice. rewrite penalty_clamp_eq. reflexivity. }
  split; [exact Hmain |].
  split.
  - rewrite Hmain. unfold value_of_choice.
    rewrite (penalty_clamp_nonneg _ _ Hc' Hh').
    destruct (util par cons' hours' kids) as [u |]; [| reflexivity].
    simpl.
    destruct (EV_next interp_2d par sol cons' hours' assets capital kids spouse t)
      as [ev |]; [| reflexivity].
    simpl. f_equal. ring.
  - repeat split; try assumption.
    unfold penalty.
    destruct (Rlt_dec cons 0), (Rlt_dec hours 0); lra.
Qed.

Lemma continuation_cap par sol a_next k_next kids t :
  (kids >= par.(Par.Nn) - 1)%Z ->
  continuation interp_2d par sol a_next k_next kids t
  = (v1 ← V_at interp_2d par sol a_next k_next t kids 1%Z;
     v0 ← V_at interp_2d par sol a_next k_next t kids 0%Z;
     Some (mkCont v1 v1 v0)).
Proof.
  intros Hk. unfold continuation, V_at.
  assert ((kids >=? par.(Par.Nn) - 1)%Z = true) as -> by lia.
  destruct (get3 (Sol.V sol) (t + 1) kids 1) as [s1 |]; [| reflexivity].
  simpl.
  destruct (get3 (Sol.V sol) (t + 1) kids 0) as [s0 |]; reflexivity.
Qed.

Lemma continuation_below_cap par sol a_next k_next kids t :
  (kids < par.(Par.Nn) - 1)%Z ->
  continuation interp_2d par sol a_next k_next kids t
  = (v1 ← V_at interp_2d par sol a_next k_next t kids 1%Z;
     vb ← V_at interp_2d par sol a_next k_next t (kids + 1)%Z 1%Z;
     v0 ← V_at interp_2d par sol a_next k_next t (kids + 1)%Z 0%Z;
     Some (mkCont v1 vb v0)).
Proof.
  intros Hk. unfold continuation, V_at.
  assert ((kids >=? par.(Par.Nn) - 1)%Z = false) as -> by lia.
  destruct (get3 (Sol.V sol) (t + 1) kids 1) as [s1 |]; [| reflexivity].
  simpl.
  destruct (get3 (Sol.V sol) (t + 1) (kids + 1) 1) as [sb |]; [| reflexivity].
  simpl.
  destruct (get3 (Sol.V sol) (t + 1) (kids + 1) 0) as [s0 |]; reflexivity.
Qed.

(** At the cap [continuation] reads the slices of the children level
    [kids] only. *)
Lemma continuation_cap_frame par sol sol' a_next k_next kids t :
  (kids >= par.(Par.Nn) - 1)%Z ->
  get3 sol'.(Sol.V) (t + 1) kids 1 = get3 sol.(Sol.V) (t + 1) kids 1 ->
  get3 sol'.(Sol.V) (t + 1) kids 0 = get3 sol.(Sol.V) (t + 1) kids 0 ->
  continuation interp_2d par sol' a_next k_next kids t
  = continuation interp_2d par sol a_next k_next kids t.
Proof.
  intros Hk H1 H0. rewrite !(continuation_cap _ _ _ _ _ _ Hk).
  unfold V_at. rewrite H1, H0. reflexivity.
Qed.

(** C3: the no-birth continuation value is the interpolation of the slice
    [sol.V[t+1, kids, 1]], and at the cap ([kids >= Nn-1]) the birth
    continuation value is the interpolation of that same slice, hence equal
    to the no-birth one; at the cap [value_of_choice] reads no other slices
    of [sol.V] than those of the children level [kids] itself: it has the
    same value for any other contents of the slices of [kids+1]; below the
    cap the birth value is the interpolation of the slice of [kids+1] with
    a spouse. *)
Theorem continuation_birth_cap par sol a_next k_next kids t co :
  continuation interp_2d par sol a_next k_next kids t = Some co ->
  (exists V_next,
      get3 sol.(Sol.V) (t + 1) kids 1 = Some V_next /\
      co.(V_next_no_birth)
      = interp_2d par.(Par.a_grid) par.(Par.k_grid) V_next a_next k_next /\
      ((kids >= par.(Par.Nn) - 1)%Z ->
       co.(V_next_birth)
       = interp_2d par.(Par.a_grid) par.(Par.k_grid) V_next a_next k_next))
  /\ ((kids >= par.(Par.Nn) - 1)%Z ->
     co.(V_next_birth) = co.(V_next_no_birth) /\
     forall sol',
       get3 sol'.(Sol.V) (t + 1) kids 1 = get3 sol.(Sol.V) (t + 1) kids 1 ->
       get3 sol'.(Sol.V) (t + 1) kids 0 = get3 sol.(Sol.V) (t + 1) kids 0 ->
       continuation interp_2d par sol' a_next k_next kids t = Some co /\
       forall cons hours assets capital spouse,
         value_of_choice interp_2d par sol' cons hours assets capital kids
           spouse t
         = value_of_choice interp_2d par sol cons hours assets capital kids
             spouse t)
  /\ ((kids < par.(Par.Nn) - 1)%Z ->
      exists V_next,
        get3 sol.(Sol.V) (t + 1) (kids + 1) 1 = Some V_next /\
        co.(V_next_birth)
        = interp_2d par.(Par.a_grid) par.(Par.k_grid) V_next a_next k_next).
Proof.
  intros Hco. split; [| split; intros Hk].
  - destruct (Z_lt_ge_dec kids (par.(Par.Nn) - 1)) as [Hk | Hk].
    + rewrite (continuation_below_cap _ _ _ _ _ _ Hk) in Hco.
      unfold V_at in Hco.
      destruct (get3 (Sol.V sol) (t + 1) kids 1) as [V_next |];
        [| discriminate].
      exists V_next. simplify_option_eq.
      split; [reflexivity |]. split; [reflexivity | intros; lia].
    + rewrite (continuation_cap _ _ _ _ _ _ Hk) in Hco.
      unfold V_at in Hco.
      destruct (get3 (Sol.V sol) (t + 1) kids 1) as [V_next |];
        [| discriminate].
      exists V_next. simplify_option_eq.
      split; [reflexivity |]. split; [reflexivity | intros; reflexivity].
  - split.
    + rewrite (continuation_cap _ _ _ _ _ _ Hk) in Hco.
      simplify_option_eq. reflexivity.
    + intros sol' H1 H0. split.
      * rewrite <- Hco. apply continuation_cap_frame; assumption.
      * intros cons hours assets capital spouse.
        unfold value_of_choice.
        destruct (penalty_clamp cons hours) as [[penalty cons'] hours'].
        destruct (util par cons' hours' kids) as [u |]; [| reflexivity].
        simpl. unfold EV_next.
        destruct (next_state par cons' hours' assets capital kids spouse t)
          as [[a1 k1] |]; [| reflexivity].
        simpl.
        rewrite (continuation_cap_frame par sol sol' a1 k1 kids t Hk H1 H0).
        reflexivity.
  - rewrite (continuation_below_cap _ _ _ _ _ _ Hk) in Hco.
    unfold V_at in Hco. simplify_option_eq. eauto.
Qed.

(** What [EV_next] computes: the no-spouse value is read at the children
    level left in [kids_next], which is [kids+1] below the cap. *)
Lemma EV_next_eq par sol cons hours assets capital kids spouse t :
  EV_next interp_2d par sol cons hours assets capital kids spouse t
  = ('(a_next, k_next) ← next_state par cons hours assets capital kids spouse t;
     let kids_next :=
       if (kids >=? par.(Par.Nn) - 1)%Z then kids else (kids + 1)%Z in
     V_no_birth ← V_at interp_2d par sol a_next k_next t kids 1%Z;
     V_birth ← V_at interp_2d par sol a_next k_next t kids_next 1%Z;
     V_no_spouse ← V_at interp_2d par sol a_next k_next t kids_next 0%Z;
     Some (par.(Par.p_spouse)
             * (par.(Par.p_birth) * V_birth
                + (1 - par.(Par.p_birth)) * V_no_birth)
           + (1 - par.(Par.p_spouse)) * V_no_spouse)).
Proof.
  unfold EV_next.
  destruct (next_state par cons hours assets capital kids spouse t)
    as [[a_next k_next] |]; [| reflexivity].
  simpl.
  destruct (Z_lt_ge_dec kids (par.(Par.Nn) - 1)) as [Hk | Hk].
  - rewrite (continuation_below_cap _ _ _ _ _ _ Hk).
    assert ((kids >=? par.(Par.Nn) - 1)%Z = false) as -> by lia.
    destruct (V_at interp_2d par sol a_next k_next t kids 1) as [v1 |]; [| reflexivity].
    simpl.
    destruct (V_at interp_2d par sol a_next k_next t (kids + 1) 1) as [vb |];
      [| reflexivity].
    simpl.
    destruct (V_at interp_2d par sol a_next k_next t (kids + 1) 0) as [v0 |];
      reflexivity.
  - rewrite (continuation_cap _ _ _ _ _ _ Hk).
    assert ((kids >=? par.(Par.Nn) - 1)%Z = true) as -> by lia.
    destruct (V_at interp_2d par sol a_next k_next t kids 1) as [v1 |];
      [| reflexivity].
    simpl.
    destruct (V_at interp_2d par sol a_next k_next t kids 0) as [v0 |]; reflexivity.
Qed.

(** At the cap the code and the specification's formula agree. *)
Lemma EV_next_spec_cap par sol cons hours assets capital kids spouse t :
  (kids >= par.(Par.Nn) - 1)%Z ->
  EV_next interp_2d par sol cons hours assets capital kids spouse t
  = EV_next_spec interp_2d par sol cons hours assets capital kids spouse t.
Proof.
  intros Hk. rewrite EV_next_eq. unfold EV_next_spec, V_at.
  assert ((kids >=? par.(Par.Nn) - 1)%Z = true) as -> by lia.
  reflexivity.
Qed.

End ValueOfChoice.

(** ** Simulation *)

(** Inversion of a successful sequence of reads and writes. *)
Ltac bind_inv H :=
  repeat match type of H with
    | (?m ≫= _) = Some _ =>
        let x := fresh "v" in
        let E := fresh "E" in
        destruct m as [x |] eqn:E; simpl in H; [| discriminate H]
    end.

Section Simulate.

Variable interp_2d : list R -> list R -> slice -> R -> R -> R.

Lemma simulate_period_spec par sol i sim t sim' :
  (0 <= i)%Z -> (0 <= t)%Z ->
  simulate_period interp_2d par sol i sim t = Some sim' ->
  same_inputs sim sim' /\
  same_choices (fun j u => j <> i \/ u <> t) sim sim' /\
  same_states (fun j u => j <> i \/ u <> (t + 1)%Z) sim sim' /\
  period_ok interp_2d par sol sim' i t.
Proof.
  intros Hi Ht Hrun. unfold simulate_period in Hrun.
  simpl in Hrun.
  assert (Ht1 : (0 <= t + 1)%Z) by lia.
  bind_inv Hrun.
  rename v into draw_s, v1 into n_it, v2 into s_it, v4 into a_it,
    v5 into k_it, v3 into sol_c, v7 into sol_h,
    v0 into s', v6 into c', v8 into h'.
  assert (Hs : s_it = (if Rleb draw_s par.(Par.p_spouse) then 1 else 0)%Z).
  { rewrite (get2_set2_eq _ _ _ _ _ Hi Ht E0) in E2. congruence. }
  pose proof (get2_set2_eq _ _ _ _ _ Hi Ht E6) as Hc.
  pose proof (get2_set2_eq _ _ _ _ _ Hi Ht E8) as Hh.
  assert (Hpol : forall sim2,
    sim2.(Sim.draws_uniform_spouse) = sim.(Sim.draws_uniform_spouse) ->
    policy_ok interp_2d par sol sim2 i t
      (mkPeriod n_it s_it a_it k_it
         (interp_2d par.(Par.a_grid) par.(Par.k_grid) sol_c a_it k_it)
         (interp_2d par.(Par.a_grid) par.(Par.k_grid) sol_h a_it k_it))).
  { intros sim2 Hd. exists draw_s, sol_c, sol_h. rewrite Hd. simpl.
    repeat split; assumption. }
  destruct (t <? Par.simT par - 1)%Z eqn:Hlast.
  - bind_inv Hrun. injection Hrun as <-.
    rename v into w_t, v2 into a', v3 into k', v4 into draw_b, v5 into n'.
    assert (v0 = interp_2d par.(Par.a_grid) par.(Par.k_grid) sol_h a_it k_it)
      as -> by congruence.
    assert (v1 = interp_2d par.(Par.a_grid) par.(Par.k_grid) sol_c a_it k_it)
      as -> by congruence.
    split; [repeat split |].
    split; [| split].
    + intros j u Hj Hu Hne. simpl.
      rewrite (get2_set2_ne _ _ _ _ _ _ _ Hi Ht Hj Hu E6 Hne).
      rewrite (get2_set2_ne _ _ _ _ _ _ _ Hi Ht Hj Hu E8 Hne).
      rewrite (get2_set2_ne _ _ _ _ _ _ _ Hi Ht Hj Hu E0 Hne).
      auto.
    + intros j u Hj Hu Hne. simpl.
      rewrite (get2_set2_ne _ _ _ _ _ _ _ Hi Ht1 Hj Hu E12 Hne).
      rewrite (get2_set2_ne _ _ _ _ _ _ _ Hi Ht1 Hj Hu E13 Hne).
      rewrite (get2_set2_ne _ _ _ _ _ _ _ Hi Ht1 Hj Hu E15 Hne).
      auto.
    + eexists. split; [| split].
      * unfold read_period. simpl.
        rewrite (get2_set2_ne _ _ _ _ _ _ _ Hi Ht1 Hi Ht E15) by lia.
        rewrite E1. simpl.
        rewrite E2. simpl.
        rewrite (get2_set2_ne _ _ _ _ _ _ _ Hi Ht1 Hi Ht E12) by lia.
        rewrite E4. simpl.
        rewrite (get2_set2_ne _ _ _ _ _ _ _ Hi Ht1 Hi Ht E13) by lia.
        rewrite E5. simpl.
        rewrite E11. simpl. rewrite E10. simpl. reflexivity.
      * apply Hpol. reflexivity.
      * intros _. eexists. split.
        -- unfold read_state. simpl.
           rewrite (get2_set2_eq _ _ _ _ _ Hi Ht1 E12). simpl.
           rewrite (get2_set2_eq _ _ _ _ _ Hi Ht1 E13). simpl.
           rewrite (get2_set2_eq _ _ _ _ _ Hi Ht1 E15). simpl.
           reflexivity.
        -- exists w_t, draw_b. simpl. auto.
  - injection Hrun as <-.
    split; [repeat split |].
    split; [| split].
    + intros j u Hj Hu Hne. simpl.
      rewrite (get2_set2_ne _ _ _ _ _ _ _ Hi Ht Hj Hu E6 Hne).
      rewrite (get2_set2_ne _ _ _ _ _ _ _ Hi Ht Hj Hu E8 Hne).
      rewrite (get2_set2_ne _ _ _ _ _ _ _ Hi Ht Hj Hu E0 Hne).
      auto.
    + intros j u Hj Hu Hne. simpl. auto.
    + eexists. split; [| split].
      * unfold read_period. simpl.
        rewrite E1. simpl. rewrite E2. simpl. rewrite E4. simpl.
        rewrite E5. simpl. rewrite Hc, Hh. simpl. reflexivity.
      * apply Hpol. reflexivity.
      * intros Hlt. lia.
Qed.

Lemma same_inputs_trans sim1 sim2 sim3 :
  same_inputs sim1 sim2 -> same_inputs sim2 sim3 -> same_inputs sim1 sim3.
Proof.
  unfold same_inputs. intros (? & ? & ? & ? & ?) (? & ? & ? & ? & ?).
  repeat split; congruence.
Qed.

Lemma same_choices_trans (P Q : Z -> Z -> Prop) sim1 sim2 sim3 :
  (forall j u, Q j u -> P j u) ->
  same_choices P sim1 sim2 -> same_choices Q sim2 sim3 ->
  same_choices Q sim1 sim3.
Proof.
  intros HPQ H12 H23 j u Hj Hu HQ.
  destruct (H12 j u Hj Hu (HPQ _ _ HQ)) as (? & ? & ?).
  destruct (H23 j u Hj Hu HQ) as (? & ? & ?).
  repeat split; congruence.
Qed.

Lemma same_states_trans (P Q : Z -> Z -> Prop) sim1 sim2 sim3 :
  (forall j u, Q j u -> P j u) ->
  same_states P sim1 sim2 -> same_states Q sim2 sim3 ->
  same_states Q sim1 sim3.
Proof.
  intros HPQ H12 H23 j u Hj Hu HQ.
  destruct (H12 j u Hj Hu (HPQ _ _ HQ)) as (? & ? & ?).
  destruct (H23 j u Hj Hu HQ) as (? & ? & ?).
  repeat split; congruence.
Qed.

Lemma same_choices_weaken (P Q : Z -> Z -> Prop) sim1 sim2 :
  (forall j u, Q j u -> P j u) ->
  same_choices P sim1 sim2 -> same_choices Q sim1 sim2.
Proof. intros HPQ H j u Hj Hu HQ. apply H; auto. Qed.

Lemma same_states_weaken (P Q : Z -> Z -> Prop) sim1 sim2 :
  (forall j u, Q j u -> P j u) ->
  same_states P sim1 sim2 -> same_states Q sim1 sim2.
Proof. intros HPQ H j u Hj Hu HQ. apply H; auto. Qed.

Lemma read_state_same (Q : Z -> Z -> Prop) sim sim' i t :
  (0 <= i)%Z -> (0 <= t)%Z ->
  same_states Q sim sim' -> Q i t ->
  read_state sim' i t = read_state sim i t.
Proof.
  intros Hi Ht Hst HQ. destruct (Hst i t Hi Ht HQ) as (Ha & Hk & Hn).
  unfold read_state. rewrite Ha, Hk, Hn. reflexivity.
Qed.

(** [period_ok] reads the cells of periods [t] and [t+1] of individual
    [i] only. *)
Lemma period_ok_same (P Q : Z -> Z -> Prop) par sol sim sim' i t :
  (0 <= i)%Z -> (0 <= t)%Z ->
  same_inputs sim sim' -> same_choices P sim sim' -> same_states Q sim sim' ->
  P i t -> Q i t -> Q i (t + 1)%Z ->
  period_ok interp_2d par sol sim i t ->
  period_ok interp_2d par sol sim' i t.
Proof.
  intros Hi Ht (Hd & Hds & _) Hch Hst HP HQ HQ1 (p & Hread & Hpol & Hnext).
  destruct (Hch i t Hi Ht HP) as (Hc & Hh & Hs).
  destruct (Hst i t Hi Ht HQ) as (Ha & Hk & Hn).
  exists p. split; [| split].
  - unfold read_period in *. rewrite Hc, Hh, Hs, Ha, Hk, Hn. exact Hread.
  - destruct Hpol as (draw_s & sol_c & sol_h & H1 & H2).
    exists draw_s, sol_c, sol_h. rewrite Hds. auto.
  - intros Hlt. destruct (Hnext Hlt) as (next & Hrs & w_t & draw_b & Hw & Hdb & Hn').
    exists next. split.
    + rewrite (read_state_same Q sim sim' i (t + 1)); auto; lia.
    + exists w_t, draw_b. rewrite Hd. auto.
Qed.

Lemma init_ok_same (Q : Z -> Z -> Prop) sim sim' i :
  (0 <= i)%Z ->
  same_inputs sim sim' -> same_states Q sim sim' -> Q i 0%Z ->
  init_ok sim i -> init_ok sim' i.
Proof.
  intros Hi (_ & _ & Ha & Hk & Hn) Hst HQ (a0 & k0 & n0 & H1 & H2 & H3 & H4).
  exists a0, k0, n0. rewrite Ha, Hk, Hn.
  rewrite (read_state_same Q sim sim' i 0); auto; lia.
Qed.

Lemma simulate_individual_spec par sol sim i sim' :
  (0 <= i)%Z ->
  simulate_individual interp_2d par sol sim i = Some sim' ->
  same_inputs sim sim' /\
  same_choices (fun j _ => j <> i) sim sim' /\
  same_states (fun j _ => j <> i) sim sim' /\
  init_ok sim' i /\
  forall t, (0 <= t < par.(Par.simT))%Z ->
    period_ok interp_2d par sol sim' i t.
Proof.
  intros Hi Hrun. unfold simulate_individual in Hrun. simpl in Hrun.
  bind_inv Hrun.
  rename v into n0, v0 into n', v1 into a0, v2 into a', v3 into k0, v4 into k'.
  set (sim1 := Sim.set_k (Sim.set_a (Sim.set_n sim n') a') k') in Hrun.
  pose (Inv := fun (j : nat) (st : Sim.t) =>
    same_inputs sim st /\
    same_choices (fun j _ => j <> i) sim st /\
    same_states (fun j _ => j <> i) sim st /\
    init_ok st i /\
    forall t, (0 <= t < Z.of_nat j)%Z -> period_ok interp_2d par sol st i t).
  assert (Hend : Inv (length (range par.(Par.simT))) sim').
  { apply (for_each_invariant _ Inv _ _ _ Hrun).
    - unfold Inv, sim1. split; [repeat split |].
      split; [| split; [| split]].
      + intros j u Hj Hu Hne. simpl. auto.
      + intros j u Hj Hu Hne. simpl.
        rewrite (get2_set2_ne _ _ _ _ _ _ _ Hi (Z.le_refl 0) Hj Hu E2) by auto.
        rewrite (get2_set2_ne _ _ _ _ _ _ _ Hi (Z.le_refl 0) Hj Hu E4) by auto.
        rewrite (get2_set2_ne _ _ _ _ _ _ _ Hi (Z.le_refl 0) Hj Hu E0) by auto.
        auto.
      + exists a0, k0, n0. simpl. repeat split; try assumption.
        unfold read_state. simpl.
        rewrite (get2_set2_eq _ _ _ _ _ Hi (Z.le_refl 0) E2). simpl.
        rewrite (get2_set2_eq _ _ _ _ _ Hi (Z.le_refl 0) E4). simpl.
        rewrite (get2_set2_eq _ _ _ _ _ Hi (Z.le_refl 0) E0). reflexivity.
      + intros t Ht. lia.
    - intros j t st1 st2 Hlook (Hin & Hch & Hst & Hinit & Hper) Hbody.
      apply range_lookup in Hlook as [-> Hrange].
      destruct (simulate_period_spec _ _ _ _ _ _ Hi (proj1 Hrange) Hbody)
        as (Hin' & Hch' & Hst' & Hper').
      unfold Inv. split; [eapply same_inputs_trans; eassumption |].
      split; [| split; [| split]].
      + eapply same_choices_trans; [| exact Hch |].
        * intros ? ? H; exact H.
        * eapply same_choices_weaken; [| exact Hch']. intros ? ? H; left; exact H.
      + eapply same_states_trans; [| exact Hst |].
        * intros ? ? H; exact H.
        * eapply same_states_weaken; [| exact Hst']. intros ? ? H; left; exact H.
      + eapply init_ok_same; [exact Hi | exact Hin' | exact Hst' | | exact Hinit].
        simpl. right. lia.
      + intros t Ht.
        destruct (decide (t = Z.of_nat j)) as [-> | Hne]; [exact Hper' |].
        eapply (period_ok_same _ _ par sol st1 st2 i t Hi (proj1 Ht)
                  Hin' Hch' Hst'); [| | | apply Hper; lia]; simpl; right; lia. }
  destruct Hend as (Hin & Hch & Hst & Hinit & Hper).
  split; [exact Hin |]. split; [exact Hch |]. split; [exact Hst |].
  split; [exact Hinit |].
  intros t Ht. apply Hper. rewrite range_length. lia.
Qed.

(** What [simulate] leaves in the arrays: for every individual the
    states of period 0 are the initial values, and the cells of every
    period are related as by the loop body. *)
Lemma simulate_spec par sol sim sim' :
  simulate interp_2d par sol sim = Some sim' ->
  same_inputs sim sim' /\
  forall i, (0 <= i < par.(Par.simN))%Z ->
    init_ok sim' i /\
    forall t, (0 <= t < par.(Par.simT))%Z ->
      period_ok interp_2d par sol sim' i t.
Proof.
  intros Hrun. unfold simulate in Hrun.
  pose (Inv := fun (j : nat) (st : Sim.t) =>
    same_inputs sim st /\
    forall i, (0 <= i < Z.of_nat j)%Z ->
      init_ok st i /\
      forall t, (0 <= t < par.(Par.simT))%Z ->
        period_ok interp_2d par sol st i t).
  assert (Hend : Inv (length (range par.(Par.simN))) sim').
  { apply (for_each_invariant _ Inv _ _ _ Hrun).
    - split; [repeat split | intros i Hi; lia].
    - intros j i st1 st2 Hlook (Hin & Hdone) Hbody.
      apply range_lookup in Hlook as [-> Hrange].
      destruct (simulate_individual_spec _ _ _ _ _ (proj1 Hrange) Hbody)
        as (Hin' & Hch' & Hst' & Hinit' & Hper').
      split; [eapply same_inputs_trans; eassumption |].
      intros i Hi.
      destruct (decide (i = Z.of_nat j)) as [-> | Hne]; [auto |].
      destruct (Hdone i ltac:(lia)) as (Hinit & Hper).
      split.
      + eapply init_ok_same; [apply Hi | exact Hin' | exact Hst' | | exact Hinit].
        simpl. exact Hne.
      + intros t Ht.
        eapply (period_ok_same _ _ par sol st1 st2 i t (proj1 Hi) (proj1 Ht)
                  Hin' Hch' Hst'); [| | | apply Hper; exact Ht]; simpl; exact Hne. }
  destruct Hend as (Hin & Hdone). split; [exact Hin |].
  intros i Hi. apply Hdone. rewrite range_length. lia.
Qed.

(** *** The simulation returns *)

Lemma simulate_period_total par sol i sim t n_it :
  sim_allocated par sim -> sol_allocated par sol ->
  (0 <= i < par.(Par.simN))%Z -> (0 <= t < par.(Par.simT))%Z ->
  get2 sim.(Sim.n) i t = Some n_it -> (0 <= n_it < par.(Par.Nn))%Z ->
  is_Some (simulate_period interp_2d par sol i sim t).
Proof.
  intros (Dc & Dh & Da & Dk & Dn & Ds & Dd & Dds & _) (Dsol & Dw)
    Hi Ht Hn Hnr.
  assert (Hi0 : (0 <= i)%Z) by lia. assert (Ht0 : (0 <= t)%Z) by lia.
  assert (Ht1 : (0 <= t + 1)%Z) by lia.
  unfold simulate_period. simpl.
  destruct (Dds i t Hi Ht) as [draw_s ->]. simpl.
  set (spouse := (if Rleb draw_s par.(Par.p_spouse) then 1 else 0)%Z).
  assert (Hsp : (0 <= spouse <= 1)%Z)
    by (unfold spouse; destruct (Rleb _ _); lia).
  destruct (set2_total _ i t spouse (Ds i t Hi Ht)) as [s' Hs']. rewrite Hs'. simpl.
  rewrite Hn. simpl.
  rewrite (get2_set2_eq _ _ _ _ _ Hi0 Ht0 Hs'). simpl.
  destruct (Dsol t n_it spouse Ht Hnr Hsp) as [[sol_c ->] [sol_h ->]]. simpl.
  destruct (Da i t Hi Ht) as [a_it ->]. simpl.
  destruct (Dk i t Hi Ht) as [k_it ->]. simpl.
  match goal with |- context [set2 (Sim.c sim) i t ?v] =>
    destruct (set2_total _ i t v (Dc i t Hi Ht)) as [c' Hc'] end.
  rewrite Hc'. simpl.
  match goal with |- context [set2 (Sim.h sim) i t ?v] =>
    destruct (set2_total _ i t v (Dh i t Hi Ht)) as [h' Hh'] end.
  rewrite Hh'. simpl.
  destruct (t <? Par.simT par - 1)%Z eqn:Hlast; [| eauto].
  assert (Hlt : (0 <= t + 1 < par.(Par.simT))%Z) by lia.
  destruct (Dw t ltac:(lia)) as [w_t Hw].
  unfold wage_func. rewrite Hw. simpl.
  rewrite (get2_set2_eq _ _ _ _ _ Hi0 Ht0 Hh'). simpl.
  rewrite (get2_set2_eq _ _ _ _ _ Hi0 Ht0 Hc'). simpl.
  match goal with |- context [set2 (Sim.a sim) i (t + 1) ?v] =>
    destruct (set2_total _ i (t + 1) v (Da i _ Hi Hlt)) as [a' Ha'] end.
  rewrite Ha'. simpl.
  match goal with |- context [set2 (Sim.k sim) i (t + 1) ?v] =>
    destruct (set2_total _ i (t + 1) v (Dk i _ Hi Hlt)) as [k' Hk'] end.
  rewrite Hk'. simpl.
  destruct (Dd i t Hi Ht) as [draw_b ->]. simpl.
  match goal with |- context [set2 (Sim.n sim) i (t + 1) ?v] =>
    destruct (set2_total _ i (t + 1) v (Dn i _ Hi Hlt)) as [n' Hn'] end.
  rewrite Hn'. simpl. eauto.
Qed.

Lemma read_period_inv sim i t p :
  read_period sim i t = Some p ->
  get2 sim.(Sim.n) i t = Some p.(p_n) /\
  get2 sim.(Sim.s) i t = Some p.(p_s) /\
  get2 sim.(Sim.a) i t = Some p.(p_a) /\
  get2 sim.(Sim.k) i t = Some p.(p_k) /\
  get2 sim.(Sim.c) i t = Some p.(p_c) /\
  get2 sim.(Sim.h) i t = Some p.(p_h).
Proof.
  unfold read_period. intros H. bind_inv H. injection H as <-. simpl.
  repeat split; reflexivity.
Qed.

Lemma read_state_inv sim i t a_it k_it n_it :
  read_state sim i t = Some (a_it, k_it, n_it) ->
  get2 sim.(Sim.a) i t = Some a_it /\
  get2 sim.(Sim.k) i t = Some k_it /\
  get2 sim.(Sim.n) i t = Some n_it.
Proof.
  unfold read_state. intros H. bind_inv H. injection H as <- <- <-.
  repeat split; reflexivity.
Qed.

Lemma birth_of_cases par draw_b n_it s_it :
  (birth_of par draw_b n_it s_it = 1%Z /\
   draw_b <= par.(Par.p_birth) /\ (n_it < par.(Par.Nn) - 1)%Z /\ s_it = 1%Z)
  \/ (birth_of par draw_b n_it s_it = 0%Z /\
      ~ (draw_b <= par.(Par.p_birth) /\ (n_it < par.(Par.Nn) - 1)%Z
         /\ s_it = 1%Z)).
Proof.
  unfold birth_of.
  destruct (Rleb draw_b par.(Par.p_birth)) eqn:Hd; simpl.
  - apply Rleb_spec in Hd.
    destruct (n_it <? par.(Par.Nn) - 1)%Z eqn:Hn; simpl.
    + destruct (s_it =? 1)%Z eqn:Hs; [left | right]; split; try reflexivity.
      * repeat split; [exact Hd | lia | lia].
      * intros (_ & _ & ?). lia.
    + right. split; [reflexivity |]. intros (_ & ? & _). lia.
  - right. split; [reflexivity |]. intros (Hle & _).
    apply Rleb_spec in Hle. congruence.
Qed.

(** The relation between the children counts of two consecutive
    periods, as cells of the arrays. *)
Lemma period_ok_children par sol sim i t :
  (t < par.(Par.simT) - 1)%Z ->
  period_ok interp_2d par sol sim i t ->
  exists n_it s_it draw_b,
    get2 sim.(Sim.n) i t = Some n_it /\
    get2 sim.(Sim.s) i t = Some s_it /\
    get2 sim.(Sim.draws_uniform) i t = Some draw_b /\
    get2 sim.(Sim.n) i (t + 1) = Some (n_it + birth_of par draw_b n_it s_it)%Z.
Proof.
  intros Hlt (p & Hread & _ & Hnext).
  destruct (Hnext Hlt) as (next & Hrs & w_t & draw_b & _ & Hdb & ->).
  apply read_period_inv in Hread as (Hn & Hs & _).
  apply read_state_inv in Hrs as (_ & _ & Hn').
  exists p.(p_n), p.(p_s), draw_b. auto.
Qed.

Lemma sim_allocated_same (P Q : Z -> Z -> Prop) par sim sim' :
  sim_allocated par sim ->
  same_inputs sim sim' -> same_choices P sim sim' -> same_states Q sim sim' ->
  (forall j u, (0 <= j < par.(Par.simN))%Z -> (0 <= u < par.(Par.simT))%Z ->
      P j u \/ exists p, read_period sim' j u = Some p) ->
  (forall j u, (0 <= j < par.(Par.simN))%Z -> (0 <= u < par.(Par.simT))%Z ->
      Q j u \/ exists st, read_state sim' j u = Some st) ->
  sim_allocated par sim'.
Proof.
  intros (Dc & Dh & Da & Dk & Dn & Ds & Dd & Dds & Dinit)
    (Hd & Hds & Hai & Hki & Hni) Hch Hst HP HQ.
  unfold sim_allocated. rewrite Hd, Hds, Hai, Hki, Hni.
  assert (Hchoice : forall j u,
    (0 <= j < par.(Par.simN))%Z -> (0 <= u < par.(Par.simT))%Z ->
    is_Some (get2 sim'.(Sim.c) j u) /\ is_Some (get2 sim'.(Sim.h) j u)
    /\ is_Some (get2 sim'.(Sim.s) j u)).
  { intros j u Hj Hu. destruct (HP j u Hj Hu) as [Hp | [p Hp]].
    - destruct (Hch j u (proj1 Hj) (proj1 Hu) Hp) as (-> & -> & ->). auto.
    - apply read_period_inv in Hp as (_ & -> & _ & _ & -> & ->). eauto. }
  assert (Hstate : forall j u,
    (0 <= j < par.(Par.simN))%Z -> (0 <= u < par.(Par.simT))%Z ->
    is_Some (get2 sim'.(Sim.a) j u) /\ is_Some (get2 sim'.(Sim.k) j u)
    /\ is_Some (get2 sim'.(Sim.n) j u)).
  { intros j u Hj Hu. destruct (HQ j u Hj Hu) as [Hq | [[[a1 k1] n1] Hq]].
    - destruct (Hst j u (proj1 Hj) (proj1 Hu) Hq) as (-> & -> & ->). auto.
    - apply read_state_inv in Hq as (-> & -> & ->). eauto. }
  split; [intros j u Hj Hu; apply (Hchoice j u Hj Hu) |].
  split; [intros j u Hj Hu; apply (Hchoice j u Hj Hu) |].
  split; [intros j u Hj Hu; apply (Hstate j u Hj Hu) |].
  split; [intros j u Hj Hu; apply (Hstate j u Hj Hu) |].
  split; [intros j u Hj Hu; apply (Hstate j u Hj Hu) |].
  split; [intros j u Hj Hu; apply (Hchoice j u Hj Hu) |].
  auto.
Qed.

Lemma simulate_individual_total par sol sim i :
  sim_allocated par sim -> sol_allocated par sol ->
  (0 < par.(Par.simT))%Z -> (0 <= i < par.(Par.simN))%Z ->
  exists sim',
    simulate_individual interp_2d par sol sim i = Some sim' /\
    sim_allocated par sim'.
Proof.
  intros Hal Hsol HT Hi.
  assert (Hi0 : (0 <= i)%Z) by lia.
  pose proof Hal as (Dc & Dh & Da & Dk & Dn & Ds & Dd & Dds & Dinit).
  destruct (Dinit i Hi) as ([a0 Ha0] & [k0 Hk0] & n0 & Hn0 & Hn0r).
  assert (H0 : (0 <= 0 < par.(Par.simT))%Z) by lia.
  unfold simulate_individual. simpl.
  rewrite Hn0. simpl.
  destruct (set2_total _ i 0 n0 (Dn i 0%Z Hi H0)) as [n' Hn']. rewrite Hn'. simpl.
  rewrite Ha0. simpl.
  destruct (set2_total _ i 0 a0 (Da i 0%Z Hi H0)) as [a' Ha']. rewrite Ha'. simpl.
  rewrite Hk0. simpl.
  destruct (set2_total _ i 0 k0 (Dk i 0%Z Hi H0)) as [k' Hk']. rewrite Hk'. simpl.
  set (sim1 := Sim.set_k (Sim.set_a (Sim.set_n sim n') a') k').
  assert (Hal1 : sim_allocated par sim1).
  { unfold sim_allocated, sim1. simpl.
    split; [exact Dc |]. split; [exact Dh |].
    split; [intros j u Hj Hu;
            eapply get2_set2_is_Some; [| | | | exact Ha' | auto]; lia |].
    split; [intros j u Hj Hu;
            eapply get2_set2_is_Some; [| | | | exact Hk' | auto]; lia |].
    split; [intros j u Hj Hu;
            eapply get2_set2_is_Some; [| | | | exact Hn' | auto]; lia |].
    auto. }
  pose (Inv := fun (j : nat) (st : Sim.t) =>
    sim_allocated par st /\
    ((Z.of_nat j < par.(Par.simT))%Z ->
     exists n_j, get2 st.(Sim.n) i (Z.of_nat j) = Some n_j /\
                 (0 <= n_j < par.(Par.Nn))%Z)).
  destruct (for_each_total (simulate_period interp_2d par sol i) Inv
              (range par.(Par.simT)) sim1) as (sim' & Hrun & Hend & _).
  - split; [exact Hal1 |]. intros _. exists n0. split; [| exact Hn0r].
    unfold sim1. simpl. apply (get2_set2_eq _ _ _ _ _ Hi0 (Z.le_refl 0) Hn').
  - intros j t st1 Hlook (Hst1 & Hnj).
    apply range_lookup in Hlook as [-> Hrange].
    destruct (Hnj (proj2 Hrange)) as (n_j & Hn_j & Hn_jr).
    destruct (simulate_period_total par sol i st1 _ n_j Hst1 Hsol Hi Hrange
                Hn_j Hn_jr) as [st2 Hbody].
    exists st2. split; [exact Hbody |].
    destruct (simulate_period_spec _ _ _ _ _ _ Hi0 (proj1 Hrange) Hbody)
      as (Hin' & Hch' & Hst' & Hper').
    split.
    + apply (sim_allocated_same _ _ par st1 st2 Hst1 Hin' Hch' Hst').
      * intros j' u Hj' Hu. simpl.
        destruct (decide (j' = i)) as [-> | ?]; [| auto].
        destruct (decide (u = Z.of_nat j)) as [-> | ?]; [| auto].
        right. destruct Hper' as (p & Hp & _). eauto.
      * intros j' u Hj' Hu. simpl.
        destruct (decide (j' = i)) as [-> | ?]; [| auto].
        destruct (decide (u = (Z.of_nat j + 1)%Z)) as [-> | ?]; [| auto].
        right. destruct Hper' as (p & _ & _ & Hnext).
        destruct (Hnext ltac:(lia)) as (next & Hnx & _). eauto.
    + intros Hlt.
      destruct (period_ok_children par sol st2 i (Z.of_nat j) ltac:(lia) Hper')
        as (n_it & s_it & draw_b & Hn2 & _ & _ & Hn2').
      assert (n_it = n_j) as ->.
      { destruct (Hst' i (Z.of_nat j) Hi0 (proj1 Hrange) ltac:(right; lia))
          as (_ & _ & Hsame).
        congruence. }
      replace (Z.of_nat (S j)) with (Z.of_nat j + 1)%Z by lia.
      eexists. split; [exact Hn2' |].
      destruct (birth_of_cases par draw_b n_j s_it) as [(-> & _ & ? & _) | (-> & _)];
        lia.
  - exists sim'. split; [exact Hrun | exact Hend].
Qed.

(** With the arrays allocated and at least one period, [simulate]
    returns, and leaves the arrays allocated. *)
Lemma simulate_total par sol sim :
  sim_allocated par sim -> sol_allocated par sol ->
  (0 < par.(Par.simT))%Z ->
  exists sim', simulate interp_2d par sol sim = Some sim'.
Proof.
  intros Hal Hsol HT. unfold simulate.
  destruct (for_each_total (simulate_individual interp_2d par sol)
              (fun _ st => sim_allocated par st)
              (range par.(Par.simN)) sim) as (sim' & Hrun & _).
  - exact Hal.
  - intros j i st1 Hlook Hst1.
    apply range_lookup in Hlook as [-> Hrange].
    apply simulate_individual_total; assumption.
  - eauto.
Qed.

(** *** Children counts *)

Lemma period_ok_spouse par sol sim i t :
  period_ok interp_2d par sol sim i t ->
  exists draw_s,
    get2 sim.(Sim.draws_uniform_spouse) i t = Some draw_s /\
    get2 sim.(Sim.s) i t
    = Some (if Rleb draw_s par.(Par.p_spouse) then 1 else 0)%Z.
Proof.
  intros (p & Hread & (draw_s & sol_c & sol_h & Hd & Hs & _) & _).
  apply read_period_inv in Hread as (_ & Hs' & _).
  exists draw_s. split; [exact Hd | congruence].
Qed.

(** The children count of every period, by induction on the period:
    a property of the initial count that births below the cap keep. *)
Lemma simulate_children_induction par sol sim sim' i n0
    (Keep : Z -> Prop) :
  simulate interp_2d par sol sim = Some sim' ->
  (0 <= i < par.(Par.simN))%Z ->
  np_get sim.(Sim.n_init) i = Some n0 ->
  Keep n0 ->
  (forall t n_it s_it draw_b,
      (0 <= t < par.(Par.simT) - 1)%Z ->
      get2 sim.(Sim.draws_uniform) i t = Some draw_b ->
      get2 sim'.(Sim.s) i t = Some s_it ->
      Keep n_it -> Keep (n_it + birth_of par draw_b n_it s_it)%Z) ->
  forall t, (0 <= t < par.(Par.simT))%Z ->
    exists n_it, get2 sim'.(Sim.n) i t = Some n_it /\ Keep n_it.
Proof.
  intros Hrun Hi Hn0 Hkeep0 Hstep.
  destruct (simulate_spec _ _ _ _ Hrun) as ((Hd & _ & _ & _ & Hni) & Hall).
  destruct (Hall i Hi) as ((a0 & k0 & n0' & _ & _ & Hn0' & Hrs) & Hper).
  rewrite Hni, Hn0 in Hn0'. injection Hn0' as <-.
  apply read_state_inv in Hrs as (_ & _ & Hn_0).
  assert (Hnat : forall m : nat, (Z.of_nat m < par.(Par.simT))%Z ->
    exists n_it, get2 sim'.(Sim.n) i (Z.of_nat m) = Some n_it /\ Keep n_it).
  { induction m as [| m IH]; intros Hm.
    - exists n0. split; [exact Hn_0 | exact Hkeep0].
    - destruct (IH ltac:(lia)) as (n_m & Hn_m & Hk_m).
      destruct (period_ok_children par sol sim' i (Z.of_nat m) ltac:(lia)
                  (Hper (Z.of_nat m) ltac:(lia)))
        as (n_it & s_it & draw_b & Hn & Hs & Hdb & Hn').
      assert (n_it = n_m) as -> by congruence.
      replace (Z.of_nat (S m)) with (Z.of_nat m + 1)%Z by lia.
      eexists. split; [exact Hn' |].
      apply (Hstep (Z.of_nat m) n_m s_it draw_b); try assumption; [lia |].
      rewrite <- Hd. exact Hdb. }
  intros t Ht. replace t with (Z.of_nat (Z.to_nat t)) by lia.
  apply Hnat. lia.
Qed.

(** C6: after [simulate], for every individual and every period with a
    successor, the children count does not decrease; it stays at most
    [Nn-1] in every period when the initial count is at most [Nn-1]; and
    it increases only when the spouse indicator of the period is 1 and
    the birth draw is at most [p_birth]. *)
Theorem simulate_children_invariant par sol sim sim' :
  simulate interp_2d par sol sim = Some sim' ->
  forall i, (0 <= i < par.(Par.simN))%Z ->
  exists n0,
    np_get sim.(Sim.n_init) i = Some n0 /\
    (forall t, (0 <= t < par.(Par.simT))%Z ->
       exists n_it,
         get2 sim'.(Sim.n) i t = Some n_it /\
         ((n0 <= par.(Par.Nn) - 1)%Z -> (n_it <= par.(Par.Nn) - 1)%Z)) /\
    (forall t, (0 <= t < par.(Par.simT) - 1)%Z ->
       exists n_it n_next s_it draw_b,
         get2 sim'.(Sim.n) i t = Some n_it /\
         get2 sim'.(Sim.n) i (t + 1) = Some n_next /\
         get2 sim'.(Sim.s) i t = Some s_it /\
         get2 sim.(Sim.draws_uniform) i t = Some draw_b /\
         (n_it <= n_next)%Z /\
         ((n_it < n_next)%Z ->
          s_it = 1%Z /\ draw_b <= par.(Par.p_birth))).
Proof.
  intros Hrun i Hi.
  destruct (simulate_spec _ _ _ _ Hrun) as ((Hd & _ & _ & _ & Hni) & Hall).
  destruct (Hall i Hi) as ((a0 & k0 & n0 & _ & _ & Hn0 & _) & Hper).
  rewrite Hni in Hn0.
  exists n0. split; [exact Hn0 |]. split.
  - apply (simulate_children_induction par sol sim sim' i n0
             (fun n => (n0 <= par.(Par.Nn) - 1)%Z -> (n <= par.(Par.Nn) - 1)%Z)
             Hrun Hi Hn0).
    + auto.
    + intros t n_it s_it draw_b _ _ _ IH Hle.
      destruct (birth_of_cases par draw_b n_it s_it)
        as [(-> & _ & ? & _) | (-> & _)]; [lia |].
      specialize (IH Hle). lia.
  - intros t Ht.
    destruct (period_ok_children par sol sim' i t ltac:(lia) (Hper t ltac:(lia)))
      as (n_it & s_it & draw_b & Hn & Hs & Hdb & Hn').
    exists n_it, (n_it + birth_of par draw_b n_it s_it)%Z, s_it, draw_b.
    rewrite <- Hd.
    repeat (split; [assumption |]).
    destruct (birth_of_cases par draw_b n_it s_it)
      as [(-> & Hle & _ & Hs1) | (-> & _)].
    + split; [lia | auto].
    + split; [lia | intros; lia].
Qed.

(** C7, as amended: with [p_birth = 0] and every birth draw strictly
    positive, the children count of every individual stays at its
    initial value in every period. *)
Theorem simulate_no_birth par sol sim sim' :
  par.(Par.p_birth) = 0 ->
  (forall i t draw_b,
      get2 sim.(Sim.draws_uniform) i t = Some draw_b -> 0 < draw_b) ->
  simulate interp_2d par sol sim = Some sim' ->
  forall i t, (0 <= i < par.(Par.simN))%Z -> (0 <= t < par.(Par.simT))%Z ->
    exists n0,
      np_get sim.(Sim.n_init) i = Some n0 /\
      get2 sim'.(Sim.n) i t = Some n0.
Proof.
  intros Hp Hdraws Hrun i t Hi Ht.
  destruct (simulate_spec _ _ _ _ Hrun) as ((_ & _ & _ & _ & Hni) & Hall).
  destruct (Hall i Hi) as ((a0 & k0 & n0 & _ & _ & Hn0 & _) & _).
  rewrite Hni in Hn0.
  exists n0. split; [exact Hn0 |].
  destruct (simulate_children_induction par sol sim sim' i n0
              (fun n => n = n0) Hrun Hi Hn0 eq_refl) with (t := t)
    as (n_it & Hn_it & ->); [| exact Ht | exact Hn_it].
  intros u n_u s_u draw_b _ Hdb _ ->.
  destruct (birth_of_cases par draw_b n0 s_u)
    as [(_ & Hle & _) | (-> & _)]; [| lia].
  specialize (Hdraws _ _ _ Hdb). rewrite Hp in Hle. lra.
Qed.

(** *** States *)

(** C8: after [simulate], for every individual and every period with a
    successor, next period's assets and human capital are
    [(1+r)*(a + wage(k,t)*h + spouse_income(s,t) - c - childcare_cost(n))]
    and [k + h], which is what the [a_next] and [k_next] block of
    [value_of_choice] computes from the same assets, capital, children,
    spouse state and choice ([value_of_choice] hands a non-negative choice
    to that block as it is). *)
Theorem simulate_next_state par sol sim sim' :
  simulate interp_2d par sol sim = Some sim' ->
  forall i t, (0 <= i < par.(Par.simN))%Z ->
    (0 <= t < par.(Par.simT) - 1)%Z ->
  exists n_it s_it a_it k_it c_it h_it w_t a_next k_next,
    get2 sim'.(Sim.n) i t = Some n_it /\
    get2 sim'.(Sim.s) i t = Some s_it /\
    get2 sim'.(Sim.a) i t = Some a_it /\
    get2 sim'.(Sim.k) i t = Some k_it /\
    get2 sim'.(Sim.c) i t = Some c_it /\
    get2 sim'.(Sim.h) i t = Some h_it /\
    wage_func par k_it t = Some w_t /\
    get2 sim'.(Sim.a) i (t + 1) = Some a_next /\
    get2 sim'.(Sim.k) i (t + 1) = Some k_next /\
    a_next
    = (1 + par.(Par.r))
      * (a_it + w_t * h_it + spouse_income_func par s_it t - c_it
         - childcare_cost par n_it) /\
    k_next = k_it + h_it /\
    next_state par c_it h_it a_it k_it n_it s_it t = Some (a_next, k_next) /\
    (0 <= c_it -> 0 <= h_it -> penalty_clamp c_it h_it = (0, c_it, h_it)).
Proof.
  intros Hrun i t Hi Ht.
  destruct (simulate_spec _ _ _ _ Hrun) as (_ & Hall).
  destruct (Hall i Hi) as (_ & Hper).
  destruct (Hper t ltac:(lia)) as (p & Hread & _ & Hnext).
  destruct (Hnext ltac:(lia)) as (next & Hrs & w_t & draw_b & Hw & _ & ->).
  apply read_period_inv in Hread as (Hn & Hs & Ha & Hk & Hc & Hh).
  apply read_state_inv in Hrs as (Ha' & Hk' & _).
  exists p.(p_n), p.(p_s), p.(p_a), p.(p_k), p.(p_c), p.(p_h), w_t.
  eexists _, _.
  repeat (split; [eassumption |]).
  split; [ring |]. split; [reflexivity |].
  split; [| apply penalty_clamp_nonneg].
  unfold next_state. rewrite Hw. simpl. do 2 f_equal. lra.
Qed.

End Simulate.

(** ** Solution: the initial guesses of the interior periods *)

Section Solve.

Variable interp_2d : list R -> list R -> slice -> R -> R -> R.
Variable minimize_trust_constr :
  (list R -> option R) -> list R -> list bound ->
  (list R -> option R) * bound -> option Res.t.
Variable minimize_lbfgsb :
  (list R -> option R) -> list R -> list bound -> option Res.t.

(** The test of the initial guess only looks at the children index. *)
Lemma default_guess_test_eq i_n i_s i_a i_k :
  default_guess_test i_n i_s i_a i_k = (i_n =? 0)%Z.
Proof.
  unfold default_guess_test. rewrite !Z.land_0_l. simpl.
  destruct (i_n =? 0)%Z; reflexivity.
Qed.

(** One iteration makes one call of the optimizer and leaves its result
    in [res]; in an interior period the initial guess of the call is the
    default guess when the test holds and the previous [res.x]
    otherwise. *)
Lemma solve_cell_call par st cell st' :
  solve_cell interp_2d minimize_trust_constr minimize_lbfgsb par st cell
  = Some st' ->
  exists init res,
    st'.(st_calls) = st.(st_calls) ++ [mkCall cell init res] /\
    st'.(st_res) = Some res /\
    (cell.(cell_t) <> (par.(Par.T) - 1)%Z ->
     if (cell.(cell_i_n) =? 0)%Z then init = [0.000001; 1.0]
     else exists prev, st.(st_res) = Some prev /\ init = prev.(Res.x)).
Proof.
  unfold solve_cell. intros Hrun.
  destruct (cell_t cell =? Par.T par - 1)%Z eqn:Ht.
  - bind_inv Hrun. injection Hrun as <-. simpl.
    eexists _, _. split; [reflexivity |]. split; [reflexivity |]. lia.
  - rewrite default_guess_test_eq in Hrun.
    destruct (cell_i_n cell =? 0)%Z eqn:Hn.
    + simpl in Hrun. bind_inv Hrun. injection Hrun as <-. simpl.
      eexists _, _. split; [reflexivity |]. split; [reflexivity |]. auto.
    + destruct (st_res st) as [prev |] eqn:Hres; simpl in Hrun;
        [| discriminate].
      bind_inv Hrun. injection Hrun as <-. simpl.
      eexists _, _. split; [reflexivity |]. split; [reflexivity |]. eauto.
Qed.

(** The calls of a run: one per cell, in the order of the cells; [res]
    is the result of the last call; and every interior call takes its
    initial guess as [solve_cell_call] says, from the call before it. *)
Lemma solve_run_calls par sol st :
  solve_run interp_2d minimize_trust_constr minimize_lbfgsb par sol
  = Some st ->
  map call_cell st.(st_calls) = cells par /\
  forall j call,
    st.(st_calls) !! j = Some call ->
    call.(call_cell).(cell_t) <> (par.(Par.T) - 1)%Z ->
    if (call.(call_cell).(cell_i_n) =? 0)%Z
    then call.(call_init) = [0.000001; 1.0]
    else exists j' prev,
        j = S j' /\ st.(st_calls) !! j' = Some prev /\
        call.(call_init) = prev.(call_res).(Res.x).
Proof.
  unfold solve_run. intros Hrun.
  pose (Inv := fun (j : nat) (s : SolveState) =>
    map call_cell s.(st_calls) = take j (cells par) /\
    s.(st_res) = call_res <$> last s.(st_calls) /\
    forall k call,
      s.(st_calls) !! k = Some call ->
      call.(call_cell).(cell_t) <> (par.(Par.T) - 1)%Z ->
      if (call.(call_cell).(cell_i_n) =? 0)%Z
      then call.(call_init) = [0.000001; 1.0]
      else exists k' prev,
          k = S k' /\ s.(st_calls) !! k' = Some prev /\
          call.(call_init) = prev.(call_res).(Res.x)).
  assert (Hend : Inv (length (cells par)) st).
  { apply (for_each_invariant _ Inv _ _ _ Hrun).
    - unfold Inv. simpl. split; [reflexivity |]. split; [reflexivity |].
      intros k call Hk. rewrite lookup_nil in Hk. discriminate.
    - intros j cell st1 st2 Hcell (Hcells & Hres & Hcalls) Hbody.
      destruct (solve_cell_call _ _ _ _ Hbody) as (init & res & Hc2 & Hr2 & Hinit).
      unfold Inv. rewrite Hc2, Hr2.
      split; [| split].
      + rewrite map_app, Hcells. simpl.
        symmetry. apply take_S_r. exact Hcell.
      + rewrite last_snoc. reflexivity.
      + intros k call Hk Hint.
        apply lookup_app_Some in Hk as [Hk | [Hge Hk]].
        * specialize (Hcalls k call Hk Hint).
          destruct (cell_i_n (call_cell call) =? 0)%Z; [exact Hcalls |].
          destruct Hcalls as (k' & prev & -> & Hprev & Hx).
          exists k', prev. split; [reflexivity |]. split; [| exact Hx].
          apply lookup_app_l_Some. exact Hprev.
        * apply list_lookup_singleton_Some in Hk as [Hk0 <-]. simpl in *.
          specialize (Hinit Hint).
          destruct (cell_i_n cell =? 0)%Z; [exact Hinit |].
          destruct Hinit as (prev & Hprev & ->).
          rewrite Hres in Hprev.
          destruct (last (st_calls st1)) as [pc |] eqn:Hlast;
            simpl in Hprev; [| discriminate].
          injection Hprev as <-.
          apply last_Some in Hlast as [calls' Hcalls'].
          assert (Hlen : length (st_calls st1) = S (length calls'))
            by (rewrite Hcalls', length_app; simpl; lia).
          exists (length calls'), pc.
          split; [lia |]. split; [| reflexivity].
          rewrite Hcalls'. rewrite <- app_assoc.
          apply list_lookup_middle. reflexivity. }
  destruct Hend as (Hcells & _ & Hcalls).
  split; [| exact Hcalls].
  rewrite Hcells. apply firstn_all.
Qed.

(** C2, as amended: in a run of [solve] the optimizer is called once per
    cell in the iteration order; in the interior periods every cell with
    children index [i_n >= 1] takes as initial guess the solution
    [res.x] of the call for the immediately preceding cell, and the first
    cell ([i_n = i_s = i_a = i_k = 0]) of every interior period, not
    only of the first one, takes the default guess [(lb_c, 1.0)]. *)
Theorem solve_initial_guess par sol st :
  solve_run interp_2d minimize_trust_constr minimize_lbfgsb par sol
  = Some st ->
  map call_cell st.(st_calls) = cells par /\
  forall j call,
    st.(st_calls) !! j = Some call ->
    call.(call_cell).(cell_t) <> (par.(Par.T) - 1)%Z ->
    ((1 <= call.(call_cell).(cell_i_n))%Z ->
     exists j' prev,
       j = S j' /\ st.(st_calls) !! j' = Some prev /\
       call.(call_init) = prev.(call_res).(Res.x)) /\
    (call.(call_cell).(cell_i_n) = 0%Z ->
     call.(call_cell).(cell_i_s) = 0%Z ->
     call.(call_cell).(cell_i_a) = 0%Z ->
     call.(call_cell).(cell_i_k) = 0%Z ->
     call.(call_init) = [0.000001; 1.0]).
Proof.
  intros Hrun.
  destruct (solve_run_calls _ _ _ Hrun) as (Hcells & Hcalls).
  split; [exact Hcells |].
  intros j call Hj Hint. specialize (Hcalls j call Hj Hint).
  split.
  - intros Hn.
    destruct (cell_i_n (call_cell call) =? 0)%Z eqn:E; [lia | exact Hcalls].
  - intros Hn _ _ _. rewrite Hn in Hcalls. exact Hcalls.
Qed.

End Solve.

(** * Examples *)

(** ** The reference interpolation *)

Lemma interp_2d_bilinear_const v xi1 xi2 :
  interp_2d_bilinear unit_grid unit_grid (const_slice v) xi1 xi2 = v.
Proof.
  unfold interp_2d_bilinear, unit_grid, const_slice. simpl. field.
Qed.

(** ** Earlier periods *)

Lemma wage_func_configure T Nn Ns simN p_birth p_spouse a_grid k_grid capital t :
  (0 <= t < T)%Z ->
  wage_func (configure T Nn Ns simN p_birth p_spouse a_grid k_grid) capital t
  = Some (0.9 * (1 + 0.1 * capital)).
Proof.
  intros Ht. unfold wage_func, configure. simpl.
  rewrite (np_get_nonneg _ _ (proj1 Ht)).
  rewrite list_lookup_fmap.
  destruct (range T !! Z.to_nat t) as [x |] eqn:Hx.
  - simpl. f_equal. lra.
  - apply lookup_ge_None in Hx. rewrite range_length in Hx. lia.
Qed.

(** C1 at a failing input: with [p_spouse = 0.5], no child today and a
    value of 1 next period only for one child without spouse, the code's
    expected continuation value is 0.5, because it reads the no-spouse value
    at [kids+1]; the formula of the specification, which reads it at
    [kids], gives 0. *)
Theorem EV_next_no_spouse_birth :
  EV_next interp_2d_bilinear par_half_spouse sol_half_spouse 1 1 0 0 0 0 0
  = Some 0.5 /\
  EV_next_spec interp_2d_bilinear par_half_spouse sol_half_spouse 1 1 0 0 0 0 0
  = Some 0 /\
  EV_next interp_2d_bilinear par_half_spouse sol_half_spouse 1 1 0 0 0 0 0
  <> EV_next_spec interp_2d_bilinear par_half_spouse sol_half_spouse
       1 1 0 0 0 0 0.
Proof.
  assert (Hcode :
    EV_next interp_2d_bilinear par_half_spouse sol_half_spouse 1 1 0 0 0 0 0
    = Some 0.5 /\
    EV_next_spec interp_2d_bilinear par_half_spouse sol_half_spouse 1 1 0 0 0 0 0
    = Some 0);
    [| destruct Hcode as [H1 H2]; split; [exact H1 |]; split; [exact H2 |];
       rewrite H1, H2; intros [= H]; lra].
  split.
  - rewrite EV_next_eq. unfold next_state, par_half_spouse.
    rewrite wage_func_configure by lia. simpl.
    unfold V_at. simpl.
    rewrite !interp_2d_bilinear_const. f_equal. lra.
  - unfold EV_next_spec, next_state, par_half_spouse.
    rewrite wage_func_configure by lia. simpl.
    unfold V_at. simpl.
    rewrite !interp_2d_bilinear_const. f_equal. lra.
Qed.

(** C5 as stated fails for hours: negative hours are replaced by 0, which
    is not a positive value. *)
Lemma penalty_clamp_hours_zero :
  let '(_, _, hours') := penalty_clamp 1 (-1) in
  hours' = 0 /\ ~ 0 < hours'.
Proof.
  rewrite penalty_clamp_eq.
  destruct (Rlt_dec (-1) 0); [| lra].
  split; lra.
Qed.

Lemma continuation_birth_cap_witness :
  (exists co,
      continuation interp_2d_bilinear par_half_spouse sol_slice_values 0 0 1 0
      = Some co /\
      co.(V_next_no_birth) = 4 /\ co.(V_next_birth) = 4 /\
      co.(V_next_birth) = co.(V_next_no_birth)) /\
  (exists co,
      continuation interp_2d_bilinear par_half_spouse sol_slice_values 0 0 0 0
      = Some co /\
      co.(V_next_no_birth) = 2 /\ co.(V_next_birth) = 4).
Proof.
  split.
  - eexists.
    destruct (continuation_birth_cap interp_2d_bilinear par_half_spouse
                sol_slice_values 0 0 1 0 _ eq_refl)
      as ((V_next & Hget & Hno & Hbirth) & Hcap & _).
    change (Some (const_slice 4) = Some V_next) in Hget.
    injection Hget as <-.
    split; [reflexivity |].
    split; [rewrite Hno; apply interp_2d_bilinear_const |].
    split.
    + rewrite Hbirth by (simpl; lia). apply interp_2d_bilinear_const.
    + apply Hcap. simpl. lia.
  - eexists.
    destruct (continuation_birth_cap interp_2d_bilinear par_half_spouse
                sol_slice_values 0 0 0 0 _ eq_refl)
      as ((V_next & Hget & Hno & _) & _ & Hbelow).
    destruct Hbelow as (V_birth & Hgetb & Hbirth); [simpl; lia |].
    change (Some (const_slice 2) = Some V_next) in Hget.
    injection Hget as <-.
    change (Some (const_slice 4) = Some V_birth) in Hgetb.
    injection Hgetb as <-.
    split; [reflexivity |].
    split; [rewrite Hno | rewrite Hbirth]; apply interp_2d_bilinear_const.
Defined.

(** ** Period reward model and last period, at the baseline parameters *)

Lemma wage_func_monotone_witness :
  exists w1 w2,
    wage_func (baseline [] []) 1 3 = Some w1 /\
    wage_func (baseline [] []) 2 3 = Some w2 /\
    w1 <= w2 /\ 0 <= w1.
Proof.
  apply (wage_func_monotone (baseline [] []) 3 (1.0 * 1) 1 2).
  - simpl. lra.
  - simpl. lra.
  - reflexivity.
  - lra.
  - lra.
Defined.

Lemma cons_last_budget_witness :
  cons_last (baseline [] []) 1 (-5) 0 0 0 = Some 1e-8.
Proof.
  rewrite (cons_last_budget (baseline [] []) 1 (-5) 0 0 0 (0.9 * (1 + 0.1 * 0))).
  - simpl. destruct (Rlt_dec _ _) as [_ | H]; [reflexivity |].
    exfalso. apply H. unfold spouse_income_func, childcare_cost. simpl. lra.
  - apply wage_func_configure. simpl. lia.
Defined.

Lemma cons_last_floor_witness :
  exists c,
    cons_last (baseline [] []) (-1) (-5) 0 0 0 = Some c /\ 1e-8 <= c.
Proof.
  destruct (cons_last_floor (baseline [] []) (-1) (-5) 0 0 0 (1.0 * 1))
    as (c & Hc & Hge & _).
  - reflexivity.
  - simpl. lra.
  - exists c. split; assumption.
Defined.

(** ** Simulation *)

Lemma np_get_In {A} (l : list A) i x : np_get l i = Some x -> In x l.
Proof.
  unfold np_get. destruct (np_index (length l) i) as [j |]; simpl; [| discriminate].
  intros H. apply list_elem_of_In. eapply list_elem_of_lookup_2. exact H.
Qed.

Lemma get2_In {A} (a : list (list A)) i t x :
  get2 a i t = Some x -> exists row, In row a /\ In x row.
Proof.
  unfold get2. destruct (np_get a i) as [row |] eqn:Hrow; simpl; [| discriminate].
  intros H. exists row. split; eapply np_get_In; eassumption.
Qed.

Lemma sim_one_household_allocated p_birth draw_b :
  sim_allocated (par_one_household p_birth) (sim_one_household draw_b).
Proof.
  assert (Hcell : forall i t, (0 <= i < 1)%Z -> (0 <= t < 2)%Z ->
    i = 0%Z /\ (t = 0%Z \/ t = 1%Z)) by (intros; lia).
  unfold sim_allocated. simpl.
  repeat match goal with
    | |- defined2 _ _ _ /\ _ => split
    | |- defined2 _ _ _ =>
        intros i t Hi Ht; destruct (Hcell i t Hi Ht) as [-> [-> | ->]];
        eexists; reflexivity
    end.
  intros i Hi. assert (i = 0%Z) as -> by lia.
  split; [eexists; reflexivity |]. split; [eexists; reflexivity |].
  exists 0%Z. split; [reflexivity | lia].
Qed.

Lemma sol_ones_allocated p_birth :
  sol_allocated (par_one_household p_birth) sol_ones.
Proof.
  split.
  - simpl. intros t n s Ht Hn Hs.
    assert (t = 0 \/ t = 1)%Z as [-> | ->] by lia;
      assert (n = 0 \/ n = 1)%Z as [-> | ->] by lia;
      assert (s = 0 \/ s = 1)%Z as [-> | ->] by lia;
      split; eexists; reflexivity.
  - simpl. intros t Ht. assert (t = 0%Z) as -> by lia. eexists; reflexivity.
Qed.

Lemma simulate_one_household p_birth draw_b :
  exists sim',
    simulate interp_2d_bilinear (par_one_household p_birth) sol_ones
      (sim_one_household draw_b) = Some sim'.
Proof.
  apply simulate_total.
  - apply sim_one_household_allocated.
  - apply sol_ones_allocated.
  - simpl. lia.
Qed.

(** C7 as stated fails: with [p_birth = 0] and birth draws equal to 0,
    which lies in [0,1), the household has a spouse, the test
    [draw <= p_birth] holds and the first child is born. *)
Lemma simulate_birth_at_zero_draw :
  Par.p_birth (par_one_household 0) = 0 /\
  (forall i t draw_b,
      get2 (Sim.draws_uniform (sim_one_household 0)) i t = Some draw_b ->
      0 <= draw_b < 1) /\
  exists sim',
    simulate interp_2d_bilinear (par_one_household 0) sol_ones
      (sim_one_household 0) = Some sim' /\
    np_get (Sim.n_init (sim_one_household 0)) 0 = Some 0%Z /\
    get2 (Sim.n sim') 0 1 = Some 1%Z.
Proof.
  split; [reflexivity |]. split.
  - intros i t d Hd. apply get2_In in Hd as (row & Hrow & Hd).
    simpl in Hrow. destruct Hrow as [<- | []].
    simpl in Hd. destruct Hd as [<- | [<- | []]]; lra.
  - destruct (simulate_one_household 0 0) as [sim' Hrun].
    exists sim'. split; [exact Hrun |]. split; [reflexivity |].
    destruct (simulate_spec _ _ _ _ _ Hrun) as ((Hd & Hds & _ & _ & Hni) & Hall).
    destruct (Hall 0%Z ltac:(simpl; lia))
      as ((a0 & k0 & n0 & _ & _ & Hn0 & Hrs) & Hper).
    rewrite Hni in Hn0. simpl in Hn0. injection Hn0 as <-.
    apply read_state_inv in Hrs as (_ & _ & Hn_0).
    specialize (Hper 0%Z ltac:(simpl; lia)).
    destruct (period_ok_spouse _ _ _ _ _ _ Hper) as (draw_s & Hdraw_s & Hs).
    rewrite Hds in Hdraw_s. simpl in Hdraw_s. injection Hdraw_s as <-.
    simpl in Hs. rewrite Rleb_true in Hs by lra.
    destruct (period_ok_children interp_2d_bilinear (par_one_household 0)
                sol_ones sim' 0%Z 0%Z ltac:(simpl; lia) Hper)
      as (n_it & s_it & draw_b & Hn & Hs' & Hdb & Hn').
    rewrite Hd in Hdb. simpl in Hdb. injection Hdb as <-.
    assert (n_it = 0%Z) as -> by congruence.
    assert (s_it = 1%Z) as -> by congruence.
    change (0 + 1)%Z with 1%Z in Hn'. rewrite Hn'.
    unfold birth_of. simpl.
    rewrite Rleb_true by lra. reflexivity.
Qed.

Lemma simulate_children_invariant_witness :
  exists sim' n0,
    simulate interp_2d_bilinear (par_one_household 0.1) sol_ones
      (sim_one_household 0.05) = Some sim' /\
    np_get (Sim.n_init (sim_one_household 0.05)) 0 = Some n0 /\
    (forall t, (0 <= t < 2)%Z ->
       exists n_it,
         get2 (Sim.n sim') 0 t = Some n_it /\
         ((n0 <= 2 - 1)%Z -> (n_it <= 2 - 1)%Z)) /\
    (forall t, (0 <= t < 2 - 1)%Z ->
       exists n_it n_next s_it draw_b,
         get2 (Sim.n sim') 0 t = Some n_it /\
         get2 (Sim.n sim') 0 (t + 1) = Some n_next /\
         get2 (Sim.s sim') 0 t = Some s_it /\
         get2 (Sim.draws_uniform (sim_one_household 0.05)) 0 t = Some draw_b /\
         (n_it <= n_next)%Z /\
         ((n_it < n_next)%Z -> s_it = 1%Z /\ draw_b <= 0.1)).
Proof.
  destruct (simulate_one_household 0.1 0.05) as [sim' Hrun].
  destruct (simulate_children_invariant interp_2d_bilinear
              (par_one_household 0.1) sol_ones (sim_one_household 0.05) sim'
              Hrun 0%Z) as (n0 & H).
  - simpl. lia.
  - exists sim', n0. split; [exact Hrun | exact H].
Defined.

Lemma simulate_no_birth_witness :
  exists sim',
    simulate interp_2d_bilinear (par_one_household 0) sol_ones
      (sim_one_household 0.5) = Some sim' /\
    forall i t, (0 <= i < 1)%Z -> (0 <= t < 2)%Z ->
      exists n0,
        np_get (Sim.n_init (sim_one_household 0.5)) i = Some n0 /\
        get2 (Sim.n sim') i t = Some n0.
Proof.
  destruct (simulate_one_household 0 0.5) as [sim' Hrun].
  exists sim'. split; [exact Hrun |].
  apply (simulate_no_birth interp_2d_bilinear (par_one_household 0) sol_ones
           (sim_one_household 0.5) sim').
  - reflexivity.
  - intros i t d Hd. apply get2_In in Hd as (row & Hrow & Hd).
    simpl in Hrow. destruct Hrow as [<- | []].
    simpl in Hd. destruct Hd as [<- | [<- | []]]; lra.
  - exact Hrun.
Defined.

Lemma simulate_next_state_witness :
  exists sim' n_it s_it a_it k_it c_it h_it a_next k_next,
    simulate interp_2d_bilinear (par_one_household 0.1) sol_ones
      (sim_one_household 0.05) = Some sim' /\
    get2 (Sim.n sim') 0 0 = Some n_it /\
    get2 (Sim.s sim') 0 0 = Some s_it /\
    get2 (Sim.a sim') 0 0 = Some a_it /\
    get2 (Sim.k sim') 0 0 = Some k_it /\
    get2 (Sim.c sim') 0 0 = Some c_it /\
    get2 (Sim.h sim') 0 0 = Some h_it /\
    get2 (Sim.a sim') 0 1 = Some a_next /\
    get2 (Sim.k sim') 0 1 = Some k_next /\
    next_state (par_one_household 0.1) c_it h_it a_it k_it n_it s_it 0
    = Some (a_next, k_next).
Proof.
  destruct (simulate_one_household 0.1 0.05) as [sim' Hrun].
  destruct (simulate_next_state interp_2d_bilinear (par_one_household 0.1)
              sol_ones (sim_one_household 0.05) sim' Hrun 0%Z 0%Z)
    as (n_it & s_it & a_it & k_it & c_it & h_it & w_t & a_next & k_next
        & Hn & Hs & Ha & Hk & Hc & Hh & _ & Ha' & Hk' & _ & _ & Hnext & _).
  - simpl. lia.
  - simpl. lia.
  - exists sim', n_it, s_it, a_it, k_it, c_it, h_it, a_next, k_next.
    repeat (split; [assumption |]). exact Hnext.
Defined.

(** ** Solution *)

Lemma solve_three_periods :
  exists st call_0,
    solve_run interp_2d_bilinear trust_constr_fixed lbfgsb_fixed
      par_three_periods sol_three_periods = Some st /\
    st.(st_calls)
    = [call_0;
       mkCall (mkCell 1 0 0 0 0 0 0 0 0) [0.000001; 1.0] (Res.mk [5; 5] (-1));
       mkCall (mkCell 0 0 0 0 0 0 0 0 0) [0.000001; 1.0] (Res.mk [5; 5] (-1))].
Proof.
  eexists _, _. split.
  - unfold solve_run.
    change (cells par_three_periods)
      with [mkCell 2 0 0 0 0 0 0 0 0; mkCell 1 0 0 0 0 0 0 0 0;
            mkCell 0 0 0 0 0 0 0 0 0].
    cbn [for_each]. unfold solve_cell. simpl.
    rewrite np_true_divide_Fin by lra. simpl. reflexivity.
  - reflexivity.
Qed.

Lemma solve_two_children :
  exists st,
    solve_run interp_2d_bilinear trust_constr_fixed lbfgsb_fixed
      par_two_children sol_two_children = Some st.
Proof.
  eexists.
  unfold solve_run.
  change (cells par_two_children)
    with [mkCell 1 0 0 0 0 0 0 0 0; mkCell 1 1 1 0 0 0 0 0 0;
          mkCell 0 0 0 0 0 0 0 0 0; mkCell 0 1 1 0 0 0 0 0 0].
  cbn [for_each]. unfold solve_cell. simpl.
  rewrite np_true_divide_Fin by lra. simpl. reflexivity.
Qed.

(** C2 as stated fails: on three periods with one cell each, the third
    call of the optimizer, for the cell of period 0, is not the first call
    of the backward pass, nor the first of an interior period, and still
    takes the default guess rather than the solution [(5, 5)] of the call
    before it. *)
Lemma solve_default_guess_every_period :
  exists st prev call,
    solve_run interp_2d_bilinear trust_constr_fixed lbfgsb_fixed
      par_three_periods sol_three_periods = Some st /\
    st.(st_calls) !! 1%nat = Some prev /\
    st.(st_calls) !! 2%nat = Some call /\
    prev.(call_cell).(cell_t) = 1%Z /\
    call.(call_cell).(cell_t) = 0%Z /\
    (call.(call_cell).(cell_t) < par_three_periods.(Par.T) - 1)%Z /\
    call.(call_init) = [0.000001; 1.0] /\
    call.(call_init) <> prev.(call_res).(Res.x).
Proof.
  destruct solve_three_periods as (st & call_0 & Hrun & Hcalls).
  exists st. eexists _, _. split; [exact Hrun |].
  rewrite Hcalls. simpl.
  split; [reflexivity |]. split; [reflexivity |].
  simpl. split; [reflexivity |]. split; [reflexivity |].
  split; [lia |]. split; [reflexivity |].
  intros H. injection H as H1 H2. lra.
Qed.

Lemma solve_initial_guess_witness :
  exists st first second,
    solve_run interp_2d_bilinear trust_constr_fixed lbfgsb_fixed
      par_two_children sol_two_children = Some st /\
    st.(st_calls) !! 2%nat = Some first /\
    st.(st_calls) !! 3%nat = Some second /\
    first.(call_init) = [0.000001; 1.0] /\
    second.(call_init) = first.(call_res).(Res.x).
Proof.
  destruct solve_two_children as (st & Hrun).
  destruct (solve_initial_guess interp_2d_bilinear trust_constr_fixed
              lbfgsb_fixed par_two_children sol_two_children st Hrun)
    as (Hcells & Hcalls).
  assert (Hlook : forall j cell,
    cells par_two_children !! j = Some cell ->
    exists call, st.(st_calls) !! j = Some call /\ call.(call_cell) = cell).
  { intros j cell Hj. rewrite <- Hcells, list_lookup_fmap in Hj.
    destruct (st_calls st !! j) as [call |]; simpl in Hj; [| discriminate].
    injection Hj as <-. eauto. }
  destruct (Hlook 2%nat (mkCell 0 0 0 0 0 0 0 0 0) eq_refl) as (first & H1 & Hc1).
  destruct (Hlook 3%nat (mkCell 0 1 1 0 0 0 0 0 0) eq_refl) as (second & H2 & Hc2).
  exists st, first, second.
  split; [exact Hrun |]. split; [exact H1 |]. split; [exact H2 |].
  split.
  - apply (Hcalls 2%nat first H1); rewrite Hc1; simpl; (lia || reflexivity).
  - destruct (Hcalls 3%nat second H2) as (Hwarm & _).
    { rewrite Hc2. simpl. lia. }
    destruct Hwarm as (j' & prev & Hj' & Hprev & Hinit).
    { rewrite Hc2. simpl. lia. }
    injection Hj' as <-. rewrite H1 in Hprev. injection Hprev as <-.
    exact Hinit.
Defined.

(** * Further properties *)

(** ** Period reward model *)

Lemma Rpower_pos x y : 0 < Rpower x y.
Proof. unfold Rpower. apply exp_pos. Qed.

(** The CRRA term [c**e / e] does not decrease in [c > 0], whatever the
    sign of the exponent [e <> 0]. *)
Lemma crra_term_monotone e c1 c2 :
  e <> 0 -> 0 < c1 <= c2 -> Rpower c1 e / e <= Rpower c2 e / e.
Proof.
  intros He Hc.
  destruct (Rlt_dec 0 e) as [Hpos | Hneg].
  - assert (Rpower c1 e <= Rpower c2 e) by (apply Rle_Rpower_l; lra).
    unfold Rdiv. apply Rmult_le_compat_r; [| assumption].
    left. apply Rinv_0_lt_compat. exact Hpos.
  - assert (He' : 0 < - e) by lra.
    assert (H12 : Rpower c1 (- e) <= Rpower c2 (- e))
      by (apply Rle_Rpower_l; lra).
    replace e with (- - e) by ring.
    rewrite !(Rpower_Ropp _ (- e)).
    pose proof (Rpower_pos c1 (- e)) as H1.
    pose proof (Rpower_pos c2 (- e)) as H2.
    assert (Hinv : / Rpower c2 (- e) <= / Rpower c1 (- e))
      by (apply Rinv_le_contravar; assumption).
    assert (Hie : 0 < / - e) by (apply Rinv_0_lt_compat; exact He').
    replace (/ Rpower c1 (- e) / - - e) with (- (/ Rpower c1 (- e) * / - e))
      by (field; split; lra).
    replace (/ Rpower c2 (- e) / - - e) with (- (/ Rpower c2 (- e) * / - e))
      by (field; split; lra).
    apply Ropp_le_contravar. apply Rmult_le_compat_r; lra.
Qed.

(** X1: more consumption never lowers utility: on strictly positive
    consumption [util] is non-decreasing in consumption, for any CRRA
    coefficient with [1 + eta <> 0]. *)
Theorem util_monotone_cons par c1 c2 hours kids u1 u2 :
  1.0 + par.(Par.eta) <> 0 ->
  0 < c1 <= c2 ->
  util par c1 hours kids = Some u1 ->
  util par c2 hours kids = Some u2 ->
  u1 <= u2.
Proof.
  intros He [Hc1 Hc12] H1 H2. unfold util in H1, H2.
  rewrite (py_pow_pos c1) in H1 by lra.
  rewrite (py_pow_pos c2) in H2 by lra.
  simpl in H1, H2.
  rewrite (py_div_Some _ _ He) in H1. rewrite (py_div_Some _ _ He) in H2.
  simpl in H1, H2.
  destruct (py_pow hours (1.0 + par.(Par.gamma))) as [h_pow |];
    simpl in H1, H2; [| discriminate].
  destruct (py_div _ (1.0 + par.(Par.gamma))) as [h_term |];
    simpl in H1, H2; [| discriminate].
  injection H1 as <-. injection H2 as <-.
  pose proof (crra_term_monotone _ c1 c2 He (conj Hc1 Hc12)). lra.
Qed.

(** The power [h**g] of non-negative hours with a positive exponent. *)
Lemma py_pow_hours_monotone g h1 h2 p1 p2 :
  0 < g -> 0 <= h1 <= h2 ->
  py_pow h1 g = Some p1 -> py_pow h2 g = Some p2 ->
  0 <= p1 <= p2.
Proof.
  intros Hg [Hh1 Hh12] H1 H2. unfold py_pow in H1, H2.
  destruct (Rlt_dec 0 h2) as [Hpos2 | Hz2].
  - injection H2 as <-.
    destruct (Rlt_dec 0 h1) as [Hpos1 | Hz1].
    + injection H1 as <-. split; [left; apply Rpower_pos |].
      apply Rle_Rpower_l; lra.
    + destruct (Req_dec_T h1 0); [| lra].
      destruct (Rlt_dec g 0); [lra |].
      destruct (Req_dec_T g 0); [lra |].
      injection H1 as <-. split; [lra | left; apply Rpower_pos].
  - destruct (Rlt_dec 0 h1); [lra |].
    destruct (Req_dec_T h1 0); [| lra].
    destruct (Req_dec_T h2 0); [| lra].
    destruct (Rlt_dec g 0); [lra |].
    destruct (Req_dec_T g 0); [lra |].
    injection H1 as <-. injection H2 as <-. lra.
Qed.

(** X2: with non-negative weights [beta_0], [beta_1] and [1 + gamma > 0],
    more hours and more children never raise utility: for
    [0 <= h1 <= h2] and [0 <= kids1 <= kids2], the utility at
    [(h2, kids2)] is at most the utility at [(h1, kids1)]. *)
Theorem util_monotone_hours_kids par c h1 h2 kids1 kids2 u1 u2 :
  0 <= par.(Par.beta_0) -> 0 <= par.(Par.beta_1) ->
  0 < 1.0 + par.(Par.gamma) ->
  0 <= h1 <= h2 -> (0 <= kids1 <= kids2)%Z ->
  util par c h1 kids1 = Some u1 ->
  util par c h2 kids2 = Some u2 ->
  u2 <= u1.
Proof.
  intros Hb0 Hb1 Hg Hh Hk H1 H2. unfold util in H1, H2.
  destruct (py_pow c (1.0 + par.(Par.eta))) as [c_pow |];
    simpl in H1, H2; [| discriminate].
  destruct (py_div c_pow (1.0 + par.(Par.eta))) as [c_term |];
    simpl in H1, H2; [| discriminate].
  destruct (py_pow h1 (1.0 + par.(Par.gamma))) as [p1 |] eqn:Hp1;
    simpl in H1; [| discriminate].
  destruct (py_pow h2 (1.0 + par.(Par.gamma))) as [p2 |] eqn:Hp2;
    simpl in H2; [| discriminate].
  rewrite py_div_Some in H1 by lra. rewrite py_div_Some in H2 by lra.
  simpl in H1, H2.
  injection H1 as <-. injection H2 as <-.
  destruct (py_pow_hours_monotone _ _ _ _ _ Hg Hh Hp1 Hp2) as [Hp1' Hp12].
  assert (Hk1 : 0 <= IZR kids1) by (apply IZR_le; lia).
  assert (Hk12 : IZR kids1 <= IZR kids2) by (apply IZR_le; lia).
  set (b1 := par.(Par.beta_0) + par.(Par.beta_1) * IZR kids1).
  set (b2 := par.(Par.beta_0) + par.(Par.beta_1) * IZR kids2).
  assert (Hb1' : 0 <= b1)
    by (unfold b1; assert (0 <= par.(Par.beta_1) * IZR kids1)
          by (apply Rmult_le_pos; lra); lra).
  assert (Hb12 : b1 <= b2)
    by (unfold b1, b2;
        assert (par.(Par.beta_1) * IZR kids1 <= par.(Par.beta_1) * IZR kids2)
          by (apply Rmult_le_compat_l; lra); lra).
  assert (Hprod : b1 * p1 <= b2 * p2) by (apply Rmult_le_compat; lra).
  assert (Hinv : 0 < / (1.0 + par.(Par.gamma)))
    by (apply Rinv_0_lt_compat; exact Hg).
  assert (b1 * p1 / (1.0 + par.(Par.gamma))
          <= b2 * p2 / (1.0 + par.(Par.gamma)))
    by (unfold Rdiv; apply Rmult_le_compat_r; lra).
  lra.
Qed.

(** Zero consumption is outside the domain of [util] when the CRRA
    exponent [1 + eta] is negative. *)
Lemma util_zero_cons par hours kids :
  1.0 + par.(Par.eta) < 0 ->
  util par 0 hours kids = None.
Proof.
  intros He. unfold util, py_pow.
  destruct (Rlt_dec 0 0); [lra |].
  destruct (Req_dec_T 0 0); [| lra].
  destruct (Rlt_dec (1.0 + par.(Par.eta)) 0); [reflexivity | lra].
Qed.

(** X3: terminal consumption never falls when hours or assets rise,
    provided the wage of the last period is non-negative. *)
Theorem cons_last_monotone par h1 h2 a1 a2 capital kids spouse w_last c1 c2 :
  wage_func par capital (par.(Par.T) - 1) = Some w_last ->
  0 <= w_last ->
  h1 <= h2 -> a1 <= a2 ->
  cons_last par h1 a1 capital kids spouse = Some c1 ->
  cons_last par h2 a2 capital kids spouse = Some c2 ->
  c1 <= c2.
Proof.
  intros Hw Hpos Hh Ha H1 H2. unfold cons_last in H1, H2.
  rewrite Hw in H1, H2. simpl in H1, H2.
  injection H1 as <-. injection H2 as <-.
  assert (w_last * h1 <= w_last * h2) by (apply Rmult_le_compat_l; lra).
  unfold py_max.
  repeat match goal with |- context [Rlt_dec ?x ?y] => destruct (Rlt_dec x y) end;
    lra.
Qed.

(** X4: without childcare cost ([theta = 0]) and with the spouse income
    switched off ([spouse_dummy = 0]), as in the baseline, the budget does
    not see the children or the spouse: terminal consumption and
    next-period assets and capital are the same for all children counts and
    spouse states. *)
Theorem budget_ignores_kids_spouse par hours cons assets capital
    kids spouse kids' spouse' t :
  par.(Par.theta) = 0 -> par.(Par.spouse_dummy) = 0%Z ->
  cons_last par hours assets capital kids spouse
  = cons_last par hours assets capital kids' spouse' /\
  next_state par cons hours assets capital kids spouse t
  = next_state par cons hours assets capital kids' spouse' t.
Proof.
  intros Hth Hsd.
  assert (Hcc : forall k, childcare_cost par k = 0)
    by (intros k; unfold childcare_cost; rewrite Hth; ring).
  assert (Hsi : forall s u, spouse_income_func par s u = 0)
    by (intros s u; unfold spouse_income_func; rewrite Hsd; reflexivity).
  unfold cons_last, next_state.
  rewrite !Hcc, !Hsi. split; reflexivity.
Qed.

(** X5: [wage_func] indexes the wage vector as numpy does: it is defined
    exactly for [-len <= t < len] (it raises from [t = len] on), and a
    negative period silently reads from the end, [wage_func(capital, t - len)]
    being [wage_func(capital, t)]. *)
Theorem wage_func_period_index par capital t :
  let len := Z.of_nat (length par.(Par.w_vec)) in
  (is_Some (wage_func par capital t) <-> (- len <= t < len)%Z) /\
  ((0 <= t < len)%Z ->
   wage_func par capital (t - len) = wage_func par capital t).
Proof.
  intros len. unfold wage_func, np_get, np_index. fold len. split.
  - repeat case_bool_decide; simpl.
    + destruct (par.(Par.w_vec) !! Z.to_nat t) as [w_t |] eqn:Hw; simpl.
      * split; [lia | eauto].
      * apply lookup_ge_None in Hw. lia.
    + destruct (par.(Par.w_vec) !! Z.to_nat (len + t)) as [w_t |] eqn:Hw; simpl.
      * split; [lia | eauto].
      * apply lookup_ge_None in Hw. lia.
    + split; [intros [? [=]] | lia].
  - intros Ht.
    repeat case_bool_decide; try lia.
    replace (len + (t - len))%Z with t by lia. reflexivity.
Qed.

(** ** Earlier periods *)

Section ValueOfChoiceMore.

Variable interp_2d : list R -> list R -> slice -> R -> R -> R.

(** X6: [value_of_choice] cannot be evaluated in the last period: when
    [t + 1] is not below the number of periods of [sol.V], the lookup
    [sol.V[t+1, ...]] is out of range and the call fails, whatever the
    choice and the state. *)
Theorem value_of_choice_last_period par sol cons hours assets capital
    kids spouse t :
  (Z.of_nat (length sol.(Sol.V)) <= t + 1)%Z ->
  value_of_choice interp_2d par sol cons hours assets capital kids spouse t
  = None.
Proof.
  intros Ht. unfold value_of_choice.
  destruct (penalty_clamp cons hours) as [[penalty cons'] hours'].
  destruct (util par cons' hours' kids) as [u |]; [| reflexivity].
  simpl. unfold EV_next.
  destruct (next_state par cons' hours' assets capital kids spouse t)
    as [[a_next k_next] |]; [| reflexivity].
  simpl. unfold continuation, get3, np_get, np_index.
  repeat case_bool_decide; try lia. reflexivity.
Qed.

(** X7: when a spouse is certain next period ([p_spouse = 1], the
    baseline), the no-spouse value has weight zero: whenever both are
    defined, the expected continuation value of the code is the one of the
    specification's formula, and it is
    [p_birth * V(birth, spouse) + (1 - p_birth) * V(no_birth, spouse)]. *)
Theorem EV_next_certain_spouse par sol cons hours assets capital kids spouse t
    ev ev_spec :
  par.(Par.p_spouse) = 1 ->
  EV_next interp_2d par sol cons hours assets capital kids spouse t = Some ev ->
  EV_next_spec interp_2d par sol cons hours assets capital kids spouse t
  = Some ev_spec ->
  ev = ev_spec /\
  exists a_next k_next V_birth V_no_birth,
    next_state par cons hours assets capital kids spouse t
    = Some (a_next, k_next) /\
    V_at interp_2d par sol a_next k_next t
      (if (kids >=? par.(Par.Nn) - 1)%Z then kids else kids + 1)%Z 1
    = Some V_birth /\
    V_at interp_2d par sol a_next k_next t kids 1 = Some V_no_birth /\
    ev = par.(Par.p_birth) * V_birth + (1 - par.(Par.p_birth)) * V_no_birth.
Proof.
  intros Hp Hev Hspec. rewrite EV_next_eq in Hev. unfold EV_next_spec in Hspec.
  destruct (next_state par cons hours assets capital kids spouse t)
    as [[a_next k_next] |]; simpl in Hev, Hspec; [| discriminate].
  destruct (V_at interp_2d par sol a_next k_next t kids 1) as [v1 |] eqn:E1;
    simpl in Hev, Hspec; [| discriminate].
  destruct (V_at interp_2d par sol a_next k_next t
              (if (kids >=? par.(Par.Nn) - 1)%Z then kids else kids + 1)%Z 1)
    as [vb |] eqn:Eb; simpl in Hev, Hspec; [| discriminate].
  destruct (V_at interp_2d par sol a_next k_next t
              (if (kids >=? par.(Par.Nn) - 1)%Z then kids else kids + 1)%Z 0)
    as [v0 |]; simpl in Hev; [| discriminate].
  destruct (V_at interp_2d par sol a_next k_next t kids 0) as [v0' |];
    simpl in Hspec; [| discriminate].
  injection Hev as <-. injection Hspec as <-. rewrite Hp.
  split; [ring |].
  exists a_next, k_next, vb, v1.
  split; [reflexivity |]. split; [exact Eb |]. split; [exact E1 |]. ring.
Qed.

(** X8: the penalty of [value_of_choice] covers negative consumption
    only: at a consumption of exactly zero nothing is clamped, and with a
    negative CRRA exponent [1 + eta] (as in the baseline) [util] divides
    by zero, so neither [util] nor [value_of_choice] has a value there,
    whatever the hours and the state; the lower bound [lb_c] of the
    optimizer keeps away from it. *)
Theorem value_of_choice_zero_cons par sol hours assets capital kids spouse t :
  1.0 + par.(Par.eta) < 0 ->
  util par 0 hours kids = None /\
  value_of_choice interp_2d par sol 0 hours assets capital kids spouse t = None.
Proof.
  intros He. split; [apply util_zero_cons; exact He |].
  unfold value_of_choice.
  destruct (penalty_clamp 0 hours) as [[penalty cons'] hours'] eqn:Hpc.
  rewrite penalty_clamp_eq in Hpc.
  destruct (Rlt_dec 0 0); [lra |].
  injection Hpc as _ <- _.
  rewrite (util_zero_cons par hours' kids He). reflexivity.
Qed.

End ValueOfChoiceMore.

(** ** Simulation *)

Lemma range_head n : (0 < n)%Z -> exists l, range n = 0%Z :: l.
Proof.
  intros Hn. unfold range.
  destruct (Z.to_nat n) as [| m] eqn:Hm; [lia |].
  simpl. eauto.
Qed.

Section SimulateMore.

Variable interp_2d : list R -> list R -> slice -> R -> R -> R.

(** X9: after [simulate], in every period (the last one included) the
    spouse indicator of every individual is 1 when the spouse draw is at
    most [p_spouse] and 0 otherwise. *)
Theorem simulate_spouse_indicator par sol sim sim' :
  simulate interp_2d par sol sim = Some sim' ->
  forall i t, (0 <= i < par.(Par.simN))%Z -> (0 <= t < par.(Par.simT))%Z ->
  exists draw_s s_it,
    get2 sim.(Sim.draws_uniform_spouse) i t = Some draw_s /\
    get2 sim'.(Sim.s) i t = Some s_it /\
    (s_it = 1%Z /\ draw_s <= par.(Par.p_spouse)
     \/ s_it = 0%Z /\ par.(Par.p_spouse) < draw_s).
Proof.
  intros Hrun i t Hi Ht.
  destruct (simulate_spec _ _ _ _ _ Hrun) as ((_ & Hds & _) & Hall).
  destruct (Hall i Hi) as (_ & Hper).
  destruct (period_ok_spouse _ _ _ _ _ _ (Hper t Ht)) as (draw_s & Hd & Hs).
  rewrite Hds in Hd.
  eexists draw_s, _. split; [exact Hd |]. split; [exact Hs |].
  unfold Rleb. destruct (Rle_dec draw_s par.(Par.p_spouse)); [left | right];
    split; (reflexivity || lra).
Qed.

(** X10: after [simulate], the states of period 0 of every individual are
    the initial values supplied: later periods never overwrite them. *)
Theorem simulate_initial_states par sol sim sim' :
  simulate interp_2d par sol sim = Some sim' ->
  forall i, (0 <= i < par.(Par.simN))%Z ->
  exists a0 k0 n0,
    np_get sim.(Sim.a_init) i = Some a0 /\
    np_get sim.(Sim.k_init) i = Some k0 /\
    np_get sim.(Sim.n_init) i = Some n0 /\
    get2 sim'.(Sim.a) i 0 = Some a0 /\
    get2 sim'.(Sim.k) i 0 = Some k0 /\
    get2 sim'.(Sim.n) i 0 = Some n0.
Proof.
  intros Hrun i Hi.
  destruct (simulate_spec _ _ _ _ _ Hrun) as ((_ & _ & Ha & Hk & Hn) & Hall).
  destruct (Hall i Hi) as ((a0 & k0 & n0 & Ha0 & Hk0 & Hn0 & Hrs) & _).
  rewrite Ha in Ha0. rewrite Hk in Hk0. rewrite Hn in Hn0.
  apply read_state_inv in Hrs as (? & ? & ?).
  exists a0, k0, n0. auto 10.
Qed.

(** X11: after [simulate], consumption and hours of every individual and
    period are the policy arrays [sol.c] and [sol.h] of the period, of the
    individual's children count and of the spouse indicator, interpolated
    at the individual's assets and human capital. *)
Theorem simulate_policy par sol sim sim' :
  simulate interp_2d par sol sim = Some sim' ->
  forall i t, (0 <= i < par.(Par.simN))%Z -> (0 <= t < par.(Par.simT))%Z ->
  exists n_it s_it a_it k_it sol_c sol_h,
    get2 sim'.(Sim.n) i t = Some n_it /\
    get2 sim'.(Sim.s) i t = Some s_it /\
    get2 sim'.(Sim.a) i t = Some a_it /\
    get2 sim'.(Sim.k) i t = Some k_it /\
    get3 sol.(Sol.c) t n_it s_it = Some sol_c /\
    get3 sol.(Sol.h) t n_it s_it = Some sol_h /\
    get2 sim'.(Sim.c) i t
    = Some (interp_2d par.(Par.a_grid) par.(Par.k_grid) sol_c a_it k_it) /\
    get2 sim'.(Sim.h) i t
    = Some (interp_2d par.(Par.a_grid) par.(Par.k_grid) sol_h a_it k_it).
Proof.
  intros Hrun i t Hi Ht.
  destruct (simulate_spec _ _ _ _ _ Hrun) as (_ & Hall).
  destruct (Hall i Hi) as (_ & Hper).
  destruct (Hper t Ht)
    as (p & Hread & (draw_s & sol_c & sol_h & _ & _ & Hsc & Hsh & Hc & Hh) & _).
  apply read_period_inv in Hread as (Hn & Hs & Ha & Hk & Hc' & Hh').
  exists p.(p_n), p.(p_s), p.(p_a), p.(p_k), sol_c, sol_h.
  rewrite <- Hc, <- Hh. auto 10.
Qed.

(** X12: with the arrays allocated for [simN] individuals and
    [simT >= 1] periods, policy slices for every period, children level
    and spouse state, wages for every period with a successor and initial
    children counts among the children levels, [simulate] returns (no
    index is out of range), and it leaves the draws and the initial values
    as they were. *)
Theorem simulate_returns par sol sim :
  sim_allocated par sim -> sol_allocated par sol ->
  (0 < par.(Par.simT))%Z ->
  exists sim',
    simulate interp_2d par sol sim = Some sim' /\
    sim'.(Sim.draws_uniform) = sim.(Sim.draws_uniform) /\
    sim'.(Sim.draws_uniform_spouse) = sim.(Sim.draws_uniform_spouse) /\
    sim'.(Sim.a_init) = sim.(Sim.a_init) /\
    sim'.(Sim.k_init) = sim.(Sim.k_init) /\
    sim'.(Sim.n_init) = sim.(Sim.n_init).
Proof.
  intros Hal Hsol HT.
  destruct (simulate_total interp_2d par sol sim Hal Hsol HT) as [sim' Hrun].
  exists sim'. split; [exact Hrun |].
  destruct (simulate_spec _ _ _ _ _ Hrun) as (Hin & _). exact Hin.
Qed.

(** X13: an initial children count that is not an index of the children
    axis of the policy array makes [simulate] fail at the first lookup of
    the policy (with at least one individual and one period). *)
Theorem simulate_children_out_of_range par sol sim n0 :
  (0 < par.(Par.simN))%Z -> (0 < par.(Par.simT))%Z ->
  np_get sim.(Sim.n_init) 0 = Some n0 ->
  (forall sol_0, np_get sol.(Sol.c) 0 = Some sol_0 -> np_get sol_0 n0 = None) ->
  simulate interp_2d par sol sim = None.
Proof.
  intros HN HT Hn0 Hout.
  assert (Hget3 : forall s, get3 sol.(Sol.c) 0 n0 s = None).
  { intros s. unfold get3.
    destruct (np_get sol.(Sol.c) 0) as [sol_0 |] eqn:H0; simpl; [| reflexivity].
    rewrite (Hout sol_0 eq_refl). reflexivity. }
  unfold simulate.
  destruct (range_head _ HN) as [l ->]. simpl.
  assert (simulate_individual interp_2d par sol sim 0 = None) as ->;
    [| reflexivity].
  unfold simulate_individual. rewrite Hn0. simpl.
  destruct (set2 sim.(Sim.n) 0 0 n0) as [n' |] eqn:En; simpl; [| reflexivity].
  destruct (np_get sim.(Sim.a_init) 0) as [a0 |]; simpl; [| reflexivity].
  destruct (set2 sim.(Sim.a) 0 0 a0) as [a' |]; simpl; [| reflexivity].
  destruct (np_get sim.(Sim.k_init) 0) as [k0 |]; simpl; [| reflexivity].
  destruct (set2 sim.(Sim.k) 0 0 k0) as [k' |]; simpl; [| reflexivity].
  destruct (range_head _ HT) as [l' ->]. simpl.
  match goal with |- (?m ≫= _) = None => assert (m = None) as -> end;
    [| reflexivity].
  unfold simulate_period. simpl.
  destruct (get2 sim.(Sim.draws_uniform_spouse) 0 0) as [draw_s |]; simpl;
    [| reflexivity].
  match goal with |- context [set2 (Sim.s sim) 0 0 ?v] =>
    destruct (set2 (Sim.s sim) 0 0 v) as [s' |] eqn:Es end; simpl;
    [| reflexivity].
  rewrite (get2_set2_eq _ _ _ _ _ (Z.le_refl 0) (Z.le_refl 0) En). simpl.
  rewrite (get2_set2_eq _ _ _ _ _ (Z.le_refl 0) (Z.le_refl 0) Es). simpl.
  rewrite Hget3. reflexivity.
Qed.

(** X14: the simulation of one individual leaves every cell of the other
    individuals as it was, in all six arrays: individuals do not interact. *)
Theorem simulate_individual_frame par sol sim i sim' :
  (0 <= i)%Z ->
  simulate_individual interp_2d par sol sim i = Some sim' ->
  forall j t, (0 <= j)%Z -> (0 <= t)%Z -> j <> i ->
    get2 sim'.(Sim.c) j t = get2 sim.(Sim.c) j t /\
    get2 sim'.(Sim.h) j t = get2 sim.(Sim.h) j t /\
    get2 sim'.(Sim.s) j t = get2 sim.(Sim.s) j t /\
    get2 sim'.(Sim.a) j t = get2 sim.(Sim.a) j t /\
    get2 sim'.(Sim.k) j t = get2 sim.(Sim.k) j t /\
    get2 sim'.(Sim.n) j t = get2 sim.(Sim.n) j t.
Proof.
  intros Hi Hrun j t Hj Ht Hne.
  destruct (simulate_individual_spec _ _ _ _ _ _ Hi Hrun)
    as (_ & Hch & Hst & _).
  destruct (Hch j t Hj Ht Hne) as (? & ? & ?).
  destruct (Hst j t Hj Ht Hne) as (? & ? & ?).
  auto 10.
Qed.

(** X15: without a spouse no child is born: when every spouse draw is
    above [p_spouse], the spouse indicator is 0 and the children count
    stays at its initial value in every period, whatever [p_birth] and the
    birth draws. *)
Theorem simulate_no_spouse_no_birth par sol sim sim' :
  (forall i t draw_s,
      get2 sim.(Sim.draws_uniform_spouse) i t = Some draw_s ->
      par.(Par.p_spouse) < draw_s) ->
  simulate interp_2d par sol sim = Some sim' ->
  forall i t, (0 <= i < par.(Par.simN))%Z -> (0 <= t < par.(Par.simT))%Z ->
    get2 sim'.(Sim.s) i t = Some 0%Z /\
    exists n0,
      np_get sim.(Sim.n_init) i = Some n0 /\
      get2 sim'.(Sim.n) i t = Some n0.
Proof.
  intros Hdraws Hrun i t Hi Ht.
  assert (Hs0 : forall u, (0 <= u < par.(Par.simT))%Z ->
    get2 sim'.(Sim.s) i u = Some 0%Z).
  { intros u Hu.
    destruct (simulate_spec _ _ _ _ _ Hrun) as ((_ & Hds & _) & Hall).
    destruct (Hall i Hi) as (_ & Hper).
    destruct (period_ok_spouse _ _ _ _ _ _ (Hper u Hu)) as (draw_s & Hd & Hs).
    rewrite Hds in Hd. specialize (Hdraws _ _ _ Hd).
    rewrite Rleb_false in Hs by exact Hdraws. exact Hs. }
  split; [apply Hs0; exact Ht |].
  destruct (simulate_spec _ _ _ _ _ Hrun) as ((_ & _ & _ & _ & Hni) & Hall).
  destruct (Hall i Hi) as ((a0 & k0 & n0 & _ & _ & Hn0 & _) & _).
  rewrite Hni in Hn0.
  exists n0. split; [exact Hn0 |].
  destruct (simulate_children_induction interp_2d par sol sim sim' i n0
              (fun n => n = n0) Hrun Hi Hn0 eq_refl) with (t := t)
    as (n_it & Hn_it & ->); [| exact Ht | exact Hn_it].
  intros u n_u s_u draw_b Hu _ Hs_u ->.
  rewrite (Hs0 u ltac:(lia)) in Hs_u. injection Hs_u as <-.
  destruct (birth_of_cases par draw_b n0 0%Z)
    as [(_ & _ & _ & Habs) | (-> & _)]; [discriminate | lia].
Qed.

End SimulateMore.

(** ** Solution: the order of the cells *)

Lemma bind_lookup_take {A B} (f : A -> list B) (l : list A) j y :
  (l ≫= f) !! j = Some y ->
  exists k x j',
    l !! k = Some x /\ f x !! j' = Some y /\
    take j (l ≫= f) = (take k l ≫= f) ++ take j' (f x).
Proof.
  revert j. induction l as [| a l IH]; intros j Hj.
  - csimpl in Hj. rewrite lookup_nil in Hj. discriminate.
  - rewrite bind_cons in Hj |- *.
    apply lookup_app_Some in Hj as [Hj | [Hge Hj]].
    + exists 0%nat, a, j. split; [reflexivity |]. split; [exact Hj |].
      simpl. apply take_app_le.
      apply lookup_lt_Some in Hj. lia.
    + destruct (IH _ Hj) as (k & x & j' & Hk & Hx & Htake).
      exists (S k), x, j'. split; [exact Hk |]. split; [exact Hx |].
      rewrite take_app, take_ge by lia.
      rewrite Htake. csimpl. rewrite <- app_assoc. reflexivity.
Qed.

(** One level of a loop nest: the iterations before iteration [j] are
    those of the outer elements before the current one, and the earlier
    iterations of the current outer element.  The outer elements are
    identified by a key. *)
Lemma bind_take_elem {A B} (f : A -> list B) (l : list A)
    (ka : A -> Z) (kb : B -> Z) (lt : Z -> Z -> Prop) j y :
  (forall x y, y ∈ f x -> kb y = ka x) ->
  (forall k1 k2 x1 x2, l !! k1 = Some x1 -> l !! k2 = Some x2 ->
     (k1 < k2)%nat <-> lt (ka x1) (ka x2)) ->
  (l ≫= f) !! j = Some y ->
  exists x j',
    x ∈ l /\ f x !! j' = Some y /\
    forall y',
      y' ∈ take j (l ≫= f)
      <-> (y' ∈ l ≫= f /\ lt (kb y') (kb y)) \/ y' ∈ take j' (f x).
Proof.
  intros Hkey Hlt Hj.
  destruct (bind_lookup_take f l j y Hj) as (k & x & j' & Hk & Hx & Htake).
  assert (Hy : kb y = ka x)
    by (apply Hkey; eapply list_elem_of_lookup_2; exact Hx).
  exists x, j'. split; [eapply list_elem_of_lookup_2; exact Hk |].
  split; [exact Hx |].
  intros y'. rewrite Htake, elem_of_app. rewrite Hy.
  split; (intros [H | H]; [left | right; exact H]).
  - apply list_elem_of_bind in H as (x' & Hy' & Hx').
    apply elem_of_take in Hx' as (k' & Hk' & Hlt').
    split.
    + apply list_elem_of_bind. exists x'. split; [exact Hy' |].
      eapply list_elem_of_lookup_2; exact Hk'.
    + rewrite (Hkey _ _ Hy'). apply (Hlt k' k x' x Hk' Hk). exact Hlt'.
  - destruct H as (Hin & Hlt').
    apply list_elem_of_bind in Hin as (x' & Hy' & Hx').
    apply list_elem_of_lookup_1 in Hx' as (k' & Hk').
    rewrite (Hkey _ _ Hy') in Hlt'.
    apply list_elem_of_bind. exists x'. split; [exact Hy' |].
    apply elem_of_take. exists k'. split; [exact Hk' |].
    apply (Hlt k' k x' x Hk' Hk). exact Hlt'.
Qed.

Lemma enumerate_lookup_from {A} (l : list A) (s k : nat) i x :
  combine (map Z.of_nat (seq s (length l))) l !! k = Some (i, x)
  <-> i = Z.of_nat (s + k) /\ l !! k = Some x.
Proof.
  revert s k. induction l as [| a l IH]; intros s k; simpl.
  - rewrite lookup_nil. split; [discriminate | intros [_ [=]]].
  - destruct k as [| k]; simpl.
    + replace (s + 0)%nat with s by lia.
      split; [intros [= <- <-]; auto | intros [-> [= <-]]; reflexivity].
    + rewrite (IH (S s) k). replace (S s + k)%nat with (s + S k)%nat by lia.
      reflexivity.
Qed.

Lemma enumerate_lookup {A} (l : list A) k i x :
  enumerate l !! k = Some (i, x) <-> i = Z.of_nat k /\ l !! k = Some x.
Proof. unfold enumerate. apply enumerate_lookup_from. Qed.

Lemma enumerate_elem {A} (l : list A) i x :
  (i, x) ∈ enumerate l <-> (0 <= i)%Z /\ l !! Z.to_nat i = Some x.
Proof.
  rewrite list_elem_of_lookup. split.
  - intros (k & Hk). apply enumerate_lookup in Hk as [-> Hx].
    rewrite Nat2Z.id. split; [lia | exact Hx].
  - intros [Hi Hx]. exists (Z.to_nat i). apply enumerate_lookup.
    split; [lia | exact Hx].
Qed.

Lemma enumerate_order {A} (l : list A) k1 k2 (x1 x2 : Z * A) :
  enumerate l !! k1 = Some x1 -> enumerate l !! k2 = Some x2 ->
  (k1 < k2)%nat <-> (x1.1 < x2.1)%Z.
Proof.
  destruct x1 as [i1 v1], x2 as [i2 v2]. intros H1 H2.
  apply enumerate_lookup in H1 as [-> _].
  apply enumerate_lookup in H2 as [-> _]. simpl. lia.
Qed.

Lemma reverse_range_lookup n k x :
  reverse (range n) !! k = Some x <->
  x = (n - 1 - Z.of_nat k)%Z /\ (0 <= x)%Z.
Proof.
  rewrite reverse_lookup_Some, range_length. unfold range.
  rewrite list_lookup_fmap. split.
  - intros [H Hk].
    destruct (seq 0 (Z.to_nat n) !! (Z.to_nat n - S k)%nat) as [m |] eqn:Hm;
      simpl in H; [| discriminate].
    injection H as <-. apply lookup_seq in Hm as [-> _]. lia.
  - intros [-> Hx]. split; [| lia].
    rewrite lookup_seq_lt by lia. simpl. f_equal. lia.
Qed.

Lemma reverse_range_elem n x :
  x ∈ reverse (range n) <-> (0 <= x < n)%Z.
Proof.
  rewrite list_elem_of_lookup. split.
  - intros (k & Hk). apply reverse_range_lookup in Hk. lia.
  - intros Hx. exists (Z.to_nat (n - 1 - x)). apply reverse_range_lookup. lia.
Qed.

Lemma reverse_range_order n k1 k2 x1 x2 :
  reverse (range n) !! k1 = Some x1 -> reverse (range n) !! k2 = Some x2 ->
  (k1 < k2)%nat <-> (x2 < x1)%Z.
Proof.
  intros H1 H2.
  apply reverse_range_lookup in H1. apply reverse_range_lookup in H2. lia.
Qed.

(** Membership in the nested list comprehension of [cells]. *)
Ltac cells_elem :=
  repeat match goal with
    | H : _ ∈ _ ≫= _ |- _ =>
        let x := fresh "x" in
        let Hx := fresh "Hx" in
        apply list_elem_of_bind in H as (x & H & Hx);
        try (destruct x as [? ?]); cbv beta iota in H
    | H : _ ∈ [_] |- _ => apply list_elem_of_singleton in H
    end.

Lemma elem_of_cells par c :
  c ∈ cells par <->
  (0 <= c.(cell_t) < par.(Par.T))%Z /\
  (c.(cell_i_n), c.(cell_kids)) ∈ enumerate par.(Par.n_grid) /\
  (c.(cell_i_a), c.(cell_assets)) ∈ enumerate par.(Par.a_grid) /\
  (c.(cell_i_k), c.(cell_capital)) ∈ enumerate par.(Par.k_grid) /\
  (c.(cell_i_s), c.(cell_spouse)) ∈ enumerate par.(Par.spouse_grid).
Proof.
  unfold cells. split.
  - intros H. cells_elem. subst c. simpl.
    apply reverse_range_elem in Hx. auto.
  - intros (Ht & Hn & Ha & Hk & Hs).
    apply list_elem_of_bind. exists c.(cell_t).
    split; [| apply reverse_range_elem; exact Ht].
    apply list_elem_of_bind. exists (c.(cell_i_n), c.(cell_kids)).
    split; [| exact Hn].
    apply list_elem_of_bind. exists (c.(cell_i_a), c.(cell_assets)).
    split; [| exact Ha].
    apply list_elem_of_bind. exists (c.(cell_i_k), c.(cell_capital)).
    split; [| exact Hk].
    apply list_elem_of_bind. exists (c.(cell_i_s), c.(cell_spouse)).
    split; [| exact Hs].
    destruct c. simpl. apply list_elem_of_singleton. reflexivity.
Qed.

(** The iterations before a cell come before it in the order of the loop
    nest, and the cell of the previous asset index is among them. *)
Lemma cells_levels par j c :
  cells par !! j = Some c ->
  (forall c', c' ∈ take j (cells par) -> cell_before c' c) /\
  (forall assets',
      (c.(cell_i_a) - 1, assets')%Z ∈ enumerate par.(Par.a_grid) ->
      mkCell c.(cell_t) c.(cell_i_n) c.(cell_kids) (c.(cell_i_a) - 1) assets'
        c.(cell_i_k) c.(cell_capital) c.(cell_i_s) c.(cell_spouse)
      ∈ take j (cells par)).
Proof.
  intros Hj.
  unfold cells in Hj |- *.
  match type of Hj with
  | (?l ≫= ?f) !! ?j = Some ?c =>
      destruct (bind_take_elem f l (fun t : Z => t) cell_t
                  (fun a b => (b < a)%Z) j c) as (t & j1 & Ht & Hj1 & Hlev1);
      [ | | exact Hj | ]
  end.
  { intros x y H. cells_elem. subst y. reflexivity. }
  { intros k1 k2 x1 x2. apply reverse_range_order. }
  cbv beta in Hj1.
  match type of Hj1 with
  | (?l ≫= ?f) !! ?j = Some ?c =>
      destruct (bind_take_elem f l fst cell_i_n Z.lt j c)
        as ([i_n kids] & j2 & Hn & Hj2 & Hlev2);
      [ | | exact Hj1 | ]
  end.
  { intros [? ?] y H. cells_elem. subst y. reflexivity. }
  { intros k1 k2 x1 x2. apply enumerate_order. }
  cbv beta iota in Hj2.
  match type of Hj2 with
  | (?l ≫= ?f) !! ?j = Some ?c =>
      destruct (bind_take_elem f l fst cell_i_a Z.lt j c)
        as ([i_a assets] & j3 & Ha & Hj3 & Hlev3);
      [ | | exact Hj2 | ]
  end.
  { intros [? ?] y H. cells_elem. subst y. reflexivity. }
  { intros k1 k2 x1 x2. apply enumerate_order. }
  cbv beta iota in Hj3.
  match type of Hj3 with
  | (?l ≫= ?f) !! ?j = Some ?c =>
      destruct (bind_take_elem f l fst cell_i_k Z.lt j c)
        as ([i_k capital] & j4 & Hk & Hj4 & Hlev4);
      [ | | exact Hj3 | ]
  end.
  { intros [? ?] y H. cells_elem. subst y. reflexivity. }
  { intros k1 k2 x1 x2. apply enumerate_order. }
  cbv beta iota in Hj4.
  match type of Hj4 with
  | (?l ≫= ?f) !! ?j = Some ?c =>
      destruct (bind_take_elem f l fst cell_i_s Z.lt j c)
        as ([i_s spouse] & j5 & Hs & Hj5 & Hlev5);
      [ | | exact Hj4 | ]
  end.
  { intros [? ?] y H. cells_elem. subst y. reflexivity. }
  { intros k1 k2 x1 x2. apply enumerate_order. }
  cbv beta iota in Hj5.
  apply list_lookup_singleton_Some in Hj5 as [-> <-]. simpl in *.
  split.
  - intros c' H. unfold cell_before. simpl.
    apply Hlev1 in H as [[_ H] | H]; [left; exact H | right].
    pose proof H as H'. apply elem_of_take in H' as (? & H' & _).
    apply list_elem_of_lookup_2 in H'. cells_elem. subst c'. simpl in *.
    split; [reflexivity |]. clear Hx Hx0 Hx1 Hx2.
    apply Hlev2 in H as [[_ H] | H]; [left; exact H | right].
    pose proof H as H'. apply elem_of_take in H' as (? & H' & _).
    apply list_elem_of_lookup_2 in H'. cells_elem.
    injection H' as -> -> -> -> -> -> -> ->. simpl in *.
    split; [reflexivity |]. clear Hx Hx0 Hx1.
    apply Hlev3 in H as [[_ H] | H]; [left; exact H | right].
    pose proof H as H'. apply elem_of_take in H' as (? & H' & _).
    apply list_elem_of_lookup_2 in H'. cells_elem.
    injection H' as -> -> -> -> -> ->. simpl in *.
    split; [reflexivity |]. clear Hx Hx0.
    apply Hlev4 in H as [[_ H] | H]; [left; exact H | right].
    pose proof H as H'. apply elem_of_take in H' as (? & H' & _).
    apply list_elem_of_lookup_2 in H'. cells_elem.
    injection H' as -> -> -> ->. simpl in *.
    split; [reflexivity |]. clear Hx.
    apply Hlev5 in H as [[_ H] | H]; [exact H |].
    simpl in H. apply elem_of_nil in H. contradiction.
  - intros assets' Ha'.
    apply Hlev1. right. apply Hlev2. right. apply Hlev3. left.
    simpl. split; [| lia].
    apply list_elem_of_bind. exists (i_a - 1, assets')%Z. split; [| exact Ha'].
    apply list_elem_of_bind. exists (i_k, capital). split; [| exact Hk].
    apply list_elem_of_bind. exists (i_s, spouse). split; [| exact Hs].
    apply list_elem_of_singleton. reflexivity.
Qed.

(** ** Solution: the cells of the solution arrays *)

Lemma np_get_set {A} (l l' : list A) i j v :
  (0 <= i)%Z -> (0 <= j)%Z -> np_set l i v = Some l' ->
  np_get l' j = if decide (j = i) then Some v else np_get l j.
Proof.
  intros Hi Hj Hset.
  apply (np_set_nonneg _ _ _ _ Hi) in Hset as [Hlt ->].
  rewrite !(np_get_nonneg _ _ Hj).
  destruct (decide (j = i)) as [-> | Hne].
  - apply list_lookup_insert_eq. exact Hlt.
  - apply list_lookup_insert_ne. lia.
Qed.

Lemma get5_set5_eq a t i_n i_s i_a i_k v a' :
  (0 <= t)%Z -> (0 <= i_n)%Z -> (0 <= i_s)%Z -> (0 <= i_a)%Z -> (0 <= i_k)%Z ->
  set5 a t i_n i_s i_a i_k v = Some a' ->
  get5 a' t i_n i_s i_a i_k = Some v.
Proof.
  intros Ht Hn Hs Ha Hk Hset. unfold set5 in Hset. bind_inv Hset.
  unfold get5, get3.
  rewrite (np_get_set _ _ t t _ Ht Ht Hset), decide_True by reflexivity. simpl.
  rewrite (np_get_set _ _ i_n i_n _ Hn Hn E4), decide_True by reflexivity. simpl.
  rewrite (np_get_set _ _ i_s i_s _ Hs Hs E3), decide_True by reflexivity. simpl.
  apply (get2_set2_eq _ _ _ _ _ Ha Hk E2).
Qed.

Lemma get5_set5_ne a t i_n i_s i_a i_k v a' t' i_n' i_s' i_a' i_k' :
  (0 <= t)%Z -> (0 <= i_n)%Z -> (0 <= i_s)%Z -> (0 <= i_a)%Z -> (0 <= i_k)%Z ->
  (0 <= t')%Z -> (0 <= i_n')%Z -> (0 <= i_s')%Z -> (0 <= i_a')%Z ->
  (0 <= i_k')%Z ->
  set5 a t i_n i_s i_a i_k v = Some a' ->
  (t', i_n', i_s', i_a', i_k') <> (t, i_n, i_s, i_a, i_k) ->
  get5 a' t' i_n' i_s' i_a' i_k' = get5 a t' i_n' i_s' i_a' i_k'.
Proof.
  intros Ht Hn Hs Ha Hk Ht' Hn' Hs' Ha' Hk' Hset Hne.
  unfold set5 in Hset. bind_inv Hset.
  unfold get5, get3.
  rewrite (np_get_set _ _ t t' _ Ht Ht' Hset).
  destruct (decide (t' = t)) as [-> | ?]; [| reflexivity].
  rewrite E. simpl.
  rewrite (np_get_set _ _ i_n i_n' _ Hn Hn' E4).
  destruct (decide (i_n' = i_n)) as [-> | ?]; [| reflexivity].
  rewrite E0. simpl.
  rewrite (np_get_set _ _ i_s i_s' _ Hs Hs' E3).
  destruct (decide (i_s' = i_s)) as [-> | ?]; [| reflexivity].
  rewrite E1. simpl.
  apply (get2_set2_ne _ _ _ _ _ _ _ Ha Hk Ha' Hk' E2).
  destruct (decide (i_a' = i_a)) as [-> | ?]; [| left; assumption].
  destruct (decide (i_k' = i_k)) as [-> | ?]; [| right; assumption].
  contradiction Hne. reflexivity.
Qed.

Lemma cell_idx_nonneg par c :
  c ∈ cells par ->
  (0 <= c.(cell_t))%Z /\ (0 <= c.(cell_i_n))%Z /\ (0 <= c.(cell_i_s))%Z /\
  (0 <= c.(cell_i_a))%Z /\ (0 <= c.(cell_i_k))%Z.
Proof.
  intros H. apply elem_of_cells in H as (Ht & Hn & Ha & Hk & Hs).
  apply enumerate_elem in Hn, Ha, Hk, Hs. lia.
Qed.

Lemma cell_before_idx c' c : cell_before c' c -> cell_idx c' <> cell_idx c.
Proof.
  unfold cell_before, cell_idx. intros H [= Ht Hn Hs Ha Hk]. lia.
Qed.

Lemma cons_last_ge par hours assets capital kids spouse c :
  cons_last par hours assets capital kids spouse = Some c -> 1e-8 <= c.
Proof.
  unfold cons_last. intros H. bind_inv H. injection H as <-.
  apply py_max_ge_r.
Qed.

(** [hours_min] when it is a number: the quotient floored at 2 for a
    wage that is not zero, the floor itself for a quotient that is minus
    infinity. *)
Lemma hours_min_finite assets w_t w_neg h0 :
  np_maximum (np_add (np_true_divide (- assets) w_t w_neg) 1.0e-5) 2.0
  = Fin h0 ->
  (w_t <> 0 -> h0 = Rmax (- assets / w_t + 1.0e-5) 2.0) /\
  (w_t = 0 -> assets <> 0 -> xorb (signbit (- assets)) w_neg = true ->
   h0 = 2.0) /\
  2 <= h0.
Proof.
  intros Hmax. split; [| split].
  - intros Hw. rewrite (np_true_divide_Fin _ _ _ Hw) in Hmax.
    simpl in Hmax. injection Hmax as <-. reflexivity.
  - intros Hw Ha Hx.
    rewrite np_true_divide_NInf in Hmax by (try assumption; lra).
    simpl in Hmax. injection Hmax as <-. reflexivity.
  - destruct (np_true_divide (- assets) w_t w_neg) as [q | | |];
      simpl in Hmax; try discriminate; injection Hmax as <-.
    + pose proof (Rmax_r (q + 1.0e-5) 2.0). lra.
    + lra.
Qed.

Section SolveMore.

Variable interp_2d : list R -> list R -> slice -> R -> R -> R.
Variable minimize_trust_constr :
  (list R -> option R) -> list R -> list bound ->
  (list R -> option R) * bound -> option Res.t.
Variable minimize_lbfgsb :
  (list R -> option R) -> list R -> list bound -> option Res.t.

(** One iteration stores the result of its call at the index of its cell
    and leaves the other cells of the solution arrays as they were; in the
    last period its initial guess is [hours_min] or the hours stored for
    the previous asset index. *)
Lemma solve_cell_stores par st cell st' :
  solve_cell interp_2d minimize_trust_constr minimize_lbfgsb par st cell
  = Some st' ->
  (0 <= cell.(cell_t))%Z -> (0 <= cell.(cell_i_n))%Z ->
  (0 <= cell.(cell_i_s))%Z -> (0 <= cell.(cell_i_a))%Z ->
  (0 <= cell.(cell_i_k))%Z ->
  exists init res,
    st'.(st_calls) = st.(st_calls) ++ [mkCall cell init res] /\
    stored par st'.(st_sol) (mkCall cell init res) /\
    sol_same_except (cell_idx cell) st.(st_sol) st'.(st_sol) /\
    (cell.(cell_t) = (par.(Par.T) - 1)%Z ->
     if (cell.(cell_i_a) =? 0)%Z then
       exists w_t w_neg h0,
         wage_func par cell.(cell_capital) cell.(cell_t) = Some w_t /\
         wage_func_signbit par cell.(cell_capital) cell.(cell_t)
         = Some w_neg /\
         np_maximum
           (np_add (np_true_divide (- cell.(cell_assets)) w_t w_neg) 1.0e-5)
           2.0 = Fin h0 /\
         init = [h0]
     else
       exists h_prev,
         get5 st.(st_sol).(Sol.h) cell.(cell_t) cell.(cell_i_n)
           cell.(cell_i_s) (cell.(cell_i_a) - 1) cell.(cell_i_k)
         = Some h_prev /\
         init = [h_prev]).
Proof.
  intros Hrun Ht Hn Hs Ha Hk. unfold solve_cell in Hrun.
  assert (Hframe : forall sol_c sol_h sol_V x y z,
    set5 st.(st_sol).(Sol.c) cell.(cell_t) cell.(cell_i_n) cell.(cell_i_s)
      cell.(cell_i_a) cell.(cell_i_k) x = Some sol_c ->
    set5 st.(st_sol).(Sol.h) cell.(cell_t) cell.(cell_i_n) cell.(cell_i_s)
      cell.(cell_i_a) cell.(cell_i_k) y = Some sol_h ->
    set5 st.(st_sol).(Sol.V) cell.(cell_t) cell.(cell_i_n) cell.(cell_i_s)
      cell.(cell_i_a) cell.(cell_i_k) z = Some sol_V ->
    sol_same_except (cell_idx cell) st.(st_sol) (Sol.mk sol_c sol_h sol_V)).
  { intros sol_c sol_h sol_V x y z Hc Hh HV t i_n i_s i_a i_k ? ? ? ? ? Hne.
    unfold get_idx. simpl.
    rewrite (get5_set5_ne _ _ _ _ _ _ _ _ t i_n i_s i_a i_k Ht Hn Hs Ha Hk
               ltac:(assumption) ltac:(assumption) ltac:(assumption)
               ltac:(assumption) ltac:(assumption) Hc Hne).
    rewrite (get5_set5_ne _ _ _ _ _ _ _ _ t i_n i_s i_a i_k Ht Hn Hs Ha Hk
               ltac:(assumption) ltac:(assumption) ltac:(assumption)
               ltac:(assumption) ltac:(assumption) Hh Hne).
    rewrite (get5_set5_ne _ _ _ _ _ _ _ _ t i_n i_s i_a i_k Ht Hn Hs Ha Hk
               ltac:(assumption) ltac:(assumption) ltac:(assumption)
               ltac:(assumption) ltac:(assumption) HV Hne).
    auto. }
  destruct (cell_t cell =? Par.T par - 1)%Z eqn:Hlast.
  - destruct (wage_func par (cell_capital cell) (cell_t cell)) as [w_t |] eqn:Hw;
      simpl in Hrun; [| discriminate].
    destruct (wage_func_signbit par (cell_capital cell) (cell_t cell))
      as [w_neg |] eqn:Hs'; simpl in Hrun; [| discriminate].
    match type of Hrun with
    | (?m ≫= _) = Some _ => destruct m as [init_h |] eqn:Hinit
    end; simpl in Hrun; [| discriminate].
    bind_inv Hrun. injection Hrun as <-.
    cbn [st_calls st_sol].
    eexists _, _. split; [reflexivity |].
    split; [| split].
    + unfold stored.
      cbn [call_cell call_res st_sol Sol.c Sol.h Sol.V].
      rewrite Hlast. unfold get_idx, cell_idx.
      split; [eapply get5_set5_eq; eassumption |].
      eexists _, _. split; [eassumption |]. split; [eassumption |].
      split; eapply get5_set5_eq; eassumption.
    + eapply Hframe; eassumption.
    + intros _. destruct (cell_i_a cell =? 0)%Z.
      * destruct (np_maximum _ 2.0) as [h0 | | |] eqn:Hmax;
          simpl in Hinit; try discriminate.
        injection Hinit as <-. exists w_t, w_neg, h0. auto.
      * destruct (get5 _ _ _ _ _ _) as [h_prev |]; simpl in Hinit;
          [| discriminate].
        injection Hinit as <-. eauto.
  - match type of Hrun with
    | (?m ≫= _) = Some _ => destruct m as [init |] eqn:Hinit
    end; simpl in Hrun; [| discriminate].
    bind_inv Hrun. injection Hrun as <-.
    cbn [st_calls st_sol].
    eexists _, _. split; [reflexivity |].
    split; [| split].
    + unfold stored.
      cbn [call_cell call_res st_sol Sol.c Sol.h Sol.V].
      rewrite Hlast. unfold get_idx, cell_idx.
      split; [eapply get5_set5_eq; eassumption |].
      eexists _, _. split; [eassumption |]. split; [eassumption |].
      split; eapply get5_set5_eq; eassumption.
    + eapply Hframe; eassumption.
    + intros Habs. lia.
Qed.

(** [stored] reads the solution arrays at the index of the call only. *)
Lemma stored_same par sol sol' call :
  (0 <= call.(call_cell).(cell_t))%Z ->
  (0 <= call.(call_cell).(cell_i_n))%Z ->
  (0 <= call.(call_cell).(cell_i_s))%Z ->
  (0 <= call.(call_cell).(cell_i_a))%Z ->
  (0 <= call.(call_cell).(cell_i_k))%Z ->
  (forall idx, cell_idx call.(call_cell) <> idx ->
     sol_same_except idx sol sol' ->
     stored par sol call -> stored par sol' call).
Proof.
  intros Ht Hn Hs Ha Hk idx Hne Hsame (HV & Hrest).
  destruct (Hsame _ _ _ _ _ Ht Hn Hs Ha Hk Hne) as (Hc' & Hh' & HV').
  fold (cell_idx call.(call_cell)) in Hc', Hh', HV'.
  unfold stored. rewrite Hc', Hh', HV'. split; [exact HV | exact Hrest].
Qed.

(** The invariant of the run of [solve]: the calls so far are those of
    the cells visited, everything stored for them is still in the solution
    arrays, and the initial guesses of the last period are as
    [last_period_guess] says. *)
Lemma solve_run_stored par sol st :
  solve_run interp_2d minimize_trust_constr minimize_lbfgsb par sol
  = Some st ->
  map call_cell st.(st_calls) = cells par /\
  (forall k call, st.(st_calls) !! k = Some call ->
     stored par st.(st_sol) call) /\
  (forall k call, st.(st_calls) !! k = Some call ->
     call.(call_cell).(cell_t) = (par.(Par.T) - 1)%Z ->
     last_period_guess par st.(st_calls) k call).
Proof.
  unfold solve_run. intros Hrun.
  pose (Inv := fun (j : nat) (s : SolveState) =>
    map call_cell s.(st_calls) = take j (cells par) /\
    (forall k call, s.(st_calls) !! k = Some call ->
       stored par s.(st_sol) call) /\
    (forall k call, s.(st_calls) !! k = Some call ->
       call.(call_cell).(cell_t) = (par.(Par.T) - 1)%Z ->
       last_period_guess par s.(st_calls) k call)).
  assert (Hend : Inv (length (cells par)) st).
  { apply (for_each_invariant _ Inv _ _ _ Hrun).
    - unfold Inv. simpl. split; [reflexivity |].
      split; intros k call Hk; rewrite lookup_nil in Hk; discriminate.
    - intros j cell st1 st2 Hcell (Hcells & Hstored & Hguess) Hbody.
      assert (Hin : cell ∈ cells par)
        by (eapply list_elem_of_lookup_2; exact Hcell).
      destruct (cell_idx_nonneg _ _ Hin) as (Ht & Hn & Hs & Ha & Hk).
      destruct (solve_cell_stores _ _ _ _ Hbody Ht Hn Hs Ha Hk)
        as (init & res & Hc2 & Hnew & Hframe & Hinit).
      destruct (cells_levels _ _ _ Hcell) as (Hbefore & Hprev).
      assert (Hearlier : forall k call,
        st1.(st_calls) !! k = Some call ->
        call.(call_cell) ∈ take j (cells par)).
      { intros k call Hk'. rewrite <- Hcells.
        apply list_elem_of_fmap. exists call. split; [reflexivity |].
        eapply list_elem_of_lookup_2; exact Hk'. }
      assert (Hlen : length st1.(st_calls) = j).
      { rewrite <- (length_map call_cell), Hcells, length_take.
        apply lookup_lt_Some in Hcell. lia. }
      unfold Inv. rewrite Hc2.
      split; [| split].
      + rewrite map_app, Hcells. simpl.
        symmetry. apply take_S_r. exact Hcell.
      + intros k call Hk'.
        apply lookup_app_Some in Hk' as [Hk' | [_ Hk']].
        * pose proof (Hearlier _ _ Hk') as Htake.
          assert (Hin' : call.(call_cell) ∈ cells par).
          { apply elem_of_take in Htake as (? & Hl & _).
            eapply list_elem_of_lookup_2; exact Hl. }
          destruct (cell_idx_nonneg _ _ Hin') as (? & ? & ? & ? & ?).
          eapply stored_same; try eassumption.
          -- apply cell_before_idx. apply Hbefore. exact Htake.
          -- apply (Hstored _ _ Hk').
        * apply list_lookup_singleton_Some in Hk' as [_ <-]. exact Hnew.
      + intros k call Hk' Hlast.
        apply lookup_app_Some in Hk' as [Hk' | [Hge Hk']].
        * specialize (Hguess k call Hk' Hlast).
          unfold last_period_guess in Hguess |- *.
          destruct (cell_i_a (call_cell call) =? 0)%Z; [exact Hguess |].
          destruct Hguess as (k' & prev & x0 & Hlt & Hprev' & Hrest).
          exists k', prev, x0. split; [exact Hlt |].
          split; [apply lookup_app_l_Some; exact Hprev' | exact Hrest].
        * apply list_lookup_singleton_Some in Hk' as [Hk0 <-].
          unfold last_period_guess. simpl in Hlast |- *.
          specialize (Hinit Hlast).
          destruct (cell_i_a cell =? 0)%Z eqn:Hia.
          { destruct Hinit as (w_t & w_neg & h0 & Hw & Hsb & Hmax & ->).
            exists w_t, w_neg. split; [exact Hw |]. split; [exact Hsb |].
            destruct (hours_min_finite _ _ _ _ Hmax) as (H1 & H2 & H3).
            split; [intros Hw0; rewrite (H1 Hw0); reflexivity |].
            split; [intros Hw0 Ha0 Hx; rewrite (H2 Hw0 Ha0 Hx); reflexivity |].
            intros h Hh. injection Hh as <-. exact H3. }
          destruct Hinit as (h_prev & Hget & ->).
          apply elem_of_cells in Hin as (_ & _ & Ha_in & _).
          apply enumerate_elem in Ha_in as (_ & Ha_in).
          assert (Hprev_in : exists assets',
            ((cell_i_a cell - 1)%Z, assets') ∈ enumerate par.(Par.a_grid)).
          { destruct (lookup_lt_is_Some_2 par.(Par.a_grid)
                        (Z.to_nat (cell_i_a cell - 1))) as [assets' Hl].
            - apply lookup_lt_Some in Ha_in. lia.
            - exists assets'. apply enumerate_elem. split; [lia | exact Hl]. }
          destruct Hprev_in as (assets' & Hprev_in).
          specialize (Hprev assets' Hprev_in).
          rewrite <- Hcells in Hprev.
          apply list_elem_of_fmap in Hprev as (prev & Hprev_cell & Hprev_call).
          apply list_elem_of_lookup_1 in Hprev_call as (k' & Hk').
          pose proof (Hstored _ _ Hk') as (_ & Hprev_stored).
          rewrite <- Hprev_cell in Hprev_stored. simpl in Hprev_stored.
          assert ((cell_t cell =? Par.T par - 1)%Z = true) as Hlast' by lia.
          rewrite Hlast' in Hprev_stored.
          destruct Hprev_stored as (x0 & c_val & Hx0 & _ & _ & Hh).
          unfold get_idx, cell_idx in Hh. simpl in Hh.
          rewrite Hget in Hh. injection Hh as ->.
          exists k', prev, x0.
          split; [apply lookup_lt_Some in Hk'; lia |].
          split; [apply lookup_app_l_Some; exact Hk' |].
          split; [rewrite <- Hprev_cell; reflexivity |].
          split; [exact Hx0 | reflexivity]. }
  destruct Hend as (Hcells & Hstored & Hguess).
  split; [| split; assumption].
  rewrite Hcells. apply firstn_all.
Qed.

(** X16: nothing [solve] stores is overwritten: when the run ends, the
    solution arrays hold, at the index of every cell, the result of the
    optimizer call made for that cell ([sol.V = -res.fun]; in the last
    period [sol.h = res.x[0]] and [sol.c = cons_last(res.x[0], ...)], in
    the earlier periods [sol.c = res.x[0]] and [sol.h = res.x[1]]). *)
Theorem solve_stores_results par sol st :
  solve_run interp_2d minimize_trust_constr minimize_lbfgsb par sol
  = Some st ->
  forall k call, st.(st_calls) !! k = Some call ->
    call.(call_cell) ∈ cells par /\ stored par st.(st_sol) call.
Proof.
  intros Hrun k call Hk.
  destruct (solve_run_stored _ _ _ Hrun) as (Hcells & Hstored & _).
  split; [| apply (Hstored _ _ Hk)].
  rewrite <- Hcells. apply list_elem_of_fmap. exists call.
  split; [reflexivity | eapply list_elem_of_lookup_2; exact Hk].
Qed.

(** X17: in the arrays [solve] returns, consumption and hours of every
    cell of the last period satisfy the budget of the last period:
    [sol.c[idx]] is [cons_last] of [sol.h[idx]] and the state of the cell,
    and it is at least [1e-8]. *)
Theorem solve_last_period_budget par sol sol' :
  solve interp_2d minimize_trust_constr minimize_lbfgsb par sol = Some sol' ->
  forall c, c ∈ cells par -> c.(cell_t) = (par.(Par.T) - 1)%Z ->
  exists hours c_val,
    get_idx sol'.(Sol.h) (cell_idx c) = Some hours /\
    get_idx sol'.(Sol.c) (cell_idx c) = Some c_val /\
    cons_last par hours c.(cell_assets) c.(cell_capital) c.(cell_kids)
      c.(cell_spouse) = Some c_val /\
    1e-8 <= c_val.
Proof.
  unfold solve. intros Hsolve c Hc Hlast.
  destruct (solve_run _ _ _ par sol) as [st |] eqn:Hrun; simpl in Hsolve;
    [| discriminate].
  injection Hsolve as <-.
  destruct (solve_run_stored _ _ _ Hrun) as (Hcells & Hstored & _).
  rewrite <- Hcells in Hc.
  apply list_elem_of_fmap in Hc as (call & -> & Hcall).
  apply list_elem_of_lookup_1 in Hcall as (k & Hk).
  destruct (Hstored _ _ Hk) as (_ & Hst).
  assert ((cell_t (call_cell call) =? Par.T par - 1)%Z = true) as Hl by lia.
  rewrite Hl in Hst. destruct Hst as (x0 & c_val & _ & Hcons & Hc' & Hh').
  exists x0, c_val. split; [exact Hh' |]. split; [exact Hc' |].
  split; [exact Hcons | eapply cons_last_ge; exact Hcons].
Qed.

(** X18: [solve] goes through the periods backwards and through every
    cell once: a call made before another one is for a cell that comes
    before it in the loop nest, so it is for the same or a later period
    and for a different index; every period called lies in [0, T-1]. *)
Theorem solve_backward_order par sol st :
  solve_run interp_2d minimize_trust_constr minimize_lbfgsb par sol
  = Some st ->
  forall k1 k2 call1 call2,
    st.(st_calls) !! k1 = Some call1 ->
    st.(st_calls) !! k2 = Some call2 ->
    (k1 < k2)%nat ->
    cell_before call1.(call_cell) call2.(call_cell) /\
    (call2.(call_cell).(cell_t) <= call1.(call_cell).(cell_t))%Z /\
    cell_idx call1.(call_cell) <> cell_idx call2.(call_cell) /\
    (0 <= call2.(call_cell).(cell_t) < par.(Par.T))%Z.
Proof.
  intros Hrun k1 k2 call1 call2 H1 H2 Hlt.
  destruct (solve_run_stored _ _ _ Hrun) as (Hcells & _ & _).
  assert (Hc1 : cells par !! k1 = Some call1.(call_cell))
    by (rewrite <- Hcells, list_lookup_fmap, H1; reflexivity).
  assert (Hc2 : cells par !! k2 = Some call2.(call_cell))
    by (rewrite <- Hcells, list_lookup_fmap, H2; reflexivity).
  destruct (cells_levels _ _ _ Hc2) as (Hbefore & _).
  assert (Hb : cell_before call1.(call_cell) call2.(call_cell)).
  { apply Hbefore. apply elem_of_take. exists k1. auto. }
  split; [exact Hb |]. split; [| split].
  - unfold cell_before in Hb. lia.
  - apply cell_before_idx. exact Hb.
  - apply list_elem_of_lookup_2 in Hc2.
    apply elem_of_cells in Hc2 as (Ht & _). exact Ht.
Qed.

(** X19: in the last period the optimizer is warm-started along the asset
    grid.  At the first asset index the wage of the period exists and the
    initial guess is [hours_min]: with a wage that is not zero the single
    number [max(-assets/wage + 1e-5, 2.0)]; with a zero wage, where numpy
    divides without raising, the floor 2.0 when the quotient is minus
    infinity; a guess that is a number is never below 2.  At every later
    asset index the guess is the hours [res.x[0]] found by the earlier
    call for the previous asset index and the same period, children,
    capital and spouse indices. *)
Theorem solve_last_period_guess par sol st :
  solve_run interp_2d minimize_trust_constr minimize_lbfgsb par sol
  = Some st ->
  forall k call, st.(st_calls) !! k = Some call ->
    call.(call_cell).(cell_t) = (par.(Par.T) - 1)%Z ->
    last_period_guess par st.(st_calls) k call.
Proof.
  intros Hrun k call Hk Hlast.
  destruct (solve_run_stored _ _ _ Hrun) as (_ & _ & Hguess).
  exact (Hguess k call Hk Hlast).
Qed.

(** X20: every index of the grid is solved: for every period in
    [0, T-1] and every position in the children, asset, capital and spouse
    grids there is a call of the optimizer for the cell with these
    indices. *)
Theorem solve_covers_grid par sol st :
  solve_run interp_2d minimize_trust_constr minimize_lbfgsb par sol
  = Some st ->
  forall t i_n i_s i_a i_k : Z,
    (0 <= t < par.(Par.T))%Z ->
    (0 <= i_n < Z.of_nat (length par.(Par.n_grid)))%Z ->
    (0 <= i_s < Z.of_nat (length par.(Par.spouse_grid)))%Z ->
    (0 <= i_a < Z.of_nat (length par.(Par.a_grid)))%Z ->
    (0 <= i_k < Z.of_nat (length par.(Par.k_grid)))%Z ->
    exists k call,
      st.(st_calls) !! k = Some call /\
      cell_idx call.(call_cell) = (t, i_n, i_s, i_a, i_k) /\
      stored par st.(st_sol) call.
Proof.
  intros Hrun t i_n i_s i_a i_k Ht Hn Hs Ha Hk.
  destruct (solve_run_stored _ _ _ Hrun) as (Hcells & Hstored & _).
  destruct (lookup_lt_is_Some_2 par.(Par.n_grid) (Z.to_nat i_n) ltac:(lia))
    as [kids Hkids].
  destruct (lookup_lt_is_Some_2 par.(Par.spouse_grid) (Z.to_nat i_s) ltac:(lia))
    as [spouse Hspouse].
  destruct (lookup_lt_is_Some_2 par.(Par.a_grid) (Z.to_nat i_a) ltac:(lia))
    as [assets Hassets].
  destruct (lookup_lt_is_Some_2 par.(Par.k_grid) (Z.to_nat i_k) ltac:(lia))
    as [capital Hcapital].
  assert (Hc : mkCell t i_n kids i_a assets i_k capital i_s spouse ∈ cells par).
  { apply elem_of_cells. simpl. split; [exact Ht |].
    repeat split; apply enumerate_elem; (split; [lia | assumption]). }
  rewrite <- Hcells in Hc.
  apply list_elem_of_fmap in Hc as (call & Hcell & Hcall).
  apply list_elem_of_lookup_1 in Hcall as (k & Hk').
  exists k, call. split; [exact Hk' |].
  split; [rewrite <- Hcell; reflexivity | apply (Hstored _ _ Hk')].
Qed.

End SolveMore.

(** * Examples of the further properties *)

(** ** Period reward model, at the baseline parameters *)

Lemma util_defined par c hours kids :
  0 < c -> 0 <= hours ->
  1.0 + par.(Par.eta) <> 0 -> 0 < 1.0 + par.(Par.gamma) ->
  exists u, util par c hours kids = Some u.
Proof.
  intros Hc Hh He Hg. unfold util.
  rewrite (py_pow_pos _ _ Hc). simpl. rewrite (py_div_Some _ _ He). simpl.
  destruct (py_pow_nonneg hours (1.0 + par.(Par.gamma)) Hh Hg) as [hp ->].
  simpl. rewrite py_div_Some by lra. simpl. eauto.
Qed.

Lemma util_monotone_cons_witness :
  exists u1 u2,
    util (baseline [] []) 1 1 0 = Some u1 /\
    util (baseline [] []) 2 1 0 = Some u2 /\
    u1 <= u2.
Proof.
  destruct (util_defined (baseline [] []) 1 1 0) as [u1 H1];
    [lra | lra | simpl; lra | simpl; lra |].
  destruct (util_defined (baseline [] []) 2 1 0) as [u2 H2];
    [lra | lra | simpl; lra | simpl; lra |].
  exists u1, u2. split; [exact H1 |]. split; [exact H2 |].
  apply (util_monotone_cons (baseline [] []) 1 2 1 0 u1 u2).
  - simpl. lra.
  - lra.
  - exact H1.
  - exact H2.
Defined.

Lemma util_monotone_hours_kids_witness :
  exists u1 u2,
    util (baseline [] []) 1 1 0 = Some u1 /\
    util (baseline [] []) 1 2 1 = Some u2 /\
    u2 <= u1.
Proof.
  destruct (util_defined (baseline [] []) 1 1 0) as [u1 H1];
    [lra | lra | simpl; lra | simpl; lra |].
  destruct (util_defined (baseline [] []) 1 2 1) as [u2 H2];
    [lra | lra | simpl; lra | simpl; lra |].
  exists u1, u2. split; [exact H1 |]. split; [exact H2 |].
  apply (util_monotone_hours_kids (baseline [] []) 1 1 2 0 1 u1 u2).
  - simpl. lra.
  - simpl. lra.
  - simpl. lra.
  - lra.
  - lia.
  - exact H1.
  - exact H2.
Defined.

Lemma cons_last_monotone_witness :
  exists c1 c2,
    cons_last (baseline [] []) 1 0 0 0 0 = Some c1 /\
    cons_last (baseline [] []) 2 1 0 0 0 = Some c2 /\
    c1 <= c2.
Proof.
  destruct (cons_last_Some (baseline [] []) 1 0 0 0 0 (1.0 * 1) eq_refl)
    as (c1 & H1 & _).
  destruct (cons_last_Some (baseline [] []) 2 1 0 0 0 (1.0 * 1) eq_refl)
    as (c2 & H2 & _).
  exists c1, c2. split; [exact H1 |]. split; [exact H2 |].
  apply (cons_last_monotone (baseline [] []) 1 2 0 1 0 0 0
           (0.9 * (1 + 0.1 * 0)) c1 c2).
  - apply wage_func_configure. simpl. lia.
  - lra.
  - lra.
  - lra.
  - exact H1.
  - exact H2.
Defined.

Lemma budget_ignores_kids_spouse_witness :
  cons_last (baseline [] []) 1 0 0 0 0 = cons_last (baseline [] []) 1 0 0 1 1 /\
  next_state (baseline [] []) 1 1 0 0 0 0 3
  = next_state (baseline [] []) 1 1 0 0 1 1 3.
Proof.
  apply (budget_ignores_kids_spouse (baseline [] []) 1 1 0 0 0 0 1 1 3).
  - simpl. lra.
  - reflexivity.
Defined.

Lemma wage_func_period_index_witness :
  wage_func (baseline [] []) 0 (9 - 10) = wage_func (baseline [] []) 0 9 /\
  ~ is_Some (wage_func (baseline [] []) 0 10).
Proof.
  destruct (wage_func_period_index (baseline [] []) 0 9) as (_ & Hwrap).
  destruct (wage_func_period_index (baseline [] []) 0 10) as (Hdef & _).
  split.
  - apply Hwrap. simpl. lia.
  - intros H. apply Hdef in H. simpl in H. lia.
Defined.

(** ** Earlier periods *)

Lemma value_of_choice_last_period_witness :
  value_of_choice interp_2d_bilinear par_half_spouse sol_half_spouse
    1 1 0 0 0 0 1 = None.
Proof.
  apply (value_of_choice_last_period interp_2d_bilinear par_half_spouse
           sol_half_spouse 1 1 0 0 0 0 1).
  simpl. lia.
Defined.

Lemma EV_next_one_household :
  EV_next interp_2d_bilinear (par_one_household 0.1) sol_ones 1 1 0 0 0 0 0
  = Some (1.0 * (0.1 * 0 + (1 - 0.1) * 0) + (1 - 1.0) * 0) /\
  EV_next_spec interp_2d_bilinear (par_one_household 0.1) sol_ones 1 1 0 0 0 0 0
  = Some (1.0 * (0.1 * 0 + (1 - 0.1) * 0) + (1 - 1.0) * 0).
Proof.
  split.
  - rewrite EV_next_eq. unfold next_state, par_one_household.
    rewrite wage_func_configure by lia. simpl.
    unfold V_at. simpl.
    rewrite !interp_2d_bilinear_const. reflexivity.
  - unfold EV_next_spec, next_state, par_one_household.
    rewrite wage_func_configure by lia. simpl.
    unfold V_at. simpl.
    rewrite !interp_2d_bilinear_const. reflexivity.
Qed.

Lemma EV_next_certain_spouse_witness :
  exists ev ev_spec,
    EV_next interp_2d_bilinear (par_one_household 0.1) sol_ones 1 1 0 0 0 0 0
    = Some ev /\
    EV_next_spec interp_2d_bilinear (par_one_household 0.1) sol_ones
      1 1 0 0 0 0 0 = Some ev_spec /\
    ev = ev_spec.
Proof.
  destruct EV_next_one_household as [H1 H2].
  eexists _, _. split; [exact H1 |]. split; [exact H2 |].
  apply (EV_next_certain_spouse interp_2d_bilinear (par_one_household 0.1)
           sol_ones 1 1 0 0 0 0 0 _ _ ltac:(simpl; lra) H1 H2).
Defined.

Lemma value_of_choice_zero_cons_witness :
  value_of_choice interp_2d_bilinear (par_one_household 0.1) sol_ones
    0 1 0 0 0 0 0 = None.
Proof.
  apply (value_of_choice_zero_cons interp_2d_bilinear (par_one_household 0.1)
           sol_ones 1 0 0 0 0 0).
  simpl. lra.
Defined.

(** ** Simulation *)

Lemma sim_two_households_allocated p_spouse :
  sim_allocated (par_two_households p_spouse) sim_two_households.
Proof.
  assert (Hcell : forall i t, (0 <= i < 2)%Z -> (0 <= t < 2)%Z ->
    (i = 0%Z \/ i = 1%Z) /\ (t = 0%Z \/ t = 1%Z)) by (intros; lia).
  unfold sim_allocated. simpl.
  repeat match goal with
    | |- defined2 _ _ _ /\ _ => split
    | |- defined2 _ _ _ =>
        intros i t Hi Ht;
        destruct (Hcell i t Hi Ht) as [[-> | ->] [-> | ->]];
        eexists; reflexivity
    end.
  intros i Hi. assert (i = 0 \/ i = 1)%Z as [-> | ->] by lia.
  - split; [eexists; reflexivity |]. split; [eexists; reflexivity |].
    exists 0%Z. split; [reflexivity | lia].
  - split; [eexists; reflexivity |]. split; [eexists; reflexivity |].
    exists 1%Z. split; [reflexivity | lia].
Qed.

Lemma sol_ones_allocated_two p_spouse :
  sol_allocated (par_two_households p_spouse) sol_ones.
Proof.
  split.
  - simpl. intros t n s Ht Hn Hs.
    assert (t = 0 \/ t = 1)%Z as [-> | ->] by lia;
      assert (n = 0 \/ n = 1)%Z as [-> | ->] by lia;
      assert (s = 0 \/ s = 1)%Z as [-> | ->] by lia;
      split; eexists; reflexivity.
  - simpl. intros t Ht. assert (t = 0%Z) as -> by lia. eexists; reflexivity.
Qed.

Lemma simulate_two_households p_spouse :
  exists sim',
    simulate interp_2d_bilinear (par_two_households p_spouse) sol_ones
      sim_two_households = Some sim'.
Proof.
  apply simulate_total.
  - apply sim_two_households_allocated.
  - apply sol_ones_allocated_two.
  - simpl. lia.
Qed.

Lemma simulate_spouse_indicator_witness :
  exists sim' draw_s s_it,
    simulate interp_2d_bilinear (par_two_households 1.0) sol_ones
      sim_two_households = Some sim' /\
    get2 (Sim.draws_uniform_spouse sim_two_households) 0 1 = Some draw_s /\
    get2 (Sim.s sim') 0 1 = Some s_it /\
    (s_it = 1%Z /\ draw_s <= 1.0 \/ s_it = 0%Z /\ 1.0 < draw_s).
Proof.
  destruct (simulate_two_households 1.0) as [sim' Hrun].
  destruct (simulate_spouse_indicator interp_2d_bilinear
              (par_two_households 1.0) sol_ones sim_two_households sim' Hrun
              0%Z 1%Z) as (draw_s & s_it & H).
  - simpl. lia.
  - simpl. lia.
  - exists sim', draw_s, s_it. split; [exact Hrun | exact H].
Defined.

Lemma simulate_initial_states_witness :
  exists sim',
    simulate interp_2d_bilinear (par_two_households 1.0) sol_ones
      sim_two_households = Some sim' /\
    get2 (Sim.a sim') 1 0 = Some 1 /\
    get2 (Sim.k sim') 1 0 = Some 1 /\
    get2 (Sim.n sim') 1 0 = Some 1%Z.
Proof.
  destruct (simulate_two_households 1.0) as [sim' Hrun].
  destruct (simulate_initial_states interp_2d_bilinear
              (par_two_households 1.0) sol_ones sim_two_households sim' Hrun
              1%Z) as (a0 & k0 & n0 & Ha0 & Hk0 & Hn0 & Ha & Hk & Hn).
  - simpl. lia.
  - simpl in Ha0, Hk0, Hn0.
    injection Ha0 as <-. injection Hk0 as <-. injection Hn0 as <-.
    exists sim'. auto.
Defined.

Lemma simulate_policy_witness :
  exists sim' n_it s_it a_it k_it sol_c,
    simulate interp_2d_bilinear (par_two_households 1.0) sol_ones
      sim_two_households = Some sim' /\
    get2 (Sim.n sim') 1 1 = Some n_it /\
    get2 (Sim.s sim') 1 1 = Some s_it /\
    get2 (Sim.a sim') 1 1 = Some a_it /\
    get2 (Sim.k sim') 1 1 = Some k_it /\
    get3 (Sol.c sol_ones) 1 n_it s_it = Some sol_c /\
    get2 (Sim.c sim') 1 1
    = Some (interp_2d_bilinear unit_grid unit_grid sol_c a_it k_it).
Proof.
  destruct (simulate_two_households 1.0) as [sim' Hrun].
  destruct (simulate_policy interp_2d_bilinear (par_two_households 1.0)
              sol_ones sim_two_households sim' Hrun 1%Z 1%Z)
    as (n_it & s_it & a_it & k_it & sol_c & sol_h
        & Hn & Hs & Ha & Hk & Hsc & _ & Hc & _).
  - simpl. lia.
  - simpl. lia.
  - exists sim', n_it, s_it, a_it, k_it, sol_c. auto 10.
Defined.

Lemma simulate_returns_witness :
  exists sim',
    simulate interp_2d_bilinear (par_two_households 1.0) sol_ones
      sim_two_households = Some sim' /\
    Sim.draws_uniform sim' = [[0.05; 0.5]; [0.5; 0.05]].
Proof.
  destruct (simulate_returns interp_2d_bilinear (par_two_households 1.0)
              sol_ones sim_two_households) as (sim' & Hrun & Hd & _).
  - apply sim_two_households_allocated.
  - apply sol_ones_allocated_two.
  - simpl. lia.
  - exists sim'. split; [exact Hrun | exact Hd].
Defined.

Lemma simulate_children_out_of_range_witness :
  simulate interp_2d_bilinear (par_one_household 0.1) sol_ones
    (sim_with_children 2) = None.
Proof.
  apply (simulate_children_out_of_range interp_2d_bilinear
           (par_one_household 0.1) sol_ones (sim_with_children 2) 2).
  - simpl. lia.
  - simpl. lia.
  - reflexivity.
  - simpl. intros sol_0 H. injection H as <-. reflexivity.
Defined.

Lemma simulate_first_household :
  exists sim',
    simulate_individual interp_2d_bilinear (par_two_households 1.0) sol_ones
      sim_two_households 0 = Some sim'.
Proof.
  destruct (simulate_individual_total interp_2d_bilinear
              (par_two_households 1.0) sol_ones sim_two_households 0)
    as (sim' & Hrun & _).
  - apply sim_two_households_allocated.
  - apply sol_ones_allocated_two.
  - simpl. lia.
  - simpl. lia.
  - eauto.
Qed.

Lemma simulate_individual_frame_witness :
  exists sim',
    simulate_individual interp_2d_bilinear (par_two_households 1.0) sol_ones
      sim_two_households 0 = Some sim' /\
    get2 (Sim.c sim') 1 0 = Some 0 /\
    get2 (Sim.a sim') 1 1 = Some 0 /\
    get2 (Sim.n sim') 1 1 = Some 0%Z.
Proof.
  destruct simulate_first_household as [sim' Hrun].
  exists sim'. split; [exact Hrun |].
  destruct (simulate_individual_frame interp_2d_bilinear
              (par_two_households 1.0) sol_ones sim_two_households 0 sim'
              (Z.le_refl 0) Hrun 1%Z 0%Z) as (Hc & _); [lia | lia | lia |].
  destruct (simulate_individual_frame interp_2d_bilinear
              (par_two_households 1.0) sol_ones sim_two_households 0 sim'
              (Z.le_refl 0) Hrun 1%Z 1%Z) as (_ & _ & _ & Ha & _ & Hn);
    [lia | lia | lia |].
  rewrite Hc, Ha, Hn. auto.
Defined.

Lemma simulate_no_spouse_no_birth_witness :
  exists sim',
    simulate interp_2d_bilinear (par_two_households 0.2) sol_ones
      sim_two_households = Some sim' /\
    get2 (Sim.s sim') 0 0 = Some 0%Z /\
    get2 (Sim.n sim') 0 1 = Some 0%Z /\
    get2 (Sim.n sim') 1 1 = Some 1%Z.
Proof.
  destruct (simulate_two_households 0.2) as [sim' Hrun].
  assert (Hdraws : forall i t draw_s,
    get2 (Sim.draws_uniform_spouse sim_two_households) i t = Some draw_s ->
    Par.p_spouse (par_two_households 0.2) < draw_s).
  { intros i t d Hd. apply get2_In in Hd as (row & Hrow & Hd).
    simpl in Hrow. destruct Hrow as [<- | [<- | []]];
      simpl in Hd; destruct Hd as [<- | [<- | []]]; simpl; lra. }
  exists sim'. split; [exact Hrun |].
  destruct (simulate_no_spouse_no_birth interp_2d_bilinear
              (par_two_households 0.2) sol_ones sim_two_households sim'
              Hdraws Hrun 0%Z 0%Z) as (Hs & _); [simpl; lia | simpl; lia |].
  destruct (simulate_no_spouse_no_birth interp_2d_bilinear
              (par_two_households 0.2) sol_ones sim_two_households sim'
              Hdraws Hrun 0%Z 1%Z) as (_ & n0 & Hn0 & Hn);
    [simpl; lia | simpl; lia |].
  destruct (simulate_no_spouse_no_birth interp_2d_bilinear
              (par_two_households 0.2) sol_ones sim_two_households sim'
              Hdraws Hrun 1%Z 1%Z) as (_ & n1 & Hn1 & Hn');
    [simpl; lia | simpl; lia |].
  simpl in Hn0, Hn1. injection Hn0 as <-. injection Hn1 as <-.
  auto.
Defined.

(** ** Solution *)

Lemma calls_of_cells (calls : list Call) (cs : list Cell) j cell :
  map call_cell calls = cs -> cs !! j = Some cell ->
  exists call, calls !! j = Some call /\ call.(call_cell) = cell.
Proof.
  intros <- Hj. rewrite list_lookup_fmap in Hj.
  destruct (calls !! j) as [call |]; simpl in Hj; [| discriminate].
  injection Hj as <-. eauto.
Qed.

Lemma solve_two_assets :
  exists st,
    solve_run interp_2d_bilinear trust_constr_fixed lbfgsb_fixed
      par_two_assets sol_two_assets = Some st.
Proof.
  eexists.
  unfold solve_run.
  change (cells par_two_assets)
    with [mkCell 0 0 0 0 (-3) 0 0 0 0; mkCell 0 0 0 1 1 0 0 0 0].
  cbn [for_each]. unfold solve_cell. simpl.
  rewrite (np_true_divide_Fin (- -3)) by lra. simpl. reflexivity.
Qed.

(** Without a wage and with positive assets [hours_min] is minus infinity
    before the floor, and the run goes on from the floor. *)
Lemma solve_zero_wage :
  exists st,
    solve_run interp_2d_bilinear trust_constr_fixed lbfgsb_fixed
      par_zero_wage sol_two_assets = Some st.
Proof.
  eexists.
  unfold solve_run.
  change (cells par_zero_wage)
    with [mkCell 0 0 0 0 1 0 0 0 0; mkCell 0 0 0 1 2 0 0 0 0].
  cbn [for_each]. unfold solve_cell. simpl.
  rewrite !signbit_nonneg by lra. simpl.
  rewrite (np_true_divide_NInf (- 1))
    by (try lra; rewrite signbit_neg by lra; reflexivity).
  simpl. reflexivity.
Qed.

Lemma solve_stores_results_witness :
  exists st call,
    solve_run interp_2d_bilinear trust_constr_fixed lbfgsb_fixed
      par_two_children sol_two_children = Some st /\
    st.(st_calls) !! 3%nat = Some call /\
    call.(call_cell) = mkCell 0 1 1 0 0 0 0 0 0 /\
    stored par_two_children st.(st_sol) call.
Proof.
  destruct solve_two_children as (st & Hrun).
  destruct (solve_run_calls _ _ _ _ _ _ Hrun) as (Hcells & _).
  destruct (calls_of_cells _ _ 3%nat (mkCell 0 1 1 0 0 0 0 0 0) Hcells eq_refl)
    as (call & Hk & Hcell).
  exists st, call. split; [exact Hrun |]. split; [exact Hk |].
  split; [exact Hcell |].
  apply (solve_stores_results interp_2d_bilinear trust_constr_fixed
           lbfgsb_fixed par_two_children sol_two_children st Hrun 3%nat call Hk).
Defined.

Lemma solve_last_period_budget_witness :
  exists sol' hours c_val,
    solve interp_2d_bilinear trust_constr_fixed lbfgsb_fixed
      par_two_children sol_two_children = Some sol' /\
    get_idx sol'.(Sol.h) (1, 1, 0, 0, 0)%Z = Some hours /\
    get_idx sol'.(Sol.c) (1, 1, 0, 0, 0)%Z = Some c_val /\
    cons_last par_two_children hours 0 0 1 0 = Some c_val /\
    1e-8 <= c_val.
Proof.
  destruct solve_two_children as (st & Hrun).
  assert (Hsolve :
    solve interp_2d_bilinear trust_constr_fixed lbfgsb_fixed
      par_two_children sol_two_children = Some st.(st_sol))
    by (unfold solve; rewrite Hrun; reflexivity).
  destruct (solve_last_period_budget interp_2d_bilinear trust_constr_fixed
              lbfgsb_fixed par_two_children sol_two_children _ Hsolve
              (mkCell 1 1 1 0 0 0 0 0 0))
    as (hours & c_val & H).
  - apply (list_elem_of_lookup_2 _ 1%nat). reflexivity.
  - reflexivity.
  - exists st.(st_sol), hours, c_val. split; [exact Hsolve | exact H].
Defined.

Lemma solve_backward_order_witness :
  exists st call1 call2,
    solve_run interp_2d_bilinear trust_constr_fixed lbfgsb_fixed
      par_two_children sol_two_children = Some st /\
    st.(st_calls) !! 1%nat = Some call1 /\
    st.(st_calls) !! 2%nat = Some call2 /\
    (call2.(call_cell).(cell_t) <= call1.(call_cell).(cell_t))%Z /\
    cell_idx call1.(call_cell) <> cell_idx call2.(call_cell).
Proof.
  destruct solve_two_children as (st & Hrun).
  destruct (solve_run_calls _ _ _ _ _ _ Hrun) as (Hcells & _).
  destruct (calls_of_cells _ _ 1%nat (mkCell 1 1 1 0 0 0 0 0 0) Hcells eq_refl)
    as (call1 & H1 & _).
  destruct (calls_of_cells _ _ 2%nat (mkCell 0 0 0 0 0 0 0 0 0) Hcells eq_refl)
    as (call2 & H2 & _).
  destruct (solve_backward_order interp_2d_bilinear trust_constr_fixed
              lbfgsb_fixed par_two_children sol_two_children st Hrun
              1%nat 2%nat call1 call2 H1 H2) as (_ & Ht & Hidx & _); [lia |].
  exists st, call1, call2. auto.
Defined.

Lemma solve_last_period_guess_witness :
  (exists st first second x0 h0,
      solve_run interp_2d_bilinear trust_constr_fixed lbfgsb_fixed
        par_two_assets sol_two_assets = Some st /\
      st.(st_calls) !! 0%nat = Some first /\
      st.(st_calls) !! 1%nat = Some second /\
      first.(call_init) = [h0] /\ 3 < h0 /\
      np_get first.(call_res).(Res.x) 0 = Some x0 /\
      second.(call_init) = [x0]) /\
  (exists st first,
      solve_run interp_2d_bilinear trust_constr_fixed lbfgsb_fixed
        par_zero_wage sol_two_assets = Some st /\
      st.(st_calls) !! 0%nat = Some first /\
      wage_func par_zero_wage 0 0 = Some 0 /\
      first.(call_init) = [2.0]).
Proof.
  split.
  - destruct solve_two_assets as (st & Hrun).
    destruct (solve_run_calls _ _ _ _ _ _ Hrun) as (Hcells & _).
    destruct (calls_of_cells _ _ 0%nat (mkCell 0 0 0 0 (-3) 0 0 0 0) Hcells
                eq_refl) as (first & H1 & Hc1).
    destruct (calls_of_cells _ _ 1%nat (mkCell 0 0 0 1 1 0 0 0 0) Hcells
                eq_refl) as (second & H2 & Hc2).
    pose proof (solve_last_period_guess interp_2d_bilinear trust_constr_fixed
                  lbfgsb_fixed par_two_assets sol_two_assets st Hrun
                  0%nat first H1) as Hfirst.
    unfold last_period_guess in Hfirst. rewrite Hc1 in Hfirst.
    destruct Hfirst as (w_t & w_neg & Hw & _ & Hinit0 & _); [reflexivity |].
    unfold par_two_assets in Hw.
    rewrite wage_func_configure in Hw by (simpl; lia).
    injection Hw as <-.
    pose proof (solve_last_period_guess interp_2d_bilinear trust_constr_fixed
                  lbfgsb_fixed par_two_assets sol_two_assets st Hrun
                  1%nat second H2) as Hsecond.
    unfold last_period_guess in Hsecond. rewrite Hc2 in Hsecond.
    destruct Hsecond as (k' & prev & x0 & Hlt & Hprev & _ & Hx0 & Hinit1);
      [reflexivity |].
    assert (k' = 0%nat) as -> by lia.
    rewrite H1 in Hprev. injection Hprev as <-.
    exists st, first, second, x0. eexists.
    split; [exact Hrun |]. split; [exact H1 |]. split; [exact H2 |].
    split; [apply Hinit0; lra |].
    split; [| split; [exact Hx0 | exact Hinit1]].
    cbn [cell_assets].
    eapply Rlt_le_trans; [| apply Rmax_l].
    replace (0.9 * (1 + 0.1 * 0)) with (9 / 10) by lra.
    lra.
  - destruct solve_zero_wage as (st & Hrun).
    destruct (solve_run_calls _ _ _ _ _ _ Hrun) as (Hcells & _).
    destruct (calls_of_cells _ _ 0%nat (mkCell 0 0 0 0 1 0 0 0 0) Hcells
                eq_refl) as (first & H1 & Hc1).
    pose proof (solve_last_period_guess interp_2d_bilinear trust_constr_fixed
                  lbfgsb_fixed par_zero_wage sol_two_assets st Hrun
                  0%nat first H1) as Hfirst.
    unfold last_period_guess in Hfirst. rewrite Hc1 in Hfirst.
    destruct Hfirst as (w_t & w_neg & Hw & Hsb & _ & Hinit0 & _);
      [reflexivity |].
    assert (Hwage : wage_func par_zero_wage 0 0 = Some 0).
    { unfold wage_func. simpl. f_equal. lra. }
    cbn [cell_capital cell_t cell_assets] in Hw, Hsb, Hinit0.
    rewrite Hwage in Hw. injection Hw as <-.
    unfold wage_func_signbit in Hsb. simpl in Hsb.
    rewrite !signbit_nonneg in Hsb by lra. injection Hsb as <-.
    exists st, first.
    split; [exact Hrun |]. split; [exact H1 |]. split; [exact Hwage |].
    apply Hinit0; [reflexivity | lra |].
    rewrite signbit_neg by lra. reflexivity.
Defined.

Lemma solve_covers_grid_witness :
  exists st k call,
    solve_run interp_2d_bilinear trust_constr_fixed lbfgsb_fixed
      par_two_children sol_two_children = Some st /\
    st.(st_calls) !! k = Some call /\
    cell_idx call.(call_cell) = (0, 1, 0, 0, 0)%Z.
Proof.
  destruct solve_two_children as (st & Hrun).
  destruct (solve_covers_grid interp_2d_bilinear trust_constr_fixed
              lbfgsb_fixed par_two_children sol_two_children st Hrun
              0%Z 1%Z 0%Z 0%Z 0%Z) as (k & call & Hk & Hidx & _);
    try (simpl; lia).
  exists st, k, call. auto.
Defined.
